(** * Command buffers of the HIP adapter

    A shallow embedding of [source/adapters/hip/command_buffer.cpp]: the
    sync-point registry, the recording (append) entry points, the fill helper,
    the reference-counting protocol of command buffers and command handles,
    and the in-place update of a recorded kernel launch.

    Conventions.
    - [size_t] values are integers in [0, 2^64); arithmetic that can leave
      that range is wrapped explicitly with [wrap_size_t].  The 32-bit loop
      counter of the fill helper is wrapped with [wrap_uint32].
    - A sync point is a 32-bit value: the counter of a command buffer steps
      [mod 2 ^ 32].
    - Objects reached through handles (command buffers, command handles,
      kernels) live in a [Heap]; a handle is a key of the heap.
    - A call yields an [exec] value: it returns, it runs into behaviour the
      C++ source leaves undefined (dangling or null dereference, division by
      zero), or the model runs out of loop fuel.
    - Everything the file calls but does not define (the native graph
      library, kernel and memory objects, launch-parameter computation) is
      collected in the class [Externals]; results hold for every instance.
    - The macros read as their names say: [UR_ASSERT(c, e)] returns [e]
      unless [c] holds, [UR_CALL(f, r)] stores the result of [f] in [r], and
      [UR_CHECK_ERROR(f)] throws a [ur_result_t] when the native call [f]
      does not report [hipSuccess].
    - The host is little-endian. *)

From stdpp Require Import gmap list strings.
From Stdlib Require Import ZArith Lia.

Local Open Scope Z_scope.

(** ** Machine integers *)

Definition wrap_size_t (v : Z) : Z := v mod 2 ^ 64.
Definition wrap_uint32 (v : Z) : Z := v mod 2 ^ 32.

(** ** Result codes *)

Inductive ur_result_t : Set :=
| UR_RESULT_SUCCESS
| UR_RESULT_ERROR_INVALID_OPERATION
| UR_RESULT_ERROR_INVALID_VALUE
| UR_RESULT_ERROR_INVALID_SIZE
| UR_RESULT_ERROR_INVALID_KERNEL
| UR_RESULT_ERROR_INVALID_WORK_DIMENSION
| UR_RESULT_ERROR_INVALID_EVENT_WAIT_LIST
| UR_RESULT_ERROR_INVALID_ENUMERATION
| UR_RESULT_ERROR_OUT_OF_HOST_MEMORY
| UR_RESULT_ERROR_OUT_OF_RESOURCES
| UR_RESULT_ERROR_ADAPTER_SPECIFIC
| UR_RESULT_ERROR_UNKNOWN.

#[global] Instance ur_result_t_eq_dec : EqDecision ur_result_t.
Proof. solve_decision. Defined.

(** ** Outcomes of a call *)

Inductive exec (A : Type) : Type :=
| Returns (a : A)
| Undefined
| OutOfFuel.

Arguments Returns {A} a.
Arguments Undefined {A}.
Arguments OutOfFuel {A}.

#[global] Instance exec_ret : MRet exec := fun A a => Returns a.
#[global] Instance exec_bind : MBind exec := fun A B f m =>
  match m with
  | Returns a => f a
  | Undefined => Undefined
  | OutOfFuel => OutOfFuel
  end.

(** Dereferencing a handle: a handle that names no live object is a dangling
    pointer. *)
Definition deref {A : Type} (o : option A) : exec A :=
  match o with
  | Some a => Returns a
  | None => Undefined
  end.

(** ** Handles *)

Abbreviation ur_context_handle_t := nat (only parsing).
Abbreviation ur_device_handle_t := nat (only parsing).
Abbreviation ur_kernel_handle_t := nat (only parsing).
Abbreviation ur_exp_command_buffer_handle_t := nat (only parsing).
Abbreviation ur_exp_command_buffer_command_handle_t := nat (only parsing).
Abbreviation hipFunction_t := nat (only parsing).
(** A native node handle; the model uses the node's position in its graph. *)
Abbreviation hipGraphNode_t := nat (only parsing).
Abbreviation ur_exp_command_buffer_sync_point_t := N (only parsing).

(** ** The native graph *)

Inductive hipMemcpyKind : Set :=
| hipMemcpyHostToHost
| hipMemcpyHostToDevice
| hipMemcpyDeviceToHost
| hipMemcpyDeviceToDevice.

Inductive hipMemoryType : Set :=
| hipMemoryTypeHost
| hipMemoryTypeDevice
| hipMemoryTypeUnified.

Record hipMemsetParams : Set := {
  dst : Z;
  elementSize : Z;
  height : Z;
  pitch : Z;
  value : Z;
  width : Z
}.

Record dim3 : Set := { dim_x : Z; dim_y : Z; dim_z : Z }.

Record hipKernelNodeParams : Set := {
  func : hipFunction_t;
  gridDim : dim3;
  blockDim : dim3;
  sharedMemBytes : Z;
  kernelParams : list Z;
  extra : option Z
}.

Record hipPos : Set := { pos_x : Z; pos_y : Z; pos_z : Z }.
Record hipPitchedPtr : Set := { ptr : Z; ptr_pitch : Z; xsize : Z; ysize : Z }.
Record hipExtent : Set := { extent_width : Z; extent_height : Z; extent_depth : Z }.

Record hipMemcpy3DParms : Set := {
  srcPos : hipPos;
  srcPtr : hipPitchedPtr;
  dstPos : hipPos;
  dstPtr : hipPitchedPtr;
  extent : hipExtent;
  kind : hipMemcpyKind
}.

(** What a node of the native graph does. *)
Inductive hipGraphNodeType : Set :=
| hipGraphNodeTypeEmpty
| hipGraphNodeTypeKernel (NodeParams : hipKernelNodeParams)
| hipGraphNodeTypeMemcpy1D (Dst Src Count : Z) (Kind : hipMemcpyKind)
| hipGraphNodeTypeMemcpy (NodeParams : hipMemcpy3DParms)
| hipGraphNodeTypeMemset (NodeParams : hipMemsetParams).

Record hipGraphNode : Set := {
  dependencies : list hipGraphNode_t;
  payload : hipGraphNodeType
}.

Abbreviation hipGraph_t := (list hipGraphNode) (only parsing).

(** ** Arguments of the unified-runtime API *)

Record ur_rect_offset_t : Set := { offset_x : Z; offset_y : Z; offset_z : Z }.
Record ur_rect_region_t : Set := { region_width : Z; region_height : Z; region_depth : Z }.

(** Where [setKernelArg] reads an argument from: a null pointer, caller
    memory, or the address of a local variable holding [v]. *)
Inductive arg_source : Set :=
| null_source
| host_source (addr : Z)
| local_source (v : Z).

(** ** Collaborators defined outside this file *)

Class Externals : Type := {
  (** kernel objects ([kernel.hpp]) *)
  ur_kernel_handle_t_ : Type;
  getContext : ur_kernel_handle_t_ → ur_context_handle_t;
  getLocalSize : ur_kernel_handle_t_ → Z;
  clearLocalSize : ur_kernel_handle_t_ → ur_kernel_handle_t_;
  get : ur_kernel_handle_t_ → hipFunction_t;
  getArgIndices : ur_kernel_handle_t_ → list Z;
  (** [setKernelArg Index Size Arg K]: the error it throws, if any, and the
      kernel afterwards *)
  setKernelArg : Z → Z → arg_source → ur_kernel_handle_t_ →
                 option ur_result_t * ur_kernel_handle_t_;
  (** memory objects ([memory.hpp]); each is a buffer, as
      [std::get<BufferMem>] requires *)
  ur_mem_handle_t_ : Type;
  getSize : ur_mem_handle_t_ → Z;
  getPtr : ur_mem_handle_t_ → ur_device_handle_t → Z;
  getPtrWithOffset : ur_mem_handle_t_ → ur_device_handle_t → Z → Z;
  getVoid : ur_mem_handle_t_ → ur_device_handle_t → Z;
  (** launch-parameter computation ([enqueue.hpp]): result code, kernel
      afterwards, threads per block and blocks per grid *)
  setKernelParams :
    ur_device_handle_t → nat → list Z → list Z → option (list Z) →
    ur_kernel_handle_t_ → hipFunction_t → list Z → list Z →
    ur_result_t * ur_kernel_handle_t_ * list Z * list Z;
  setCopyRectParams :
    ur_rect_region_t → Z → hipMemoryType → ur_rect_offset_t → Z → Z →
    Z → hipMemoryType → ur_rect_offset_t → Z → Z → hipMemcpy3DParms;
  (** the native library as seen through [UR_CHECK_ERROR]: [None] when the
      call reports [hipSuccess], [Some Err] when the check throws [Err] *)
  hipGraphAddNode_error : hipGraph_t → hipGraphNode → option ur_result_t;
  hipGraphExecKernelNodeSetParams_error :
    hipGraph_t → hipGraphNode_t → hipKernelNodeParams → option ur_result_t;
  hipGraphCreate_ok : bool;
  hipGraphInstantiateWithFlags_ok : hipGraph_t → bool;
  (** [operator new] for the command-buffer object *)
  new_command_buffer_ok : bool;
  (** what a [size_t[3]] member holds before its first write *)
  indeterminate : list Z;
  (** what is thrown is an error code *)
  setKernelArg_throws_error : ∀ ArgIndex ArgSize Arg Kernel,
    (setKernelArg ArgIndex ArgSize Arg Kernel).1 ≠ Some UR_RESULT_SUCCESS;
  hipGraphAddNode_throws_error : ∀ Graph node,
    hipGraphAddNode_error Graph node ≠ Some UR_RESULT_SUCCESS;
  hipGraphExecKernelNodeSetParams_throws_error : ∀ GraphExec Node Params,
    hipGraphExecKernelNodeSetParams_error GraphExec Node Params ≠
    Some UR_RESULT_SUCCESS
}.

(** ** Command buffers and command handles *)

Record ur_exp_command_buffer_handle_t_ : Type := {
  Context : ur_context_handle_t;
  Device : ur_device_handle_t;
  IsUpdatable : bool;
  HIPGraph : hipGraph_t;
  HIPGraphExec : option hipGraph_t;
  SyncPoints : gmap N hipGraphNode_t;
  NextSyncPoint : N;
  CommandHandles : list ur_exp_command_buffer_command_handle_t;
  RefCountInternal : Z;
  RefCountExternal : Z
}.

Module Command.
Record ur_exp_command_buffer_command_handle_t_ : Type := {
  CommandBuffer : ur_exp_command_buffer_handle_t;
  Kernel : ur_kernel_handle_t;
  Node : hipGraphNode_t;
  Params : hipKernelNodeParams;
  WorkDim : nat;
  GlobalWorkOffset : list Z;
  GlobalWorkSize : list Z;
  LocalWorkSize : list Z;
  RefCountInternal : Z;
  RefCountExternal : Z
}.
End Command.

Abbreviation ur_exp_command_buffer_command_handle_t_ :=
  Command.ur_exp_command_buffer_command_handle_t_.

(** Field updates of a command buffer. *)
Definition set_graph (g : hipGraph_t) (cb : ur_exp_command_buffer_handle_t_) :=
  {| Context := Context cb; Device := Device cb; IsUpdatable := IsUpdatable cb;
     HIPGraph := g; HIPGraphExec := HIPGraphExec cb;
     SyncPoints := SyncPoints cb; NextSyncPoint := NextSyncPoint cb;
     CommandHandles := CommandHandles cb;
     RefCountInternal := RefCountInternal cb;
     RefCountExternal := RefCountExternal cb |}.

Definition set_graph_exec (e : option hipGraph_t) (cb : ur_exp_command_buffer_handle_t_) :=
  {| Context := Context cb; Device := Device cb; IsUpdatable := IsUpdatable cb;
     HIPGraph := HIPGraph cb; HIPGraphExec := e;
     SyncPoints := SyncPoints cb; NextSyncPoint := NextSyncPoint cb;
     CommandHandles := CommandHandles cb;
     RefCountInternal := RefCountInternal cb;
     RefCountExternal := RefCountExternal cb |}.

Definition set_sync_points (m : gmap N hipGraphNode_t) (n : N)
    (cb : ur_exp_command_buffer_handle_t_) :=
  {| Context := Context cb; Device := Device cb; IsUpdatable := IsUpdatable cb;
     HIPGraph := HIPGraph cb; HIPGraphExec := HIPGraphExec cb;
     SyncPoints := m; NextSyncPoint := n;
     CommandHandles := CommandHandles cb;
     RefCountInternal := RefCountInternal cb;
     RefCountExternal := RefCountExternal cb |}.

Definition set_command_handles (l : list ur_exp_command_buffer_command_handle_t)
    (cb : ur_exp_command_buffer_handle_t_) :=
  {| Context := Context cb; Device := Device cb; IsUpdatable := IsUpdatable cb;
     HIPGraph := HIPGraph cb; HIPGraphExec := HIPGraphExec cb;
     SyncPoints := SyncPoints cb; NextSyncPoint := NextSyncPoint cb;
     CommandHandles := l;
     RefCountInternal := RefCountInternal cb;
     RefCountExternal := RefCountExternal cb |}.

Definition set_ref_counts (internal external : Z)
    (cb : ur_exp_command_buffer_handle_t_) :=
  {| Context := Context cb; Device := Device cb; IsUpdatable := IsUpdatable cb;
     HIPGraph := HIPGraph cb; HIPGraphExec := HIPGraphExec cb;
     SyncPoints := SyncPoints cb; NextSyncPoint := NextSyncPoint cb;
     CommandHandles := CommandHandles cb;
     RefCountInternal := internal;
     RefCountExternal := external |}.

(** Modelled from the spec: the counter methods ([incrementInternalReferenceCount],
    [decrementInternalReferenceCount] and their external twins) are declared in
    [command_buffer.hpp], which is not among the sources.  The spec describes
    them as increments and decrements of a count; each returns the new count. *)
Definition incrementInternalReferenceCount (cb : ur_exp_command_buffer_handle_t_) :=
  set_ref_counts (RefCountInternal cb + 1) (RefCountExternal cb) cb.
Definition incrementExternalReferenceCount (cb : ur_exp_command_buffer_handle_t_) :=
  set_ref_counts (RefCountInternal cb) (RefCountExternal cb + 1) cb.
Definition decrementInternalReferenceCount (cb : ur_exp_command_buffer_handle_t_) :=
  set_ref_counts (RefCountInternal cb - 1) (RefCountExternal cb) cb.
Definition decrementExternalReferenceCount (cb : ur_exp_command_buffer_handle_t_) :=
  set_ref_counts (RefCountInternal cb) (RefCountExternal cb - 1) cb.

(** The constructor of a command buffer: context, device and updatability as
    given, no native graph yet, no compiled graph, both counts 1.  The null
    graph is identified with the empty graph that [hipGraphCreate] puts in
    its place.  The members the constructor does not name start empty; the
    first sync point is 0 (the spec: ids are dense, increasing, starting
    at 0). *)
Definition new_ur_exp_command_buffer_handle_t_
    (hContext : ur_context_handle_t) (hDevice : ur_device_handle_t)
    (IsUpdatable : bool) : ur_exp_command_buffer_handle_t_ :=
  {| Context := hContext; Device := hDevice; IsUpdatable := IsUpdatable;
     HIPGraph := []; HIPGraphExec := None;
     SyncPoints := ∅; NextSyncPoint := 0%N;
     CommandHandles := [];
     RefCountInternal := 1; RefCountExternal := 1 |}.

(** ** The sync-point registry *)

(** Modelled from the spec: [addSyncPoint] is declared in [command_buffer.hpp],
    which is not among the sources.  The spec: the node is registered under
    the next sync point, which is returned, and the id after it becomes the
    next one; a sync point is a 32-bit handle, so the id after [2 ^ 32 - 1]
    is 0. *)
Definition addSyncPoint (HIPNode : hipGraphNode_t)
    (cb : ur_exp_command_buffer_handle_t_)
    : N * ur_exp_command_buffer_handle_t_ :=
  let SyncPoint := NextSyncPoint cb in
  (SyncPoint,
   set_sync_points (<[SyncPoint := HIPNode]> (SyncPoints cb))
     ((SyncPoint + 1) mod 2 ^ 32)%N cb).

(** The loop of [getNodesFromSyncPoints]: each sync point of the wait list is
    looked up; the first unknown one ends the search with
    [UR_RESULT_ERROR_INVALID_VALUE]. *)
Fixpoint getNodesFromSyncPoints_loop (SyncPoints : gmap N hipGraphNode_t)
    (WaitList : list N) (HIPNodesList : list hipGraphNode_t)
    : ur_result_t * list hipGraphNode_t :=
  match WaitList with
  | [] => (UR_RESULT_SUCCESS, HIPNodesList)
  | SyncPoint :: rest =>
      match SyncPoints !! SyncPoint with
      | Some NodeHandle =>
          getNodesFromSyncPoints_loop SyncPoints rest (HIPNodesList ++ [NodeHandle])
      | None => (UR_RESULT_ERROR_INVALID_VALUE, HIPNodesList)
      end
  end.

(** The entries the loop reads: the first [NumSyncPointsInWaitList] ones of
    the array the pointer names (none for a null pointer, which every caller
    has rejected beforehand unless the count is 0).  The array is expected to
    hold that many entries. *)
Definition waitListEntries (NumSyncPointsInWaitList : nat)
    (SyncPointWaitList : option (list N)) : list N :=
  take NumSyncPointsInWaitList (default [] SyncPointWaitList).

Definition getNodesFromSyncPoints (CommandBuffer : ur_exp_command_buffer_handle_t_)
    (NumSyncPointsInWaitList : nat) (SyncPointWaitList : option (list N))
    (HIPNodesList : list hipGraphNode_t) : ur_result_t * list hipGraphNode_t :=
  getNodesFromSyncPoints_loop (SyncPoints CommandBuffer)
    (waitListEntries NumSyncPointsInWaitList SyncPointWaitList) HIPNodesList.

(** [pSyncPointWaitList == NULL && numSyncPointsInWaitList > 0] *)
Definition nullWaitListWithEntries (numSyncPointsInWaitList : nat)
    (pSyncPointWaitList : option (list N)) : bool :=
  bool_decide (pSyncPointWaitList = None) && bool_decide (0 < numSyncPointsInWaitList)%nat.

(** ** Adding a node to the native graph *)

Section Recording.
Context `{Externals}.

(** [UR_CHECK_ERROR(hipGraphAdd...Node(&GraphNode, Graph, Deps, NumDeps, ...))]:
    either the check throws, or the node joins the graph and its handle is
    stored in [GraphNode]. *)
Definition hipGraphAddNode (Graph : hipGraph_t) (Deps : list hipGraphNode_t)
    (what : hipGraphNodeType) : ur_result_t + hipGraphNode_t * hipGraph_t :=
  let node := {| dependencies := Deps; payload := what |} in
  match hipGraphAddNode_error Graph node with
  | Some Err => inl Err
  | None => inr (length Graph, Graph ++ [node])
  end.

(** The block most entry points end with:
    [try { UR_CHECK_ERROR(hipGraphAdd...Node(...));
           *pSyncPoint = CommandBuffer->addSyncPoint(make_shared(GraphNode)); }
     catch (ur_result_t Err) { return Err; }
     return UR_RESULT_SUCCESS;]
    The third component is the value stored through [pSyncPoint], if any
    ([pSyncPoint] is dereferenced without a null test). *)
Definition addNodeAndSyncPoint
    (hCommandBuffer : ur_exp_command_buffer_handle_t_)
    (DepsList : list hipGraphNode_t) (what : hipGraphNodeType)
    : ur_result_t * ur_exp_command_buffer_handle_t_ * option N :=
  match hipGraphAddNode (HIPGraph hCommandBuffer) DepsList what with
  | inl Err => (Err, hCommandBuffer, None)
  | inr (GraphNode, Graph) =>
      let '(SyncPoint, CommandBuffer) :=
        addSyncPoint GraphNode (set_graph Graph hCommandBuffer) in
      (UR_RESULT_SUCCESS, CommandBuffer, Some SyncPoint)
  end.

(** The block that resolves the wait list and, when it resolves, continues
    with [k DepsList]. *)
Definition withDependencies {A : Type}
    (hCommandBuffer : ur_exp_command_buffer_handle_t_)
    (numSyncPointsInWaitList : nat) (pSyncPointWaitList : option (list N))
    (failed : ur_result_t → A) (k : list hipGraphNode_t → A) : A :=
  let '(Result, DepsList) :=
    getNodesFromSyncPoints hCommandBuffer numSyncPointsInWaitList
      pSyncPointWaitList [] in
  if bool_decide (Result ≠ UR_RESULT_SUCCESS) then failed Result else k DepsList.

Definition fails (Err : ur_result_t) (cb : ur_exp_command_buffer_handle_t_)
    : ur_result_t * ur_exp_command_buffer_handle_t_ * option N :=
  (Err, cb, None).

(** ** Memory copies *)

Definition urCommandBufferAppendUSMMemcpyExp
    (hCommandBuffer : ur_exp_command_buffer_handle_t_) (pDst pSrc size : Z)
    (numSyncPointsInWaitList : nat) (pSyncPointWaitList : option (list N))
    : ur_result_t * ur_exp_command_buffer_handle_t_ * option N :=
  if nullWaitListWithEntries numSyncPointsInWaitList pSyncPointWaitList
  then fails UR_RESULT_ERROR_INVALID_EVENT_WAIT_LIST hCommandBuffer
  else
    withDependencies hCommandBuffer numSyncPointsInWaitList pSyncPointWaitList
      (fun Result => fails Result hCommandBuffer)
      (fun DepsList =>
         addNodeAndSyncPoint hCommandBuffer DepsList
           (hipGraphNodeTypeMemcpy1D pDst pSrc size hipMemcpyHostToHost)).

Definition urCommandBufferAppendMemBufferCopyExp
    (hCommandBuffer : ur_exp_command_buffer_handle_t_)
    (hSrcMem hDstMem : ur_mem_handle_t_) (srcOffset dstOffset size : Z)
    (numSyncPointsInWaitList : nat) (pSyncPointWaitList : option (list N))
    : ur_result_t * ur_exp_command_buffer_handle_t_ * option N :=
  if nullWaitListWithEntries numSyncPointsInWaitList pSyncPointWaitList
  then fails UR_RESULT_ERROR_INVALID_EVENT_WAIT_LIST hCommandBuffer
  else if negb (wrap_size_t (size + dstOffset) <=? getSize hDstMem)
  then fails UR_RESULT_ERROR_INVALID_SIZE hCommandBuffer
  else if negb (wrap_size_t (size + srcOffset) <=? getSize hSrcMem)
  then fails UR_RESULT_ERROR_INVALID_SIZE hCommandBuffer
  else
    withDependencies hCommandBuffer numSyncPointsInWaitList pSyncPointWaitList
      (fun Result => fails Result hCommandBuffer)
      (fun DepsList =>
         let Src := getPtrWithOffset hSrcMem (Device hCommandBuffer) srcOffset in
         let Dst := getPtrWithOffset hDstMem (Device hCommandBuffer) dstOffset in
         addNodeAndSyncPoint hCommandBuffer DepsList
           (hipGraphNodeTypeMemcpy1D Dst Src size hipMemcpyDeviceToDevice)).

Definition urCommandBufferAppendMemBufferCopyRectExp
    (hCommandBuffer : ur_exp_command_buffer_handle_t_)
    (hSrcMem hDstMem : ur_mem_handle_t_)
    (srcOrigin dstOrigin : ur_rect_offset_t) (region : ur_rect_region_t)
    (srcRowPitch srcSlicePitch dstRowPitch dstSlicePitch : Z)
    (numSyncPointsInWaitList : nat) (pSyncPointWaitList : option (list N))
    : ur_result_t * ur_exp_command_buffer_handle_t_ * option N :=
  if nullWaitListWithEntries numSyncPointsInWaitList pSyncPointWaitList
  then fails UR_RESULT_ERROR_INVALID_EVENT_WAIT_LIST hCommandBuffer
  else
    withDependencies hCommandBuffer numSyncPointsInWaitList pSyncPointWaitList
      (fun Result => fails Result hCommandBuffer)
      (fun DepsList =>
         let SrcPtr := getPtr hSrcMem (Device hCommandBuffer) in
         let DstPtr := getPtr hDstMem (Device hCommandBuffer) in
         let NodeParams :=
           setCopyRectParams region SrcPtr hipMemoryTypeDevice srcOrigin
             srcRowPitch srcSlicePitch DstPtr hipMemoryTypeDevice dstOrigin
             dstRowPitch dstSlicePitch in
         addNodeAndSyncPoint hCommandBuffer DepsList
           (hipGraphNodeTypeMemcpy NodeParams)).

Definition urCommandBufferAppendMemBufferWriteExp
    (hCommandBuffer : ur_exp_command_buffer_handle_t_)
    (hBuffer : ur_mem_handle_t_) (offset size pSrc : Z)
    (numSyncPointsInWaitList : nat) (pSyncPointWaitList : option (list N))
    : ur_result_t * ur_exp_command_buffer_handle_t_ * option N :=
  if nullWaitListWithEntries numSyncPointsInWaitList pSyncPointWaitList
  then fails UR_RESULT_ERROR_INVALID_EVENT_WAIT_LIST hCommandBuffer
  else
    withDependencies hCommandBuffer numSyncPointsInWaitList pSyncPointWaitList
      (fun Result => fails Result hCommandBuffer)
      (fun DepsList =>
         let Dst := getPtrWithOffset hBuffer (Device hCommandBuffer) offset in
         addNodeAndSyncPoint hCommandBuffer DepsList
           (hipGraphNodeTypeMemcpy1D Dst pSrc size hipMemcpyHostToDevice)).

Definition urCommandBufferAppendMemBufferReadExp
    (hCommandBuffer : ur_exp_command_buffer_handle_t_)
    (hBuffer : ur_mem_handle_t_) (offset size pDst : Z)
    (numSyncPointsInWaitList : nat) (pSyncPointWaitList : option (list N))
    : ur_result_t * ur_exp_command_buffer_handle_t_ * option N :=
  if nullWaitListWithEntries numSyncPointsInWaitList pSyncPointWaitList
  then fails UR_RESULT_ERROR_INVALID_EVENT_WAIT_LIST hCommandBuffer
  else
    withDependencies hCommandBuffer numSyncPointsInWaitList pSyncPointWaitList
      (fun Result => fails Result hCommandBuffer)
      (fun DepsList =>
         let Src := getPtrWithOffset hBuffer (Device hCommandBuffer) offset in
         addNodeAndSyncPoint hCommandBuffer DepsList
           (hipGraphNodeTypeMemcpy1D pDst Src size hipMemcpyDeviceToHost)).

Definition urCommandBufferAppendMemBufferWriteRectExp
    (hCommandBuffer : ur_exp_command_buffer_handle_t_)
    (hBuffer : ur_mem_handle_t_)
    (bufferOffset hostOffset : ur_rect_offset_t) (region : ur_rect_region_t)
    (bufferRowPitch bufferSlicePitch hostRowPitch hostSlicePitch pSrc : Z)
    (numSyncPointsInWaitList : nat) (pSyncPointWaitList : option (list N))
    : ur_result_t * ur_exp_command_buffer_handle_t_ * option N :=
  if nullWaitListWithEntries numSyncPointsInWaitList pSyncPointWaitList
  then fails UR_RESULT_ERROR_INVALID_EVENT_WAIT_LIST hCommandBuffer
  else
    withDependencies hCommandBuffer numSyncPointsInWaitList pSyncPointWaitList
      (fun Result => fails Result hCommandBuffer)
      (fun DepsList =>
         let DstPtr := getPtr hBuffer (Device hCommandBuffer) in
         let NodeParams :=
           setCopyRectParams region pSrc hipMemoryTypeHost hostOffset
             hostRowPitch hostSlicePitch DstPtr hipMemoryTypeDevice
             bufferOffset bufferRowPitch bufferSlicePitch in
         addNodeAndSyncPoint hCommandBuffer DepsList
           (hipGraphNodeTypeMemcpy NodeParams)).

Definition urCommandBufferAppendMemBufferReadRectExp
    (hCommandBuffer : ur_exp_command_buffer_handle_t_)
    (hBuffer : ur_mem_handle_t_)
    (bufferOffset hostOffset : ur_rect_offset_t) (region : ur_rect_region_t)
    (bufferRowPitch bufferSlicePitch hostRowPitch hostSlicePitch pDst : Z)
    (numSyncPointsInWaitList : nat) (pSyncPointWaitList : option (list N))
    : ur_result_t * ur_exp_command_buffer_handle_t_ * option N :=
  if nullWaitListWithEntries numSyncPointsInWaitList pSyncPointWaitList
  then fails UR_RESULT_ERROR_INVALID_EVENT_WAIT_LIST hCommandBuffer
  else
    withDependencies hCommandBuffer numSyncPointsInWaitList pSyncPointWaitList
      (fun Result => fails Result hCommandBuffer)
      (fun DepsList =>
         let SrcPtr := getPtr hBuffer (Device hCommandBuffer) in
         let NodeParams :=
           setCopyRectParams region SrcPtr hipMemoryTypeDevice bufferOffset
             bufferRowPitch bufferSlicePitch pDst hipMemoryTypeHost
             hostOffset hostRowPitch hostSlicePitch in
         addNodeAndSyncPoint hCommandBuffer DepsList
           (hipGraphNodeTypeMemcpy NodeParams)).

(** ** Prefetch and advise *)

(** Prefetch and advise are not supported by the native graph: each is
    recorded as an empty node that only enforces the dependencies, and the
    call returns [UR_RESULT_ERROR_ADAPTER_SPECIFIC] after
    [setErrorMessage(<text>, UR_RESULT_SUCCESS)].  The fourth component is
    the message set, with the code attached to it. *)
Definition PrefetchMessage : string :=
  "Prefetch hint ignored and replaced with empty node as prefetch is not supported by HIP Graph backend".
Definition AdviseMessage : string :=
  "Memory advice ignored and replaced with empty node as memory advice is not supported by HIP Graph backend".

Definition appendHintAsEmptyNode (Message : string)
    (hCommandBuffer : ur_exp_command_buffer_handle_t_)
    (numSyncPointsInWaitList : nat) (pSyncPointWaitList : option (list N))
    : ur_result_t * ur_exp_command_buffer_handle_t_ * option N *
      option (string * ur_result_t) :=
  if nullWaitListWithEntries numSyncPointsInWaitList pSyncPointWaitList
  then (fails UR_RESULT_ERROR_INVALID_EVENT_WAIT_LIST hCommandBuffer, None)
  else
    withDependencies hCommandBuffer numSyncPointsInWaitList pSyncPointWaitList
      (fun Result => (fails Result hCommandBuffer, None))
      (fun DepsList =>
         match hipGraphAddNode (HIPGraph hCommandBuffer) DepsList
                 hipGraphNodeTypeEmpty with
         | inl Err => (fails Err hCommandBuffer, None)
         | inr (GraphNode, Graph) =>
             let '(SyncPoint, CommandBuffer) :=
               addSyncPoint GraphNode (set_graph Graph hCommandBuffer) in
             (UR_RESULT_ERROR_ADAPTER_SPECIFIC, CommandBuffer, Some SyncPoint,
              Some (Message, UR_RESULT_SUCCESS))
         end).

(** The memory range, its size and the flags are unnamed and unused in the
    source. *)
Definition urCommandBufferAppendUSMPrefetchExp
    (hCommandBuffer : ur_exp_command_buffer_handle_t_) (Mem Size Flags : Z)
    (numSyncPointsInWaitList : nat) (pSyncPointWaitList : option (list N)) :=
  appendHintAsEmptyNode PrefetchMessage hCommandBuffer
    numSyncPointsInWaitList pSyncPointWaitList.

Definition urCommandBufferAppendUSMAdviseExp
    (hCommandBuffer : ur_exp_command_buffer_handle_t_) (Mem Size Advice : Z)
    (numSyncPointsInWaitList : nat) (pSyncPointWaitList : option (list N)) :=
  appendHintAsEmptyNode AdviseMessage hCommandBuffer
    numSyncPointsInWaitList pSyncPointWaitList.


(** ** Memory fills *)

(** Reading the pattern: one byte at a given offset, and the little-endian
    16- and 32-bit values at its start. *)
Definition read_uint8 (Pattern : list Z) (at_ : Z) : Z :=
  nth (Z.to_nat at_) Pattern 0.
Definition read_uint16 (Pattern : list Z) : Z :=
  read_uint8 Pattern 0 + 2 ^ 8 * read_uint8 Pattern 1.
Definition read_uint32 (Pattern : list Z) : Z :=
  read_uint8 Pattern 0 + 2 ^ 8 * read_uint8 Pattern 1 +
  2 ^ 16 * read_uint8 Pattern 2 + 2 ^ 24 * read_uint8 Pattern 3.

(** The node written for byte [Step] of a pattern wider than 4 bytes. *)
Definition NodeParamsStep (DstPtr : Z) (Pattern : list Z)
    (NumberOfSteps Size Step : Z) : hipMemsetParams :=
  {| dst := DstPtr + Step * 1;
     elementSize := 1;
     height := Size / NumberOfSteps;
     pitch := NumberOfSteps * 1;
     value := read_uint8 Pattern Step;
     width := 1 |}.

(** The loop [for (auto Step = 4u; Step < NumberOfSteps; ++Step)] of the fill
    helper.  [Step] is a 32-bit unsigned counter, [NumberOfSteps] a [size_t].
    Every node depends on the node created just before it, and its sync point
    overwrites [*SyncPoint].  [fuel] bounds the number of iterations. *)
Fixpoint fillSteps (fuel : nat) (Step NumberOfSteps DstPtr : Z)
    (Pattern : list Z) (Size : Z) (DepsList : list hipGraphNode_t)
    (CommandBuffer : ur_exp_command_buffer_handle_t_) (SyncPoint : option N)
    : exec (ur_result_t * ur_exp_command_buffer_handle_t_ * option N) :=
  if Step <? NumberOfSteps then
    match fuel with
    | O => OutOfFuel
    | S fuel =>
        match hipGraphAddNode (HIPGraph CommandBuffer) DepsList
                (hipGraphNodeTypeMemset
                   (NodeParamsStep DstPtr Pattern NumberOfSteps Size Step)) with
        | inl Err => Returns (Err, CommandBuffer, SyncPoint)
        | inr (GraphNode, Graph) =>
            let '(NewSyncPoint, CommandBuffer) :=
              addSyncPoint GraphNode (set_graph Graph CommandBuffer) in
            fillSteps fuel (wrap_uint32 (Step + 1)) NumberOfSteps DstPtr Pattern
              Size [GraphNode] CommandBuffer (Some NewSyncPoint)
        end
    end
  else Returns (UR_RESULT_SUCCESS, CommandBuffer, SyncPoint).

(** [DstDevice] is the destination address: for [hipMemoryTypeDevice] the
    source passes the address of a variable that holds it and reads it back,
    otherwise it passes the address itself. *)
Definition enqueueCommandBufferFillHelper (fuel : nat)
    (CommandBuffer : ur_exp_command_buffer_handle_t_)
    (DstDevice : Z) (DstType : hipMemoryType) (Pattern : list Z)
    (PatternSize Size : Z)
    (NumSyncPointsInWaitList : nat) (SyncPointWaitList : option (list N))
    : exec (ur_result_t * ur_exp_command_buffer_handle_t_ * option N) :=
  withDependencies CommandBuffer NumSyncPointsInWaitList SyncPointWaitList
    (fun Result => Returns (fails Result CommandBuffer))
    (fun DepsList =>
       (* [Size / PatternSize] *)
       if PatternSize =? 0 then Undefined
       else
         let N := Size / PatternSize in
         let DstPtr := DstDevice in
         if (PatternSize =? 1) || (PatternSize =? 2) || (PatternSize =? 4) then
           let Value :=
             if PatternSize =? 1 then read_uint8 Pattern 0
             else if PatternSize =? 2 then read_uint16 Pattern
             else read_uint32 Pattern in
           let NodeParams :=
             {| dst := DstPtr; elementSize := PatternSize; height := N;
                pitch := PatternSize; value := Value; width := 1 |} in
           Returns (addNodeAndSyncPoint CommandBuffer DepsList
                      (hipGraphNodeTypeMemset NodeParams))
         else
           let NumberOfSteps := PatternSize / 1 in
           let NodeParamsStepFirst :=
             {| dst := DstPtr; elementSize := 4; height := Size / 4;
                pitch := 4; value := read_uint32 Pattern; width := 1 |} in
           match hipGraphAddNode (HIPGraph CommandBuffer) DepsList
                   (hipGraphNodeTypeMemset NodeParamsStepFirst) with
           | inl Err => Returns (fails Err CommandBuffer)
           | inr (GraphNodeFirst, Graph) =>
               let '(SyncPoint, CommandBuffer) :=
                 addSyncPoint GraphNodeFirst (set_graph Graph CommandBuffer) in
               fillSteps fuel 4 NumberOfSteps DstPtr Pattern Size
                 [GraphNodeFirst] CommandBuffer (Some SyncPoint)
           end).

(** [((patternSize & (patternSize - 1)) == 0) && (patternSize > 0)] on
    [size_t]. *)
Definition PatternSizeIsValid (patternSize : Z) : bool :=
  (Z.land patternSize (wrap_size_t (patternSize - 1)) =? 0) && (0 <? patternSize).

(** [pPattern] is [None] for a null pointer, otherwise the bytes it points
    to.  [offset % patternSize] is evaluated first: a zero [patternSize]
    divides by zero. *)
Definition urCommandBufferAppendMemBufferFillExp (fuel : nat)
    (hCommandBuffer : ur_exp_command_buffer_handle_t_)
    (hBuffer : ur_mem_handle_t_) (pPattern : option (list Z))
    (patternSize offset size : Z)
    (numSyncPointsInWaitList : nat) (pSyncPointWaitList : option (list N))
    : exec (ur_result_t * ur_exp_command_buffer_handle_t_ * option N) :=
  if patternSize =? 0 then Undefined
  else
    let ArgsAreMultiplesOfPatternSize :=
      (offset mod patternSize =? 0) || (size mod patternSize =? 0) in
    let PatternIsValid := bool_decide (pPattern ≠ None) in
    if negb (ArgsAreMultiplesOfPatternSize && PatternIsValid &&
             PatternSizeIsValid patternSize)
    then Returns (fails UR_RESULT_ERROR_INVALID_SIZE hCommandBuffer)
    else if nullWaitListWithEntries numSyncPointsInWaitList pSyncPointWaitList
    then Returns (fails UR_RESULT_ERROR_INVALID_EVENT_WAIT_LIST hCommandBuffer)
    else
      let DstDevice := getPtrWithOffset hBuffer (Device hCommandBuffer) offset in
      enqueueCommandBufferFillHelper fuel hCommandBuffer DstDevice
        hipMemoryTypeDevice (default [] pPattern) patternSize size
        numSyncPointsInWaitList pSyncPointWaitList.

Definition urCommandBufferAppendUSMFillExp (fuel : nat)
    (hCommandBuffer : ur_exp_command_buffer_handle_t_)
    (pPtr : Z) (pPattern : option (list Z)) (patternSize size : Z)
    (numSyncPointsInWaitList : nat) (pSyncPointWaitList : option (list N))
    : exec (ur_result_t * ur_exp_command_buffer_handle_t_ * option N) :=
  let PatternIsValid := bool_decide (pPattern ≠ None) in
  if nullWaitListWithEntries numSyncPointsInWaitList pSyncPointWaitList
  then Returns (fails UR_RESULT_ERROR_INVALID_EVENT_WAIT_LIST hCommandBuffer)
  else if negb (PatternIsValid && PatternSizeIsValid patternSize)
  then Returns (fails UR_RESULT_ERROR_INVALID_SIZE hCommandBuffer)
  else
    enqueueCommandBufferFillHelper fuel hCommandBuffer pPtr
      hipMemoryTypeUnified (default [] pPattern) patternSize size
      numSyncPointsInWaitList pSyncPointWaitList.

(** ** Finalize *)

(** The compiled graph is a snapshot of the recorded one; a native failure is
    reported as [UR_RESULT_ERROR_UNKNOWN]. *)
Definition urCommandBufferFinalizeExp
    (hCommandBuffer : ur_exp_command_buffer_handle_t_)
    : ur_result_t * ur_exp_command_buffer_handle_t_ :=
  if hipGraphInstantiateWithFlags_ok (HIPGraph hCommandBuffer)
  then (UR_RESULT_SUCCESS,
        set_graph_exec (Some (HIPGraph hCommandBuffer)) hCommandBuffer)
  else (UR_RESULT_ERROR_UNKNOWN, hCommandBuffer).

End Recording.

(** ** Objects behind handles *)

Section Objects.
Context `{Externals}.

Record Heap : Type := {
  buffers : gmap nat ur_exp_command_buffer_handle_t_;
  commands : gmap nat ur_exp_command_buffer_command_handle_t_;
  kernels : gmap nat ur_kernel_handle_t_
}.

Definition set_buffers (m : gmap nat ur_exp_command_buffer_handle_t_) (st : Heap) : Heap :=
  {| buffers := m; commands := commands st; kernels := kernels st |}.
Definition set_commands (m : gmap nat ur_exp_command_buffer_command_handle_t_) (st : Heap) : Heap :=
  {| buffers := buffers st; commands := m; kernels := kernels st |}.
Definition set_kernels (m : gmap nat ur_kernel_handle_t_) (st : Heap) : Heap :=
  {| buffers := buffers st; commands := commands st; kernels := m |}.

(** Field updates of a command handle. *)
Definition set_command_ref_counts (internal external : Z)
    (c : ur_exp_command_buffer_command_handle_t_) :=
  {| Command.CommandBuffer := Command.CommandBuffer c;
     Command.Kernel := Command.Kernel c; Command.Node := Command.Node c;
     Command.Params := Command.Params c; Command.WorkDim := Command.WorkDim c;
     Command.GlobalWorkOffset := Command.GlobalWorkOffset c;
     Command.GlobalWorkSize := Command.GlobalWorkSize c;
     Command.LocalWorkSize := Command.LocalWorkSize c;
     Command.RefCountInternal := internal;
     Command.RefCountExternal := external |}.

Definition set_command_geometry (WorkDim : nat)
    (GlobalWorkOffset GlobalWorkSize LocalWorkSize : list Z)
    (c : ur_exp_command_buffer_command_handle_t_) :=
  {| Command.CommandBuffer := Command.CommandBuffer c;
     Command.Kernel := Command.Kernel c; Command.Node := Command.Node c;
     Command.Params := Command.Params c; Command.WorkDim := WorkDim;
     Command.GlobalWorkOffset := GlobalWorkOffset;
     Command.GlobalWorkSize := GlobalWorkSize;
     Command.LocalWorkSize := LocalWorkSize;
     Command.RefCountInternal := Command.RefCountInternal c;
     Command.RefCountExternal := Command.RefCountExternal c |}.

Definition set_command_params (Params : hipKernelNodeParams)
    (c : ur_exp_command_buffer_command_handle_t_) :=
  {| Command.CommandBuffer := Command.CommandBuffer c;
     Command.Kernel := Command.Kernel c; Command.Node := Command.Node c;
     Command.Params := Params; Command.WorkDim := Command.WorkDim c;
     Command.GlobalWorkOffset := Command.GlobalWorkOffset c;
     Command.GlobalWorkSize := Command.GlobalWorkSize c;
     Command.LocalWorkSize := Command.LocalWorkSize c;
     Command.RefCountInternal := Command.RefCountInternal c;
     Command.RefCountExternal := Command.RefCountExternal c |}.

(** [memcpy(Dest, Src, sizeof(size_t) * Count)] and
    [memset(Dest + From, 0, sizeof(size_t) * (3 - From))] on [size_t[3]]. *)
Definition memcpy_size_t (Dest Src : list Z) (Count : nat) : list Z :=
  take Count Src ++ drop Count Dest.
Definition memset_zero_from (Dest : list Z) (From : nat) : list Z :=
  take From Dest ++ replicate (3 - From)%nat 0.

(** The constructor of a command handle, apart from its first statement
    (taking one unit of the owning buffer's internal count), which
    [urCommandBufferAppendKernelLaunchExp] below applies to the heap. *)
Definition new_ur_exp_command_buffer_command_handle_t_
    (CommandBuffer : ur_exp_command_buffer_handle_t) (Kernel : ur_kernel_handle_t)
    (Node : hipGraphNode_t) (Params : hipKernelNodeParams) (WorkDim : nat)
    (GlobalWorkOffsetPtr GlobalWorkSizePtr : list Z)
    (LocalWorkSizePtr : option (list Z))
    : ur_exp_command_buffer_command_handle_t_ :=
  let GlobalWorkOffset := memcpy_size_t indeterminate GlobalWorkOffsetPtr WorkDim in
  let GlobalWorkSize := memcpy_size_t indeterminate GlobalWorkSizePtr WorkDim in
  let LocalWorkSize :=
    match LocalWorkSizePtr with
    | Some l => memcpy_size_t indeterminate l WorkDim
    | None => memset_zero_from indeterminate 0
    end in
  {| Command.CommandBuffer := CommandBuffer;
     Command.Kernel := Kernel; Command.Node := Node;
     Command.Params := Params; Command.WorkDim := WorkDim;
     Command.GlobalWorkOffset :=
       if bool_decide (WorkDim < 3)%nat
       then memset_zero_from GlobalWorkOffset WorkDim else GlobalWorkOffset;
     Command.GlobalWorkSize :=
       if bool_decide (WorkDim < 3)%nat
       then memset_zero_from GlobalWorkSize WorkDim else GlobalWorkSize;
     Command.LocalWorkSize := LocalWorkSize;
     Command.RefCountInternal := 1;
     Command.RefCountExternal := 1 |}.

(** ** Reference counting *)

(** [delete CommandBuffer] removes the object; its destructor releases the
    context, the device and the native graphs, none of which the heap holds. *)
Definition commandBufferReleaseInternal
    (CommandBuffer : ur_exp_command_buffer_handle_t) (st : Heap)
    : exec (ur_result_t * Heap) :=
  cb ← deref (buffers st !! CommandBuffer);
  let cb := decrementInternalReferenceCount cb in
  if bool_decide (RefCountInternal cb ≠ 0)
  then Returns (UR_RESULT_SUCCESS,
                set_buffers (<[CommandBuffer := cb]> (buffers st)) st)
  else Returns (UR_RESULT_SUCCESS,
                set_buffers (delete CommandBuffer (buffers st)) st).

Definition commandHandleReleaseInternal
    (Command : ur_exp_command_buffer_command_handle_t) (st : Heap)
    : exec (ur_result_t * Heap) :=
  c ← deref (commands st !! Command);
  let c := set_command_ref_counts (Command.RefCountInternal c - 1)
             (Command.RefCountExternal c) c in
  let st := set_commands (<[Command := c]> (commands st)) st in
  if bool_decide (Command.RefCountInternal c ≠ 0)
  then Returns (UR_RESULT_SUCCESS, st)
  else
    (* Decrement parent command-buffer internal ref count *)
    r ← commandBufferReleaseInternal (Command.CommandBuffer c) st;
    Returns (UR_RESULT_SUCCESS,
             set_commands (delete Command (commands r.2)) r.2).

(** A failed native graph creation leaves the new object behind its handle. *)
Definition urCommandBufferCreateExp
    (hContext : ur_context_handle_t) (hDevice : ur_device_handle_t)
    (pCommandBufferDesc : option bool) (st : Heap)
    : ur_result_t * Heap * option ur_exp_command_buffer_handle_t :=
  let IsUpdatable := default false pCommandBufferDesc in
  if negb new_command_buffer_ok
  then (UR_RESULT_ERROR_OUT_OF_HOST_MEMORY, st, None)
  else
    let phCommandBuffer := fresh (dom (buffers st)) in
    let st :=
      set_buffers
        (<[phCommandBuffer :=
             new_ur_exp_command_buffer_handle_t_ hContext hDevice IsUpdatable]>
           (buffers st)) st in
    if negb hipGraphCreate_ok
    then (UR_RESULT_ERROR_OUT_OF_RESOURCES, st, Some phCommandBuffer)
    else (UR_RESULT_SUCCESS, st, Some phCommandBuffer).

Definition urCommandBufferRetainExp
    (hCommandBuffer : ur_exp_command_buffer_handle_t) (st : Heap)
    : exec (ur_result_t * Heap) :=
  cb ← deref (buffers st !! hCommandBuffer);
  let cb := incrementExternalReferenceCount (incrementInternalReferenceCount cb) in
  Returns (UR_RESULT_SUCCESS,
           set_buffers (<[hCommandBuffer := cb]> (buffers st)) st).

(** The loop [for (auto Command : hCommandBuffer->CommandHandles)
    commandHandleReleaseInternal(Command);]. *)
Fixpoint releaseCommandHandles
    (CommandHandles : list ur_exp_command_buffer_command_handle_t) (st : Heap)
    : exec Heap :=
  match CommandHandles with
  | [] => Returns st
  | Command :: rest =>
      r ← commandHandleReleaseInternal Command st;
      releaseCommandHandles rest r.2
  end.

Definition urCommandBufferReleaseExp
    (hCommandBuffer : ur_exp_command_buffer_handle_t) (st : Heap)
    : exec (ur_result_t * Heap) :=
  cb ← deref (buffers st !! hCommandBuffer);
  let cb := decrementExternalReferenceCount cb in
  let st := set_buffers (<[hCommandBuffer := cb]> (buffers st)) st in
  st ← (if bool_decide (RefCountExternal cb = 0)
        then
          (* External ref count has reached zero, internal release of created
             commands. *)
          releaseCommandHandles (CommandHandles cb) st
        else Returns st);
  commandBufferReleaseInternal hCommandBuffer st.

Definition urCommandBufferRetainCommandExp
    (hCommand : ur_exp_command_buffer_command_handle_t) (st : Heap)
    : exec (ur_result_t * Heap) :=
  c ← deref (commands st !! hCommand);
  let c := set_command_ref_counts (Command.RefCountInternal c + 1)
             (Command.RefCountExternal c + 1) c in
  Returns (UR_RESULT_SUCCESS, set_commands (<[hCommand := c]> (commands st)) st).

Definition urCommandBufferReleaseCommandExp
    (hCommand : ur_exp_command_buffer_command_handle_t) (st : Heap)
    : exec (ur_result_t * Heap) :=
  c ← deref (commands st !! hCommand);
  let c := set_command_ref_counts (Command.RefCountInternal c)
             (Command.RefCountExternal c - 1) c in
  commandHandleReleaseInternal hCommand
    (set_commands (<[hCommand := c]> (commands st)) st).

(** ** Kernel launches *)

Definition dim3_of (l : list Z) : dim3 :=
  {| dim_x := nth 0 l 0; dim_y := nth 1 l 0; dim_z := nth 2 l 0 |}.

(** [pSyncPoint] and [phCommand] say whether the respective out-pointer is
    non-null.  The results are the values stored through them.
    [*pGlobalWorkSize] reads the first entry of the global size. *)
Definition urCommandBufferAppendKernelLaunchExp
    (hCommandBuffer : ur_exp_command_buffer_handle_t)
    (hKernel : ur_kernel_handle_t) (workDim : nat)
    (pGlobalWorkOffset pGlobalWorkSize : list Z)
    (pLocalWorkSize : option (list Z))
    (numSyncPointsInWaitList : nat) (pSyncPointWaitList : option (list N))
    (pSyncPoint phCommand : bool) (st : Heap)
    : exec (ur_result_t * Heap * option N *
            option ur_exp_command_buffer_command_handle_t) :=
  cb ← deref (buffers st !! hCommandBuffer);
  k ← deref (kernels st !! hKernel);
  (* Preconditions *)
  if negb (bool_decide (Context cb = getContext k))
  then Returns (UR_RESULT_ERROR_INVALID_KERNEL, st, None, None)
  else if negb (bool_decide (0 < workDim)%nat)
  then Returns (UR_RESULT_ERROR_INVALID_WORK_DIMENSION, st, None, None)
  else if negb (bool_decide (workDim < 4)%nat)
  then Returns (UR_RESULT_ERROR_INVALID_WORK_DIMENSION, st, None, None)
  else if nullWaitListWithEntries numSyncPointsInWaitList pSyncPointWaitList
  then Returns (UR_RESULT_ERROR_INVALID_EVENT_WAIT_LIST, st, None, None)
  else
    withDependencies cb numSyncPointsInWaitList pSyncPointWaitList
      (fun Result => Returns (Result, st, None, None))
      (fun DepsList =>
         GlobalWorkSize0 ← deref (head pGlobalWorkSize);
         if GlobalWorkSize0 =? 0 then
           (* Create an empty node if the kernel workload size is zero *)
           match hipGraphAddNode (HIPGraph cb) DepsList hipGraphNodeTypeEmpty with
           | inl Err => Returns (Err, st, None, None)
           | inr (GraphNode, Graph) =>
               if pSyncPoint then
                 let '(SyncPoint, cb) :=
                   addSyncPoint GraphNode (set_graph Graph cb) in
                 Returns (UR_RESULT_SUCCESS,
                          set_buffers (<[hCommandBuffer := cb]> (buffers st)) st,
                          Some SyncPoint, None)
               else Undefined
           end
         else
           let LocalSize := getLocalSize k in
           let HIPFunc := get k in
           let '(Result, k, ThreadsPerBlock, BlocksPerGrid) :=
             setKernelParams (Device cb) workDim pGlobalWorkOffset
               pGlobalWorkSize pLocalWorkSize k HIPFunc [64; 1; 1] [1; 1; 1] in
           let st := set_kernels (<[hKernel := k]> (kernels st)) st in
           if bool_decide (Result ≠ UR_RESULT_SUCCESS)
           then Returns (Result, st, None, None)
           else
             let NodeParams :=
               {| func := HIPFunc;
                  gridDim := dim3_of BlocksPerGrid;
                  blockDim := dim3_of ThreadsPerBlock;
                  sharedMemBytes := LocalSize;
                  kernelParams := getArgIndices k;
                  extra := None |} in
             match hipGraphAddNode (HIPGraph cb) DepsList
                     (hipGraphNodeTypeKernel NodeParams) with
             | inl Err => Returns (Err, st, None, None)
             | inr (GraphNode, Graph) =>
                 let k := if bool_decide (LocalSize ≠ 0) then clearLocalSize k else k in
                 let cb := set_graph Graph cb in
                 let '(SyncPoint, cb) :=
                   if pSyncPoint
                   then (let '(SyncPoint, cb) := addSyncPoint GraphNode cb in
                         (Some SyncPoint, cb))
                   else (None, cb) in
                 let NewCommand := fresh (dom (commands st)) in
                 let c :=
                   new_ur_exp_command_buffer_command_handle_t_ hCommandBuffer
                     hKernel GraphNode NodeParams workDim pGlobalWorkOffset
                     pGlobalWorkSize pLocalWorkSize in
                 let cb := incrementInternalReferenceCount cb in
                 let c := set_command_ref_counts (Command.RefCountInternal c + 1)
                            (Command.RefCountExternal c) c in
                 let cb := set_command_handles (CommandHandles cb ++ [NewCommand]) cb in
                 Returns (UR_RESULT_SUCCESS,
                          {| buffers := <[hCommandBuffer := cb]> (buffers st);
                             commands := <[NewCommand := c]> (commands st);
                             kernels := <[hKernel := k]> (kernels st) |},
                          SyncPoint,
                          if phCommand then Some NewCommand else None)
             end).

(** ** Updating a recorded kernel launch *)

Record ur_exp_command_buffer_update_kernel_launch_desc_t : Type := {
  numNewMemObjArgs : nat;
  numNewPointerArgs : nat;
  numNewValueArgs : nat;
  newWorkDim : nat;
  (** argument index and new memory object (null allowed) *)
  pNewMemObjArgList : list (Z * option ur_mem_handle_t_);
  (** argument index and [pNewPointerArg] *)
  pNewPointerArgList : list (Z * Z);
  (** argument index, argument size and [pNewValueArg] *)
  pNewValueArgList : list (Z * Z * Z);
  pNewGlobalWorkOffset : option (list Z);
  pNewGlobalWorkSize : option (list Z);
  pNewLocalWorkSize : option (list Z)
}.

(** Modelled from the spec: [setGlobalOffset], [setGlobalSize] and
    [setLocalSize] are declared in [command_buffer.hpp], which is not among the
    sources.  The spec: each cached coordinate is a fixed-size (3-element)
    array holding the supplied values, zero-filled for unused dimensions. *)
Definition setCoordinate (WorkDim : nat) (Ptr : list Z) (Old : list Z) : list Z :=
  memset_zero_from (memcpy_size_t Old Ptr WorkDim) WorkDim.

(** One of the three argument loops: the calls to [setKernelArg] in order,
    stopping at the first that throws. *)
Fixpoint setKernelArgs (Args : list (Z * Z * arg_source))
    (Kernel : ur_kernel_handle_t_) : option ur_result_t * ur_kernel_handle_t_ :=
  match Args with
  | [] => (None, Kernel)
  | (ArgIndex, ArgSize, ArgValue) :: rest =>
      match setKernelArg ArgIndex ArgSize ArgValue Kernel with
      | (Some Err, Kernel) => (Some Err, Kernel)
      | (None, Kernel) => setKernelArgs rest Kernel
      end
  end.

Definition pointerArg (d : Z * Z) : Z * Z * arg_source :=
  (d.1, 8, host_source d.2).
Definition memobjArg (Device : ur_device_handle_t)
    (d : Z * option ur_mem_handle_t_) : Z * Z * arg_source :=
  match d.2 with
  | None => (d.1, 0, null_source)
  | Some ArgValue => (d.1, 8, local_source (getVoid ArgValue Device))
  end.
Definition valueArg (d : Z * Z * Z) : Z * Z * arg_source :=
  (d.1.1, d.1.2, host_source d.2).

(** The error thrown by the final native call is not caught in the source;
    the model reports it as the result. *)
Definition urCommandBufferUpdateKernelLaunchExp
    (hCommand : ur_exp_command_buffer_command_handle_t)
    (pUpdateKernelLaunch : ur_exp_command_buffer_update_kernel_launch_desc_t)
    (st : Heap) : exec (ur_result_t * Heap) :=
  c ← deref (commands st !! hCommand);
  let CommandBuffer := Command.CommandBuffer c in
  cb ← deref (buffers st !! CommandBuffer);
  (* Update requires command-buffer to be finalized *)
  match HIPGraphExec cb with
  | None => Returns (UR_RESULT_ERROR_INVALID_OPERATION, st)
  | Some HipGraphExec =>
  (* Update requires command-buffer to be created with update enabled *)
  if negb (IsUpdatable cb)
  then Returns (UR_RESULT_ERROR_INVALID_OPERATION, st)
  else
    let Kernel := Command.Kernel c in
    let Device := Device cb in
    k ← deref (kernels st !! Kernel);
    let Args :=
      (pointerArg <$> take (numNewPointerArgs pUpdateKernelLaunch)
                        (pNewPointerArgList pUpdateKernelLaunch)) ++
      (memobjArg Device <$> take (numNewMemObjArgs pUpdateKernelLaunch)
                              (pNewMemObjArgList pUpdateKernelLaunch)) ++
      (valueArg <$> take (numNewValueArgs pUpdateKernelLaunch)
                      (pNewValueArgList pUpdateKernelLaunch)) in
    match setKernelArgs Args k with
    | (Some Err, k) =>
        Returns (Err, set_kernels (<[Kernel := k]> (kernels st)) st)
    | (None, k) =>
        let st := set_kernels (<[Kernel := k]> (kernels st)) st in
        (* Set the updated ND range *)
        let NewWorkDim := newWorkDim pUpdateKernelLaunch in
        if bool_decide (NewWorkDim ≠ 0%nat) && negb (bool_decide (NewWorkDim < 4)%nat)
        then Returns (UR_RESULT_ERROR_INVALID_WORK_DIMENSION, st)
        else
          let WorkDim :=
            if bool_decide (NewWorkDim ≠ 0%nat) then NewWorkDim
            else Command.WorkDim c in
          let GlobalWorkOffset :=
            match pNewGlobalWorkOffset pUpdateKernelLaunch with
            | Some p => setCoordinate WorkDim p (Command.GlobalWorkOffset c)
            | None => Command.GlobalWorkOffset c
            end in
          let GlobalWorkSize :=
            match pNewGlobalWorkSize pUpdateKernelLaunch with
            | Some p => setCoordinate WorkDim p (Command.GlobalWorkSize c)
            | None => Command.GlobalWorkSize c
            end in
          let LocalWorkSize :=
            match pNewLocalWorkSize pUpdateKernelLaunch with
            | Some p => setCoordinate WorkDim p (Command.LocalWorkSize c)
            | None => Command.LocalWorkSize c
            end in
          let c := set_command_geometry WorkDim GlobalWorkOffset GlobalWorkSize
                     LocalWorkSize c in
          let st := set_commands (<[hCommand := c]> (commands st)) st in
          let ProvidedLocalSize :=
            negb (nth 0 LocalWorkSize 0 =? 0) || negb (nth 1 LocalWorkSize 0 =? 0) ||
            negb (nth 2 LocalWorkSize 0 =? 0) in
          (* If no worksize is provided make sure we pass nullptr to
             setKernelParams so it can guess the local work size. *)
          let LocalWorkSizePtr :=
            if ProvidedLocalSize then Some LocalWorkSize else None in
          let HIPFunc := get k in
          let '(Result, k, ThreadsPerBlock, BlocksPerGrid) :=
            setKernelParams Device WorkDim GlobalWorkOffset GlobalWorkSize
              LocalWorkSizePtr k HIPFunc [32; 1; 1] [1; 1; 1] in
          let st := set_kernels (<[Kernel := k]> (kernels st)) st in
          if bool_decide (Result ≠ UR_RESULT_SUCCESS)
          then Returns (Result, st)
          else
            let Params :=
              {| func := HIPFunc;
                 gridDim := dim3_of BlocksPerGrid;
                 blockDim := dim3_of ThreadsPerBlock;
                 sharedMemBytes := getLocalSize k;
                 kernelParams := getArgIndices k;
                 extra := extra (Command.Params c) |} in
            let c := set_command_params Params c in
            let st := set_commands (<[hCommand := c]> (commands st)) st in
            let Node := Command.Node c in
            match hipGraphExecKernelNodeSetParams_error HipGraphExec Node Params with
            | Some Err => Returns (Err, st)
            | None =>
                let HipGraphExec :=
                  alter (fun n => {| dependencies := dependencies n;
                                     payload := hipGraphNodeTypeKernel Params |})
                        Node HipGraphExec in
                let cb := set_graph_exec (Some HipGraphExec) cb in
                Returns (UR_RESULT_SUCCESS,
                         set_buffers (<[CommandBuffer := cb]> (buffers st)) st)
            end
    end
  end.

End Objects.


(** ** The append entry points, uniformly *)

Section Appends.
Context `{Externals}.

(** One constructor per append entry point, holding the arguments that are
    specific to it; the command buffer and the wait list are common to all. *)
Inductive append_operation : Type :=
| KernelLaunch (hKernel : ur_kernel_handle_t) (workDim : nat)
    (pGlobalWorkOffset pGlobalWorkSize : list Z)
    (pLocalWorkSize : option (list Z)) (pSyncPoint phCommand : bool)
| USMMemcpy (pDst pSrc size : Z)
| MemBufferCopy (hSrcMem hDstMem : ur_mem_handle_t_) (srcOffset dstOffset size : Z)
| MemBufferCopyRect (hSrcMem hDstMem : ur_mem_handle_t_)
    (srcOrigin dstOrigin : ur_rect_offset_t) (region : ur_rect_region_t)
    (srcRowPitch srcSlicePitch dstRowPitch dstSlicePitch : Z)
| MemBufferWrite (hBuffer : ur_mem_handle_t_) (offset size pSrc : Z)
| MemBufferRead (hBuffer : ur_mem_handle_t_) (offset size pDst : Z)
| MemBufferWriteRect (hBuffer : ur_mem_handle_t_)
    (bufferOffset hostOffset : ur_rect_offset_t) (region : ur_rect_region_t)
    (bufferRowPitch bufferSlicePitch hostRowPitch hostSlicePitch pSrc : Z)
| MemBufferReadRect (hBuffer : ur_mem_handle_t_)
    (bufferOffset hostOffset : ur_rect_offset_t) (region : ur_rect_region_t)
    (bufferRowPitch bufferSlicePitch hostRowPitch hostSlicePitch pDst : Z)
| USMPrefetch (Mem Size Flags : Z)
| USMAdvise (Mem Size Advice : Z)
| MemBufferFill (hBuffer : ur_mem_handle_t_) (pPattern : option (list Z))
    (patternSize offset size : Z)
| USMFill (pPtr : Z) (pPattern : option (list Z)) (patternSize size : Z).

(** A call on the command buffer behind [hCommandBuffer]: the object is looked
    up, the call runs on it, and the object is stored back. *)
Definition onCommandBuffer (hCommandBuffer : ur_exp_command_buffer_handle_t)
    (st : Heap)
    (call : ur_exp_command_buffer_handle_t_ →
            exec (ur_result_t * ur_exp_command_buffer_handle_t_ * option N))
    : exec (ur_result_t * Heap) :=
  cb ← deref (buffers st !! hCommandBuffer);
  r ← call cb;
  Returns (r.1.1, set_buffers (<[hCommandBuffer := r.1.2]> (buffers st)) st).

Definition append (fuel : nat) (op : append_operation)
    (hCommandBuffer : ur_exp_command_buffer_handle_t)
    (numSyncPointsInWaitList : nat) (pSyncPointWaitList : option (list N))
    (st : Heap) : exec (ur_result_t * Heap) :=
  let n := numSyncPointsInWaitList in
  let l := pSyncPointWaitList in
  match op with
  | KernelLaunch hKernel workDim pGlobalWorkOffset pGlobalWorkSize
      pLocalWorkSize pSyncPoint phCommand =>
      r ← urCommandBufferAppendKernelLaunchExp hCommandBuffer hKernel workDim
            pGlobalWorkOffset pGlobalWorkSize pLocalWorkSize n l
            pSyncPoint phCommand st;
      Returns (r.1.1.1, r.1.1.2)
  | USMMemcpy pDst pSrc size =>
      onCommandBuffer hCommandBuffer st (fun cb =>
        Returns (urCommandBufferAppendUSMMemcpyExp cb pDst pSrc size n l))
  | MemBufferCopy hSrcMem hDstMem srcOffset dstOffset size =>
      onCommandBuffer hCommandBuffer st (fun cb =>
        Returns (urCommandBufferAppendMemBufferCopyExp cb hSrcMem hDstMem
                   srcOffset dstOffset size n l))
  | MemBufferCopyRect hSrcMem hDstMem srcOrigin dstOrigin region
      srcRowPitch srcSlicePitch dstRowPitch dstSlicePitch =>
      onCommandBuffer hCommandBuffer st (fun cb =>
        Returns (urCommandBufferAppendMemBufferCopyRectExp cb hSrcMem hDstMem
                   srcOrigin dstOrigin region srcRowPitch srcSlicePitch
                   dstRowPitch dstSlicePitch n l))
  | MemBufferWrite hBuffer offset size pSrc =>
      onCommandBuffer hCommandBuffer st (fun cb =>
        Returns (urCommandBufferAppendMemBufferWriteExp cb hBuffer offset size
                   pSrc n l))
  | MemBufferRead hBuffer offset size pDst =>
      onCommandBuffer hCommandBuffer st (fun cb =>
        Returns (urCommandBufferAppendMemBufferReadExp cb hBuffer offset size
                   pDst n l))
  | MemBufferWriteRect hBuffer bufferOffset hostOffset region bufferRowPitch
      bufferSlicePitch hostRowPitch hostSlicePitch pSrc =>
      onCommandBuffer hCommandBuffer st (fun cb =>
        Returns (urCommandBufferAppendMemBufferWriteRectExp cb hBuffer
                   bufferOffset hostOffset region bufferRowPitch
                   bufferSlicePitch hostRowPitch hostSlicePitch pSrc n l))
  | MemBufferReadRect hBuffer bufferOffset hostOffset region bufferRowPitch
      bufferSlicePitch hostRowPitch hostSlicePitch pDst =>
      onCommandBuffer hCommandBuffer st (fun cb =>
        Returns (urCommandBufferAppendMemBufferReadRectExp cb hBuffer
                   bufferOffset hostOffset region bufferRowPitch
                   bufferSlicePitch hostRowPitch hostSlicePitch pDst n l))
  | USMPrefetch Mem Size Flags =>
      onCommandBuffer hCommandBuffer st (fun cb =>
        Returns (urCommandBufferAppendUSMPrefetchExp cb Mem Size Flags n l).1)
  | USMAdvise Mem Size Advice =>
      onCommandBuffer hCommandBuffer st (fun cb =>
        Returns (urCommandBufferAppendUSMAdviseExp cb Mem Size Advice n l).1)
  | MemBufferFill hBuffer pPattern patternSize offset size =>
      onCommandBuffer hCommandBuffer st (fun cb =>
        urCommandBufferAppendMemBufferFillExp fuel cb hBuffer pPattern
          patternSize offset size n l)
  | USMFill pPtr pPattern patternSize size =>
      onCommandBuffer hCommandBuffer st (fun cb =>
        urCommandBufferAppendUSMFillExp fuel cb pPtr pPattern patternSize size
          n l)
  end.

End Appends.


(** ** Enqueueing a finalized command buffer *)

(** The collaborators of [urCommandBufferEnqueueExp]: the queue
    ([queue.hpp]), events ([event.hpp]), the wait on an event list
    ([enqueue.hpp]) and the native launch.  A call that can throw yields the
    error thrown, if any. *)
Class QueueExternals : Type := {
  ur_queue_handle_t_ : Type;
  ur_event_handle_t_ : Type;
  hipStream_t : Type;
  (** [ScopedContext Active(hQueue->getDevice())] *)
  ScopedContext_error : ur_queue_handle_t_ → option ur_result_t;
  (** [getNextComputeStream]: the stream and its token *)
  getNextComputeStream :
    ur_queue_handle_t_ → nat → option (list ur_event_handle_t_) →
    ur_result_t + hipStream_t * Z;
  enqueueEventsWait :
    ur_queue_handle_t_ → hipStream_t → nat → option (list ur_event_handle_t_) →
    ur_result_t;
  (** [ur_event_handle_t_::makeNative(UR_COMMAND_COMMAND_BUFFER_ENQUEUE_EXP,
      hQueue, HIPStream, StreamToken)] *)
  makeNative : ur_queue_handle_t_ → hipStream_t → Z → ur_event_handle_t_;
  start_error : ur_event_handle_t_ → option ur_result_t;
  record_error : ur_event_handle_t_ → option ur_result_t;
  hipGraphLaunch_error : option hipGraph_t → hipStream_t → option ur_result_t;
  (** what is thrown is an error code *)
  ScopedContext_throws_error : ∀ hQueue,
    ScopedContext_error hQueue ≠ Some UR_RESULT_SUCCESS;
  getNextComputeStream_throws_error : ∀ hQueue n l,
    getNextComputeStream hQueue n l ≠ inl UR_RESULT_SUCCESS;
  start_throws_error : ∀ e, start_error e ≠ Some UR_RESULT_SUCCESS;
  record_throws_error : ∀ e, record_error e ≠ Some UR_RESULT_SUCCESS;
  hipGraphLaunch_throws_error : ∀ g s,
    hipGraphLaunch_error g s ≠ Some UR_RESULT_SUCCESS
}.

Section Enqueue.
Context `{QueueExternals}.

(** What the call has asked of the stream, in order. *)
Inductive stream_action : Type :=
| EventsWait (numEventsInWaitList : nat)
    (phEventWaitList : option (list ur_event_handle_t_))
| EventStart (Event : ur_event_handle_t_)
| GraphLaunch (GraphExec : option hipGraph_t)
| EventRecord (Event : ur_event_handle_t_).

(** The result, the event stored through [phEvent] if any, and the actions
    on the stream.  [phEvent] says whether the pointer is non-null.  An
    event that was made but is not handed over is destroyed with its
    [unique_ptr]. *)
Definition urCommandBufferEnqueueExp
    (hCommandBuffer : ur_exp_command_buffer_handle_t_)
    (hQueue : ur_queue_handle_t_) (numEventsInWaitList : nat)
    (phEventWaitList : option (list ur_event_handle_t_)) (phEvent : bool)
    : ur_result_t * option ur_event_handle_t_ * list stream_action :=
  match ScopedContext_error hQueue with
  | Some Err => (Err, None, [])
  | None =>
  match getNextComputeStream hQueue numEventsInWaitList phEventWaitList with
  | inl Err => (Err, None, [])
  | inr (HIPStream, StreamToken) =>
      let Result :=
        enqueueEventsWait hQueue HIPStream numEventsInWaitList phEventWaitList in
      let waited := [EventsWait numEventsInWaitList phEventWaitList] in
      if bool_decide (Result ≠ UR_RESULT_SUCCESS) then (Result, None, waited)
      else
        let RetImplEvent :=
          if phEvent then Some (makeNative hQueue HIPStream StreamToken)
          else None in
        match RetImplEvent ≫= start_error with
        | Some Err =>
            (Err, None, waited ++ (EventStart <$> option_list RetImplEvent))
        | None =>
            let started := waited ++ (EventStart <$> option_list RetImplEvent) in
            (* Launch graph *)
            match hipGraphLaunch_error (HIPGraphExec hCommandBuffer) HIPStream with
            | Some Err =>
                (Err, None,
                 started ++ [GraphLaunch (HIPGraphExec hCommandBuffer)])
            | None =>
                let launched :=
                  started ++ [GraphLaunch (HIPGraphExec hCommandBuffer)] in
                match RetImplEvent ≫= record_error with
                | Some Err =>
                    (Err, None,
                     launched ++ (EventRecord <$> option_list RetImplEvent))
                | None =>
                    (Result, RetImplEvent,
                     launched ++ (EventRecord <$> option_list RetImplEvent))
                end
            end
        end
  end
  end.

End Enqueue.

(** * Vocabulary of the statements *)

(** ** Wait lists *)

(** The nodes a wait list names, when every entry is registered. *)
Definition resolved (m : gmap N hipGraphNode_t) (WaitList : list N)
    : option (list hipGraphNode_t) :=
  mapM (fun SyncPoint => m !! SyncPoint) WaitList.

(** Some entry the call reads is not registered with the buffer. *)
Definition has_unknown_sync_point (cb : ur_exp_command_buffer_handle_t_)
    (numSyncPointsInWaitList : nat) (pSyncPointWaitList : option (list N)) : Prop :=
  ∃ SyncPoint,
    SyncPoint ∈ waitListEntries numSyncPointsInWaitList pSyncPointWaitList ∧
    SyncPoints cb !! SyncPoint = None.


(** ** Pattern widths *)

Definition is_power_of_two (v : Z) : Prop := ∃ k, 0 ≤ k ∧ v = 2 ^ k.

(** ** The registry of a buffer *)

(** The registered sync points are exactly the ids below [NextSyncPoint], and
    each names a node of the buffer's graph. *)
Definition registry_wf (cb : ur_exp_command_buffer_handle_t_) : Prop :=
  (∀ SyncPoint, is_Some (SyncPoints cb !! SyncPoint) ↔
                (SyncPoint < NextSyncPoint cb)%N) ∧
  (∀ SyncPoint Node, SyncPoints cb !! SyncPoint = Some Node →
                     (Node < length (HIPGraph cb))%nat).

(** [cb'] is [cb] with one more node, registered under [SyncPoint], which was
    not in use, and with the 32-bit counter of sync points one further;
    nothing else differs. *)
Definition records_one_node (cb cb' : ur_exp_command_buffer_handle_t_)
    (node : hipGraphNode) (SyncPoint : N) : Prop :=
  HIPGraph cb' = HIPGraph cb ++ [node] ∧
  SyncPoints cb !! SyncPoint = None ∧
  SyncPoints cb' = <[SyncPoint := length (HIPGraph cb)]> (SyncPoints cb) ∧
  NextSyncPoint cb' = ((NextSyncPoint cb + 1) mod 2 ^ 32)%N ∧
  Context cb' = Context cb ∧ Device cb' = Device cb ∧
  IsUpdatable cb' = IsUpdatable cb ∧ HIPGraphExec cb' = HIPGraphExec cb ∧
  CommandHandles cb' = CommandHandles cb ∧
  RefCountInternal cb' = RefCountInternal cb ∧
  RefCountExternal cb' = RefCountExternal cb.

(** The wait list as the caller passes it, a count and a pointer, names the
    nodes of [DepsList]: the array behind the pointer holds at least [num]
    entries (a null pointer holds none), [DepsList] has [num] nodes, and its
    node at each place below [num] is the node that the buffer has registered
    under the entry at that place. *)
Definition wait_list_names (cb : ur_exp_command_buffer_handle_t_)
    (numSyncPointsInWaitList : nat) (pSyncPointWaitList : option (list N))
    (DepsList : list hipGraphNode_t) : Prop :=
  length DepsList = numSyncPointsInWaitList ∧
  ∀ i, (i < numSyncPointsInWaitList)%nat →
       ∃ SyncPoint Node,
         default [] pSyncPointWaitList !! i = Some SyncPoint ∧
         SyncPoints cb !! SyncPoint = Some Node ∧
         DepsList !! i = Some Node.

(** What prefetch and advise return when they record their empty node: the
    adapter-specific code, with a message whose own code is
    [UR_RESULT_SUCCESS]; the buffer has one more node, empty, with the
    given dependencies, under a fresh sync point that is the one stored
    through [pSyncPoint]; the registry resolves that sync point to the new
    node, and it is still well formed unless the 32-bit counter of sync
    points has just wrapped. *)
Definition hint_recorded (cb : ur_exp_command_buffer_handle_t_)
    (DepsList : list hipGraphNode_t)
    (r : ur_result_t * ur_exp_command_buffer_handle_t_ * option N *
         option (string * ur_result_t)) : Prop :=
  ∃ cb' SyncPoint Message,
    r = (UR_RESULT_ERROR_ADAPTER_SPECIFIC, cb', Some SyncPoint,
         Some (Message, UR_RESULT_SUCCESS)) ∧
    records_one_node cb cb'
      {| dependencies := DepsList; payload := hipGraphNodeTypeEmpty |}
      SyncPoint ∧
    ((NextSyncPoint cb + 1 < 2 ^ 32)%N → registry_wf cb') ∧
    resolved (SyncPoints cb') [SyncPoint] = Some [length (HIPGraph cb)].

(** ** Fill chains *)

(** The 1-byte node for byte [Step] of a [PatternSize]-byte pattern, hanging
    on the node [previous]. *)
Definition byte_node (DstPtr : Z) (Pattern : list Z) (PatternSize Size : Z)
    (previous : hipGraphNode_t) (Step : Z) : hipGraphNode :=
  {| dependencies := [previous];
     payload :=
       hipGraphNodeTypeMemset
         {| dst := DstPtr + Step; elementSize := 1;
            height := Size / PatternSize; pitch := PatternSize;
            value := read_uint8 Pattern Step; width := 1 |} |}.

(** [n] such nodes in a row, for the bytes [Step], [Step + 1], ...: the first
    hangs on [previous], each next on the one before it, their handles
    being [previous + 1], [previous + 2], ... *)
Definition byte_chain (DstPtr : Z) (Pattern : list Z) (PatternSize Size : Z)
    (previous : hipGraphNode_t) (Step : Z) (n : nat) : list hipGraphNode :=
  (fun i : nat =>
     byte_node DstPtr Pattern PatternSize Size (previous + i) (Step + Z.of_nat i))
  <$> seq 0 n.

Section Vocabulary.
Context `{Externals}.

(** The checks an append entry point makes on its own arguments before it
    resolves the wait list. *)
Definition parameter_checks_pass (op : append_operation)
    (cb : ur_exp_command_buffer_handle_t_) (st : Heap) : Prop :=
  match op with
  | KernelLaunch hKernel workDim _ _ _ _ _ =>
      ∃ k, kernels st !! hKernel = Some k ∧ Context cb = getContext k ∧
           (1 ≤ workDim ≤ 3)%nat
  | MemBufferCopy hSrcMem hDstMem srcOffset dstOffset size =>
      wrap_size_t (size + dstOffset) ≤ getSize hDstMem ∧
      wrap_size_t (size + srcOffset) ≤ getSize hSrcMem
  | MemBufferFill _ pPattern patternSize offset size =>
      patternSize ≠ 0 ∧
      (offset mod patternSize = 0 ∨ size mod patternSize = 0) ∧
      pPattern ≠ None ∧ PatternSizeIsValid patternSize = true
  | USMFill _ pPattern patternSize _ =>
      pPattern ≠ None ∧ PatternSizeIsValid patternSize = true
  | _ => True
  end.

(** ** Reference counts *)

(** The effect of [commandHandleReleaseInternal] on the handle itself: one
    internal count less, and the handle is gone when none is left. *)
Definition drop_internal (c : ur_exp_command_buffer_command_handle_t_)
    : option ur_exp_command_buffer_command_handle_t_ :=
  if bool_decide (Command.RefCountInternal c - 1 ≠ 0)
  then Some (set_command_ref_counts (Command.RefCountInternal c - 1)
               (Command.RefCountExternal c) c)
  else None.

(** The handles of [l] that are live in [st]. *)
Definition live_commands (st : Heap)
    (l : list ur_exp_command_buffer_command_handle_t)
    : list ur_exp_command_buffer_command_handle_t :=
  filter (fun c => is_Some (commands st !! c)) l.

(** The buffer [cb] behind [h] owns its command handles: they are distinct,
    live, and point back to [h]; and its internal count is its external
    count plus one unit per handle. *)
Definition owns_its_commands (st : Heap) (h : ur_exp_command_buffer_handle_t)
    (cb : ur_exp_command_buffer_handle_t_) : Prop :=
  NoDup (CommandHandles cb) ∧
  (∀ c, c ∈ CommandHandles cb →
        ∃ cmd, commands st !! c = Some cmd ∧ Command.CommandBuffer cmd = h) ∧
  RefCountInternal cb =
    RefCountExternal cb + Z.of_nat (length (CommandHandles cb)).

End Vocabulary.

(** ** A reference instance of the collaborators

    Kernels are identified with their context, memory objects with their
    size; the native library accepts every request. *)
Definition ideal_externals : Externals :=
  {| ur_kernel_handle_t_ := nat;
     getContext := fun k => k;
     getLocalSize := fun _ => 0;
     clearLocalSize := fun k => k;
     get := fun _ => 0%nat;
     getArgIndices := fun _ => [];
     setKernelArg := fun _ _ _ k => (None, k);
     ur_mem_handle_t_ := Z;
     getSize := fun m => m;
     getPtr := fun _ _ => 0;
     getPtrWithOffset := fun _ _ offset => offset;
     getVoid := fun _ _ => 0;
     setKernelParams := fun _ _ _ _ _ k _ ThreadsPerBlock BlocksPerGrid =>
       (UR_RESULT_SUCCESS, k, ThreadsPerBlock, BlocksPerGrid);
     setCopyRectParams := fun region SrcPtr _ SrcOffset _ _ DstPtr _ DstOffset _ _ =>
       {| srcPos := {| pos_x := offset_x SrcOffset; pos_y := offset_y SrcOffset;
                       pos_z := offset_z SrcOffset |};
          srcPtr := {| ptr := SrcPtr; ptr_pitch := 0; xsize := 0; ysize := 0 |};
          dstPos := {| pos_x := offset_x DstOffset; pos_y := offset_y DstOffset;
                       pos_z := offset_z DstOffset |};
          dstPtr := {| ptr := DstPtr; ptr_pitch := 0; xsize := 0; ysize := 0 |};
          extent := {| extent_width := region_width region;
                       extent_height := region_height region;
                       extent_depth := region_depth region |};
          kind := hipMemcpyDeviceToDevice |};
     hipGraphAddNode_error := fun _ _ => None;
     hipGraphExecKernelNodeSetParams_error := fun _ _ _ => None;
     hipGraphCreate_ok := true;
     hipGraphInstantiateWithFlags_ok := fun _ => true;
     new_command_buffer_ok := true;
     indeterminate := [0; 0; 0];
     setKernelArg_throws_error := fun _ _ _ _ => ltac:(discriminate);
     hipGraphAddNode_throws_error := fun _ _ => ltac:(discriminate);
     hipGraphExecKernelNodeSetParams_throws_error :=
       fun _ _ _ => ltac:(discriminate) |}.

(** A heap with one freshly created updatable command buffer (handle 0, in
    context 1), a kernel of the same context (handle 0) and a kernel of
    context 2 (handle 1). *)
Definition example_buffer : ur_exp_command_buffer_handle_t_ :=
  new_ur_exp_command_buffer_handle_t_ 1 0 true.

Definition example_heap : @Heap ideal_externals :=
  {| buffers := {[ 0%nat := example_buffer ]};
     commands := ∅;
     kernels := {[ 0%nat := 1%nat; 1%nat := 2%nat ]} |}.

(** The example heap after recording a one-dimensional kernel launch of
    global size 64 (both out-pointers given), and after finalizing the
    buffer as well. *)
Definition launched_heap : @Heap ideal_externals :=
  match urCommandBufferAppendKernelLaunchExp (H := ideal_externals) 0 0 1
          [0] [64] None 0 None true true example_heap with
  | Returns r => r.1.1.2
  | _ => example_heap
  end.

Definition finalized_heap : @Heap ideal_externals :=
  set_buffers
    (alter (fun cb => (urCommandBufferFinalizeExp (H := ideal_externals) cb).2)
       0%nat (buffers launched_heap))
    launched_heap.

(** An update that supplies a new global size and nothing else. *)
Definition new_global_size (size : list Z)
    : @ur_exp_command_buffer_update_kernel_launch_desc_t ideal_externals :=
  {| numNewMemObjArgs := 0; numNewPointerArgs := 0; numNewValueArgs := 0;
     newWorkDim := 0;
     pNewMemObjArgList := []; pNewPointerArgList := []; pNewValueArgList := [];
     pNewGlobalWorkOffset := None;
     pNewGlobalWorkSize := Some size;
     pNewLocalWorkSize := None |}.

Definition updated_heap : @Heap ideal_externals :=
  match urCommandBufferUpdateKernelLaunchExp (H := ideal_externals) 0
          (new_global_size [128]) finalized_heap with
  | Returns r => r.2
  | _ => finalized_heap
  end.

(** ** Recording, node by node *)

(** The buffer after one more node joined its graph and was registered under
    the next sync point, and after a node joined without being registered. *)
Definition with_node (Deps : list hipGraphNode_t) (what : hipGraphNodeType)
    (cb : ur_exp_command_buffer_handle_t_) : ur_exp_command_buffer_handle_t_ :=
  (addSyncPoint (length (HIPGraph cb))
     (set_graph (HIPGraph cb ++ [{| dependencies := Deps; payload := what |}]) cb)).2.

Definition with_unnamed_node (Deps : list hipGraphNode_t) (what : hipGraphNodeType)
    (cb : ur_exp_command_buffer_handle_t_) : ur_exp_command_buffer_handle_t_ :=
  set_graph (HIPGraph cb ++ [{| dependencies := Deps; payload := what |}]) cb.

(** [cb'] results from [cb] by recording nodes one after the other, each
    depending only on nodes that are in the graph when it joins. *)
Inductive recorded_from (cb : ur_exp_command_buffer_handle_t_)
    : ur_exp_command_buffer_handle_t_ → Prop :=
| recorded_nothing : recorded_from cb cb
| recorded_node cb' Deps what :
    recorded_from cb cb' →
    Forall (fun d => (d < length (HIPGraph cb'))%nat) Deps →
    recorded_from cb (with_node Deps what cb')
| recorded_unnamed_node cb' Deps what :
    recorded_from cb cb' →
    Forall (fun d => (d < length (HIPGraph cb'))%nat) Deps →
    recorded_from cb (with_unnamed_node Deps what cb').

(** Every dependency of a node is a node that joined the graph before it. *)
Definition dependencies_point_back (g : hipGraph_t) : Prop :=
  ∀ i node, g !! i = Some node →
            Forall (fun d => (d < i)%nat) (dependencies node).

(** Every registered sync point names a node of the graph. *)
Definition sync_points_name_nodes (cb : ur_exp_command_buffer_handle_t_) : Prop :=
  ∀ SyncPoint Node, SyncPoints cb !! SyncPoint = Some Node →
                    (Node < length (HIPGraph cb))%nat.

(** The graph of [cb] is the start of the graph of [cb'], and what recording
    does not concern is the same. *)
Definition grows_from (cb cb' : ur_exp_command_buffer_handle_t_) : Prop :=
  HIPGraph cb `prefix_of` HIPGraph cb' ∧
  Context cb' = Context cb ∧ Device cb' = Device cb ∧
  IsUpdatable cb' = IsUpdatable cb ∧ HIPGraphExec cb' = HIPGraphExec cb ∧
  RefCountExternal cb' = RefCountExternal cb.

(** [cb'] has everything [cb] has recorded: its graph grows from that of
    [cb], the sync points of [cb] keep their nodes, and the next sync point
    has not gone back. *)
Definition extends (cb cb' : ur_exp_command_buffer_handle_t_) : Prop :=
  grows_from cb cb' ∧
  SyncPoints cb ⊆ SyncPoints cb' ∧
  (NextSyncPoint cb ≤ NextSyncPoint cb')%N.

(** The 32-bit counter of sync points had room for the nodes that [cb'] has
    more than [cb]: had every one of them been registered, the counter would
    still be below [2 ^ 32], so it has not wrapped on the way. *)
Definition counter_has_room (cb cb' : ur_exp_command_buffer_handle_t_) : Prop :=
  (NextSyncPoint cb +
   N.of_nat (length (HIPGraph cb') - length (HIPGraph cb)) < 2 ^ 32)%N.

(** While the counter has room, what is recorded on the way from [cb] to
    [cb'] keeps a well-formed registry well formed: the sync points of [cb]
    keep their nodes, and the next sync point has moved on, by at most one
    per node added. *)
Definition keeps_registry (cb cb' : ur_exp_command_buffer_handle_t_) : Prop :=
  registry_wf cb → counter_has_room cb cb' →
  registry_wf cb' ∧
  SyncPoints cb ⊆ SyncPoints cb' ∧
  (NextSyncPoint cb ≤ NextSyncPoint cb')%N ∧
  (NextSyncPoint cb' ≤
   NextSyncPoint cb +
   N.of_nat (length (HIPGraph cb') - length (HIPGraph cb)))%N.

(** The sync point [s] is the one under which the last node of [cb'] was
    registered, and that node was recorded after the state [cb]. *)
Definition names_last_node (cb cb' : ur_exp_command_buffer_handle_t_) (s : N)
    : Prop :=
  ∃ cb1 Deps what,
    recorded_from cb cb1 ∧
    Forall (fun d => (d < length (HIPGraph cb1))%nat) Deps ∧
    cb' = with_node Deps what cb1 ∧
    s = NextSyncPoint cb1.

Section MoreVocabulary.
Context `{Externals}.

(** The entry points that work on the command buffer alone, as calls on the
    object behind the handle. *)
Definition on_buffer_call (fuel : nat) (op : append_operation)
    (n : nat) (l : option (list N))
    : option (ur_exp_command_buffer_handle_t_ →
              exec (ur_result_t * ur_exp_command_buffer_handle_t_ * option N)) :=
  match op with
  | KernelLaunch _ _ _ _ _ _ _ => None
  | USMMemcpy pDst pSrc size =>
      Some (fun cb => Returns (urCommandBufferAppendUSMMemcpyExp cb pDst pSrc size n l))
  | MemBufferCopy hSrcMem hDstMem srcOffset dstOffset size =>
      Some (fun cb =>
        Returns (urCommandBufferAppendMemBufferCopyExp cb hSrcMem hDstMem
                   srcOffset dstOffset size n l))
  | MemBufferCopyRect hSrcMem hDstMem srcOrigin dstOrigin region
      srcRowPitch srcSlicePitch dstRowPitch dstSlicePitch =>
      Some (fun cb =>
        Returns (urCommandBufferAppendMemBufferCopyRectExp cb hSrcMem hDstMem
                   srcOrigin dstOrigin region srcRowPitch srcSlicePitch
                   dstRowPitch dstSlicePitch n l))
  | MemBufferWrite hBuffer offset size pSrc =>
      Some (fun cb =>
        Returns (urCommandBufferAppendMemBufferWriteExp cb hBuffer offset size
                   pSrc n l))
  | MemBufferRead hBuffer offset size pDst =>
      Some (fun cb =>
        Returns (urCommandBufferAppendMemBufferReadExp cb hBuffer offset size
                   pDst n l))
  | MemBufferWriteRect hBuffer bufferOffset hostOffset region bufferRowPitch
      bufferSlicePitch hostRowPitch hostSlicePitch pSrc =>
      Some (fun cb =>
        Returns (urCommandBufferAppendMemBufferWriteRectExp cb hBuffer
                   bufferOffset hostOffset region bufferRowPitch
                   bufferSlicePitch hostRowPitch hostSlicePitch pSrc n l))
  | MemBufferReadRect hBuffer bufferOffset hostOffset region bufferRowPitch
      bufferSlicePitch hostRowPitch hostSlicePitch pDst =>
      Some (fun cb =>
        Returns (urCommandBufferAppendMemBufferReadRectExp cb hBuffer
                   bufferOffset hostOffset region bufferRowPitch
                   bufferSlicePitch hostRowPitch hostSlicePitch pDst n l))
  | USMPrefetch Mem Size Flags =>
      Some (fun cb =>
        Returns (urCommandBufferAppendUSMPrefetchExp cb Mem Size Flags n l).1)
  | USMAdvise Mem Size Advice =>
      Some (fun cb =>
        Returns (urCommandBufferAppendUSMAdviseExp cb Mem Size Advice n l).1)
  | MemBufferFill hBuffer pPattern patternSize offset size =>
      Some (fun cb =>
        urCommandBufferAppendMemBufferFillExp fuel cb hBuffer pPattern
          patternSize offset size n l)
  | USMFill pPtr pPattern patternSize size =>
      Some (fun cb =>
        urCommandBufferAppendUSMFillExp fuel cb pPtr pPattern patternSize size
          n l)
  end.

(** The entry points that record at most one node per call: all but the
    fills and the kernel launch. *)
Definition records_at_most_one_node (op : append_operation) : bool :=
  match op with
  | KernelLaunch _ _ _ _ _ _ _ | MemBufferFill _ _ _ _ _ | USMFill _ _ _ _ => false
  | _ => true
  end.

(** What such an entry point returns when it has recorded its node: the
    hints report [UR_RESULT_ERROR_ADAPTER_SPECIFIC], the copies success. *)
Definition result_when_recorded (op : append_operation) : ur_result_t :=
  match op with
  | USMPrefetch _ _ _ | USMAdvise _ _ _ => UR_RESULT_ERROR_ADAPTER_SPECIFIC
  | _ => UR_RESULT_SUCCESS
  end.

(** The checks an append entry point makes before it looks at the wait-list
    pointer. *)
Definition checks_before_wait_list (op : append_operation)
    (cb : ur_exp_command_buffer_handle_t_) (st : Heap) : Prop :=
  match op with
  | KernelLaunch hKernel workDim _ _ _ _ _ =>
      ∃ k, kernels st !! hKernel = Some k ∧ Context cb = getContext k ∧
           (1 ≤ workDim ≤ 3)%nat
  | MemBufferFill _ pPattern patternSize offset size =>
      patternSize ≠ 0 ∧
      (offset mod patternSize = 0 ∨ size mod patternSize = 0) ∧
      pPattern ≠ None ∧ PatternSizeIsValid patternSize = true
  | _ => True
  end.

(** ** Recording sessions *)

(** The calls that work on a command buffer while it is live: the appends,
    finalize and retain, each on the object behind one handle. *)
Inductive recording_call : Type :=
| Record_append (op : append_operation) (numSyncPointsInWaitList : nat)
    (pSyncPointWaitList : option (list N))
| Record_finalize
| Record_retain.

Definition run_call (fuel : nat) (c : recording_call)
    (hCommandBuffer : ur_exp_command_buffer_handle_t) (st : Heap) : exec Heap :=
  match c with
  | Record_append op n l =>
      r ← append fuel op hCommandBuffer n l st; Returns r.2
  | Record_finalize =>
      cb ← deref (buffers st !! hCommandBuffer);
      Returns (set_buffers
                 (<[hCommandBuffer := (urCommandBufferFinalizeExp cb).2]>
                    (buffers st)) st)
  | Record_retain =>
      r ← urCommandBufferRetainExp hCommandBuffer st; Returns r.2
  end.

(** The calls of a list one after the other, whatever each returns. *)
Fixpoint run_calls (fuel : nat) (calls : list recording_call)
    (hCommandBuffer : ur_exp_command_buffer_handle_t) (st : Heap) : exec Heap :=
  match calls with
  | [] => Returns st
  | c :: calls =>
      st ← run_call fuel c hCommandBuffer st;
      run_calls fuel calls hCommandBuffer st
  end.

Definition is_retain (c : recording_call) : bool :=
  match c with Record_retain => true | _ => false end.

(** ** The arguments of an update *)

(** The calls of [setKernelArg] an update makes, in order: the pointer
    arguments, the memory-object arguments, the value arguments, each list
    up to its count. *)
Definition new_kernel_arguments (Device : ur_device_handle_t)
    (pUpdateKernelLaunch : ur_exp_command_buffer_update_kernel_launch_desc_t)
    : list (Z * Z * arg_source) :=
  (pointerArg <$> take (numNewPointerArgs pUpdateKernelLaunch)
                    (pNewPointerArgList pUpdateKernelLaunch)) ++
  (memobjArg Device <$> take (numNewMemObjArgs pUpdateKernelLaunch)
                          (pNewMemObjArgList pUpdateKernelLaunch)) ++
  (valueArg <$> take (numNewValueArgs pUpdateKernelLaunch)
                  (pNewValueArgList pUpdateKernelLaunch)).

(** ** Giving up references *)

(** The user releases the command handles of a list one after the other. *)
Fixpoint releaseCommands
    (l : list ur_exp_command_buffer_command_handle_t) (st : Heap) : exec Heap :=
  match l with
  | [] => Returns st
  | hCommand :: l =>
      r ← urCommandBufferReleaseCommandExp hCommand st;
      releaseCommands l r.2
  end.

(** In [st'] the buffer behind [h] and the command handles of [l] are gone,
    and nothing else differs from [st]. *)
Definition freed (st : Heap) (h : ur_exp_command_buffer_handle_t)
    (l : list ur_exp_command_buffer_command_handle_t) (st' : Heap) : Prop :=
  buffers st' = delete h (buffers st) ∧
  (∀ c, c ∈ l → commands st' !! c = None) ∧
  (∀ c, c ∉ l → commands st' !! c = commands st !! c) ∧
  kernels st' = kernels st.

End MoreVocabulary.

(** ** What the nodes of a fill write *)

(** The byte a memset node writes at an address, if it writes there.  The
    native library documents [hipMemsetParams] as a two-dimensional memset:
    [height] rows, [pitch] bytes apart, of [width] elements of [elementSize]
    bytes each, every element holding [value], least significant byte
    first. *)
Definition memset_byte (p : hipMemsetParams) (addr : Z) : option Z :=
  let off := addr - dst p in
  let row := off / pitch p in
  let col := off mod pitch p in
  if (0 <=? off) && (row <? height p) && (col <? width p * elementSize p)
  then Some ((value p / 2 ^ (8 * (col mod elementSize p))) mod 2 ^ 8)
  else None.

(** Memory, as the byte at each address, after a node has run and after the
    nodes of a list have run one after the other; only memset nodes are
    given a meaning here. *)
Definition run_node (node : hipGraphNode) (m : Z → Z) (addr : Z) : Z :=
  match payload node with
  | hipGraphNodeTypeMemset p => default (m addr) (memset_byte p addr)
  | _ => m addr
  end.

Definition run_nodes (nodes : list hipGraphNode) (m : Z → Z) : Z → Z :=
  foldl (fun m node => run_node node m) m nodes.

(** The memory [m] with the region of [Size] bytes at [Dst] holding the
    pattern over and over. *)
Definition filled (m : Z → Z) (Dst : Z) (Pattern : list Z)
    (PatternSize Size : Z) (addr : Z) : Z :=
  if (Dst <=? addr) && (addr <? Dst + Size)
  then read_uint8 Pattern ((addr - Dst) mod PatternSize)
  else m addr.

(** The same region while a wide fill is under way: the first four bytes of
    the pattern over and over, and on top of them the pattern bytes from 4
    up to [Step], each at its place in every period. *)
Definition filled_up_to (m : Z → Z) (Dst : Z) (Pattern : list Z)
    (PatternSize Size Step : Z) (addr : Z) : Z :=
  if (Dst <=? addr) && (addr <? Dst + Size)
  then
    if (4 <=? (addr - Dst) mod PatternSize) &&
       ((addr - Dst) mod PatternSize <? Step)
    then read_uint8 Pattern ((addr - Dst) mod PatternSize)
    else read_uint8 Pattern ((addr - Dst) mod 4)
  else m addr.

(** ** A native library that runs out of resources

    The reference collaborators, except that the native graph accepts a node
    only while the graph is empty. *)
Definition one_node_externals : Externals :=
  {| ur_kernel_handle_t_ := nat;
     getContext := fun k => k;
     getLocalSize := fun _ => 0;
     clearLocalSize := fun k => k;
     get := fun _ => 0%nat;
     getArgIndices := fun _ => [];
     setKernelArg := fun _ _ _ k => (None, k);
     ur_mem_handle_t_ := Z;
     getSize := fun m => m;
     getPtr := fun _ _ => 0;
     getPtrWithOffset := fun _ _ offset => offset;
     getVoid := fun _ _ => 0;
     setKernelParams := fun _ _ _ _ _ k _ ThreadsPerBlock BlocksPerGrid =>
       (UR_RESULT_SUCCESS, k, ThreadsPerBlock, BlocksPerGrid);
     setCopyRectParams := setCopyRectParams (Externals := ideal_externals);
     hipGraphAddNode_error := fun Graph _ =>
       match Graph with
       | [] => None
       | _ :: _ => Some UR_RESULT_ERROR_OUT_OF_RESOURCES
       end;
     hipGraphExecKernelNodeSetParams_error := fun _ _ _ => None;
     hipGraphCreate_ok := true;
     hipGraphInstantiateWithFlags_ok := fun _ => true;
     new_command_buffer_ok := true;
     indeterminate := [0; 0; 0];
     setKernelArg_throws_error := fun _ _ _ _ => ltac:(discriminate);
     hipGraphAddNode_throws_error := fun Graph _ =>
       ltac:(destruct Graph; discriminate);
     hipGraphExecKernelNodeSetParams_throws_error :=
       fun _ _ _ => ltac:(discriminate) |}.

(** ** A native library that refuses kernel nodes

    A kernel is the pair of its context and the number of times its launch
    parameters were computed: [setKernelParams] succeeds and counts one up.
    The native graph refuses every kernel node and accepts the others. *)
Definition refusing_externals : Externals :=
  {| ur_kernel_handle_t_ := nat * Z;
     getContext := fun k => k.1;
     getLocalSize := fun _ => 0;
     clearLocalSize := fun k => k;
     get := fun _ => 0%nat;
     getArgIndices := fun _ => [];
     setKernelArg := fun _ _ _ k => (None, k);
     ur_mem_handle_t_ := Z;
     getSize := fun m => m;
     getPtr := fun _ _ => 0;
     getPtrWithOffset := fun _ _ offset => offset;
     getVoid := fun _ _ => 0;
     setKernelParams := fun _ _ _ _ _ k _ ThreadsPerBlock BlocksPerGrid =>
       (UR_RESULT_SUCCESS, (k.1, k.2 + 1), ThreadsPerBlock, BlocksPerGrid);
     setCopyRectParams := setCopyRectParams (Externals := ideal_externals);
     hipGraphAddNode_error := fun _ node =>
       match payload node with
       | hipGraphNodeTypeKernel _ => Some UR_RESULT_ERROR_OUT_OF_RESOURCES
       | _ => None
       end;
     hipGraphExecKernelNodeSetParams_error := fun _ _ _ => None;
     hipGraphCreate_ok := true;
     hipGraphInstantiateWithFlags_ok := fun _ => true;
     new_command_buffer_ok := true;
     indeterminate := [0; 0; 0];
     setKernelArg_throws_error := fun _ _ _ _ => ltac:(discriminate);
     hipGraphAddNode_throws_error := fun _ node =>
       ltac:(destruct node as [? []]; discriminate);
     hipGraphExecKernelNodeSetParams_throws_error :=
       fun _ _ _ => ltac:(discriminate) |}.

(** A heap of that library with the example buffer (handle 0, context 1) and
    a kernel of its context whose parameters were never computed (handle 0);
    and the same heap once they were computed. *)
Definition refusing_heap : @Heap refusing_externals :=
  {| buffers := {[ 0%nat := example_buffer ]};
     commands := ∅;
     kernels := {[ 0%nat := (1%nat, 0) ]} |}.

Definition refused_heap : @Heap refusing_externals :=
  {| buffers := {[ 0%nat := example_buffer ]};
     commands := ∅;
     kernels := {[ 0%nat := (1%nat, 1) ]} |}.

(** ** More worked examples *)

(** The example buffer after a USM copy of 8 bytes with an empty wait list,
    and after a second copy that waits for the first. *)
Definition copied_buffer : ur_exp_command_buffer_handle_t_ :=
  (urCommandBufferAppendUSMMemcpyExp (H := ideal_externals) example_buffer
     0 0 8 0 None).1.2.

Definition copied_twice_buffer : ur_exp_command_buffer_handle_t_ :=
  (urCommandBufferAppendUSMMemcpyExp (H := ideal_externals) copied_buffer
     8 8 8 1 (Some [0%N])).1.2.

Definition copied_heap : @Heap ideal_externals :=
  set_buffers (<[0%nat := copied_buffer]> (buffers example_heap)) example_heap.

(** The heap before the example buffer is created, and a session on the
    buffer once it is: a kernel launch, a copy that waits for it, finalize
    and a retain. *)
Definition empty_heap : @Heap ideal_externals :=
  {| buffers := ∅; commands := ∅;
     kernels := {[ 0%nat := 1%nat; 1%nat := 2%nat ]} |}.

Definition example_session : list (@recording_call ideal_externals) :=
  [Record_append (KernelLaunch 0 1 [0] [64] None true true) 0 None;
   Record_append (USMMemcpy 0 0 8) 1 (Some [0%N]);
   Record_finalize;
   Record_retain].

Definition session_heap : @Heap ideal_externals :=
  match run_calls (H := ideal_externals) 0 example_session 0 example_heap with
  | Returns st => st
  | _ => example_heap
  end.

(** The buffer and the command of [launched_heap]. *)
Definition launched_buffer : ur_exp_command_buffer_handle_t_ :=
  default example_buffer (buffers launched_heap !! 0%nat).

(** An update that asks for four dimensions. *)
Definition four_dimensions
    : @ur_exp_command_buffer_update_kernel_launch_desc_t ideal_externals :=
  {| numNewMemObjArgs := 0; numNewPointerArgs := 0; numNewValueArgs := 0;
     newWorkDim := 4;
     pNewMemObjArgList := []; pNewPointerArgList := []; pNewValueArgList := [];
     pNewGlobalWorkOffset := None;
     pNewGlobalWorkSize := None;
     pNewLocalWorkSize := None |}.

(** A queue whose collaborators never fail: the stream of a queue is the
    queue's number, the token is 0, and an event is the pair of its stream
    and token. *)
Definition ideal_queue_externals : QueueExternals :=
  {| ur_queue_handle_t_ := nat;
     ur_event_handle_t_ := nat * Z;
     hipStream_t := nat;
     ScopedContext_error := fun _ => None;
     getNextComputeStream := fun hQueue _ _ => inr (hQueue, 0);
     enqueueEventsWait := fun _ _ _ _ => UR_RESULT_SUCCESS;
     makeNative := fun _ HIPStream StreamToken => (HIPStream, StreamToken);
     start_error := fun _ => None;
     record_error := fun _ => None;
     hipGraphLaunch_error := fun _ _ => None;
     ScopedContext_throws_error := fun _ => ltac:(discriminate);
     getNextComputeStream_throws_error := fun _ _ _ => ltac:(discriminate);
     start_throws_error := fun _ => ltac:(discriminate);
     record_throws_error := fun _ => ltac:(discriminate);
     hipGraphLaunch_throws_error := fun _ _ => ltac:(discriminate) |}.

(** The launched buffer, finalized. *)
Definition finalized_buffer : ur_exp_command_buffer_handle_t_ :=
  (urCommandBufferFinalizeExp (H := ideal_externals) launched_buffer).2.

(** * Properties *)

(** The registry update is kept folded while the entry points are unfolded. *)
#[local] Arguments addSyncPoint : simpl never.
#[local] Arguments set_graph : simpl never.

(** Arithmetic on sync points: 32-bit values, with [mod 2 ^ 32]. *)
Ltac sync_point_arith := zify; Z.quot_rem_to_equations; lia.

(** ** Resolving wait lists *)

Lemma getNodesFromSyncPoints_loop_unknown m WaitList acc :
  (∃ sp, sp ∈ WaitList ∧ m !! sp = None) →
  (getNodesFromSyncPoints_loop m WaitList acc).1 = UR_RESULT_ERROR_INVALID_VALUE.
Proof.
  revert acc. induction WaitList as [|sp' rest IH]; intros acc [sp [Hin Hnone]].
  - by apply elem_of_nil in Hin.
  - simpl. destruct (m !! sp') as [n|] eqn:E; [|done].
    apply IH. exists sp. split; [|done].
    apply elem_of_cons in Hin as [->|Hin]; [congruence|done].
Qed.

Lemma getNodesFromSyncPoints_loop_resolved m WaitList acc nodes :
  resolved m WaitList = Some nodes →
  getNodesFromSyncPoints_loop m WaitList acc = (UR_RESULT_SUCCESS, acc ++ nodes).
Proof.
  revert acc nodes. induction WaitList as [|sp rest IH]; intros acc nodes.
  - unfold resolved. simpl. intros [= <-]. by rewrite app_nil_r.
  - unfold resolved. simpl. destruct (m !! sp) as [n|] eqn:E; simpl; [|done].
    fold (resolved m rest). destruct (resolved m rest) as [ns|] eqn:E'; simpl; [|done].
    intros [= <-]. rewrite (IH _ ns eq_refl). by rewrite <- app_assoc.
Qed.

Lemma resolved_or_unknown m WaitList :
  (∃ nodes, resolved m WaitList = Some nodes) ∨ (∃ sp, sp ∈ WaitList ∧ m !! sp = None).
Proof.
  induction WaitList as [|sp rest IH].
  - left. by exists [].
  - destruct (m !! sp) as [n|] eqn:E.
    + destruct IH as [[ns Hns]|[sp' [Hin Hnone]]].
      * left. exists (n :: ns). unfold resolved in *. simpl. by rewrite E, Hns.
      * right. exists sp'. split; [by apply elem_of_cons; right|done].
    + right. exists sp. split; [by apply elem_of_cons; left|done].
Qed.

Section RecordingFacts.
Context `{Externals}.

Lemma withDependencies_unknown {A : Type} cb num wl (failed : ur_result_t → A) k :
  has_unknown_sync_point cb num wl →
  withDependencies cb num wl failed k = failed UR_RESULT_ERROR_INVALID_VALUE.
Proof.
  intros Hunk. unfold withDependencies, getNodesFromSyncPoints.
  pose proof (getNodesFromSyncPoints_loop_unknown (SyncPoints cb)
                (waitListEntries num wl) [] Hunk) as Hres.
  destruct (getNodesFromSyncPoints_loop _ _ _) as [r l]. simpl in Hres. subst r.
  done.
Qed.

Lemma withDependencies_resolved {A : Type} cb num wl (failed : ur_result_t → A) k DepsList :
  resolved (SyncPoints cb) (waitListEntries num wl) = Some DepsList →
  withDependencies cb num wl failed k = k DepsList.
Proof.
  intros Hres. unfold withDependencies, getNodesFromSyncPoints.
  by rewrite (getNodesFromSyncPoints_loop_resolved _ _ [] _ Hres).
Qed.

(** A null wait-list pointer names no unknown sync point. *)
Lemma unknown_sync_point_not_null cb num wl :
  has_unknown_sync_point cb num wl →
  nullWaitListWithEntries num wl = false.
Proof.
  intros [sp [Hin _]]. unfold nullWaitListWithEntries.
  destruct wl as [l|]; [done|].
  unfold waitListEntries in Hin. simpl in Hin. rewrite take_nil in Hin.
  by apply elem_of_nil in Hin.
Qed.

End RecordingFacts.

(** ** Appends that name an unknown sync point *)

Section UnknownSyncPoint.
Context `{Externals}.

Lemma set_buffers_same h cb (st : Heap) :
  buffers st !! h = Some cb →
  set_buffers (<[h := cb]> (buffers st)) st = st.
Proof.
  intros Hh. rewrite insert_id by done. by destruct st.
Qed.

Lemma onCommandBuffer_fails h cb st call Err :
  buffers st !! h = Some cb →
  call cb = Returns (fails Err cb) →
  onCommandBuffer h st call = Returns (Err, st).
Proof.
  intros Hh Hcall. unfold onCommandBuffer. rewrite Hh. simpl.
  rewrite Hcall. simpl. by rewrite set_buffers_same.
Qed.

(** Each entry point without checks of its own fails with
    [UR_RESULT_ERROR_INVALID_VALUE] and leaves the buffer as it was. *)
Lemma urCommandBufferAppendUSMMemcpyExp_unknown cb pDst pSrc size num wl :
  has_unknown_sync_point cb num wl →
  urCommandBufferAppendUSMMemcpyExp cb pDst pSrc size num wl =
  fails UR_RESULT_ERROR_INVALID_VALUE cb.
Proof.
  intros Hunk. unfold urCommandBufferAppendUSMMemcpyExp.
  rewrite (unknown_sync_point_not_null _ _ _ Hunk).
  by rewrite (withDependencies_unknown _ _ _ _ _ Hunk).
Qed.

Lemma appendHintAsEmptyNode_unknown Message cb num wl :
  has_unknown_sync_point cb num wl →
  appendHintAsEmptyNode Message cb num wl =
  (fails UR_RESULT_ERROR_INVALID_VALUE cb, None).
Proof.
  intros Hunk. unfold appendHintAsEmptyNode.
  rewrite (unknown_sync_point_not_null _ _ _ Hunk).
  by rewrite (withDependencies_unknown _ _ _ _ _ Hunk).
Qed.

Lemma enqueueCommandBufferFillHelper_unknown fuel cb DstDevice DstType Pattern
    PatternSize Size num wl :
  has_unknown_sync_point cb num wl →
  enqueueCommandBufferFillHelper fuel cb DstDevice DstType Pattern PatternSize
    Size num wl = Returns (fails UR_RESULT_ERROR_INVALID_VALUE cb).
Proof.
  intros Hunk. unfold enqueueCommandBufferFillHelper.
  by rewrite (withDependencies_unknown _ _ _ _ _ Hunk).
Qed.

Lemma urCommandBufferAppendMemBufferCopyExp_unknown cb hSrcMem hDstMem
    srcOffset dstOffset size num wl :
  has_unknown_sync_point cb num wl →
  ∃ Err,
    urCommandBufferAppendMemBufferCopyExp cb hSrcMem hDstMem srcOffset dstOffset
      size num wl = fails Err cb ∧
    Err ≠ UR_RESULT_SUCCESS ∧
    (wrap_size_t (size + dstOffset) ≤ getSize hDstMem ∧
     wrap_size_t (size + srcOffset) ≤ getSize hSrcMem →
     Err = UR_RESULT_ERROR_INVALID_VALUE).
Proof.
  intros Hunk. unfold urCommandBufferAppendMemBufferCopyExp.
  rewrite (unknown_sync_point_not_null _ _ _ Hunk).
  destruct (Z.leb_spec (wrap_size_t (size + dstOffset)) (getSize hDstMem)); simpl.
  - destruct (Z.leb_spec (wrap_size_t (size + srcOffset)) (getSize hSrcMem)); simpl.
    + rewrite (withDependencies_unknown _ _ _ _ _ Hunk). eexists; split; [done|]. done.
    + eexists; split; [done|]. split; [done|]. lia.
  - eexists; split; [done|]. split; [done|]. lia.
Qed.

Lemma urCommandBufferAppendMemBufferFillExp_unknown fuel cb hBuffer pPattern
    patternSize offset size num wl :
  has_unknown_sync_point cb num wl →
  patternSize ≠ 0 →
  ∃ Err,
    urCommandBufferAppendMemBufferFillExp fuel cb hBuffer pPattern patternSize
      offset size num wl = Returns (fails Err cb) ∧
    Err ≠ UR_RESULT_SUCCESS ∧
    ((offset mod patternSize = 0 ∨ size mod patternSize = 0) ∧
     pPattern ≠ None ∧ PatternSizeIsValid patternSize = true →
     Err = UR_RESULT_ERROR_INVALID_VALUE).
Proof.
  intros Hunk HP. unfold urCommandBufferAppendMemBufferFillExp.
  destruct (Z.eqb_spec patternSize 0) as [|_]; [done|].
  rewrite (unknown_sync_point_not_null _ _ _ Hunk).
  rewrite enqueueCommandBufferFillHelper_unknown by done.
  destruct (negb _) eqn:Hguard.
  - eexists; split; [done|]. split; [done|]. intros (Hmul & Hpat & Hsize).
    rewrite Hsize, bool_decide_true in Hguard by done.
    apply negb_true_iff in Hguard. rewrite !andb_true_r in Hguard.
    apply orb_false_iff in Hguard as [Ho Hs].
    apply Z.eqb_neq in Ho, Hs. tauto.
  - eexists; split; [done|]. done.
Qed.

Lemma urCommandBufferAppendUSMFillExp_unknown fuel cb pPtr pPattern
    patternSize size num wl :
  has_unknown_sync_point cb num wl →
  ∃ Err,
    urCommandBufferAppendUSMFillExp fuel cb pPtr pPattern patternSize size
      num wl = Returns (fails Err cb) ∧
    Err ≠ UR_RESULT_SUCCESS ∧
    (pPattern ≠ None ∧ PatternSizeIsValid patternSize = true →
     Err = UR_RESULT_ERROR_INVALID_VALUE).
Proof.
  intros Hunk. unfold urCommandBufferAppendUSMFillExp.
  rewrite (unknown_sync_point_not_null _ _ _ Hunk).
  rewrite enqueueCommandBufferFillHelper_unknown by done.
  destruct (negb _) eqn:Hguard.
  - eexists; split; [done|]. split; [done|]. intros (Hpat & Hsize).
    rewrite Hsize, bool_decide_true in Hguard by done. done.
  - eexists; split; [done|]. done.
Qed.

Lemma urCommandBufferAppendKernelLaunchExp_unknown h hKernel workDim
    pGlobalWorkOffset pGlobalWorkSize pLocalWorkSize num wl pSyncPoint
    phCommand st cb k :
  buffers st !! h = Some cb →
  kernels st !! hKernel = Some k →
  has_unknown_sync_point cb num wl →
  ∃ Err,
    urCommandBufferAppendKernelLaunchExp h hKernel workDim pGlobalWorkOffset
      pGlobalWorkSize pLocalWorkSize num wl pSyncPoint phCommand st =
    Returns (Err, st, None, None) ∧
    Err ≠ UR_RESULT_SUCCESS ∧
    (Context cb = getContext k ∧ (1 ≤ workDim ≤ 3)%nat →
     Err = UR_RESULT_ERROR_INVALID_VALUE).
Proof.
  intros Hh Hk Hunk. unfold urCommandBufferAppendKernelLaunchExp.
  rewrite Hh, Hk. simpl.
  rewrite (unknown_sync_point_not_null _ _ _ Hunk).
  rewrite (withDependencies_unknown _ _ _ _ _ Hunk).
  repeat case_bool_decide; simpl;
    (eexists; split; [done|]; split; [done|]; intros [? ?]; first [done|lia]).
Qed.

Lemma append_unknown_cases fuel op h num wl st cb :
  buffers st !! h = Some cb →
  has_unknown_sync_point cb num wl →
  (∃ Err, append fuel op h num wl st = Returns (Err, st) ∧
          Err ≠ UR_RESULT_SUCCESS ∧
          (parameter_checks_pass op cb st → Err = UR_RESULT_ERROR_INVALID_VALUE)) ∨
  (append fuel op h num wl st = Undefined ∧ ¬ parameter_checks_pass op cb st).
Proof.
  intros Hh Hunk.
  destruct op; simpl;
    try solve
        [left; exists UR_RESULT_ERROR_INVALID_VALUE; split; [|done];
         apply (onCommandBuffer_fails _ cb); [done|]; f_equal;
         first [ by apply urCommandBufferAppendUSMMemcpyExp_unknown
               | unfold urCommandBufferAppendUSMPrefetchExp,
                   urCommandBufferAppendUSMAdviseExp;
                 by rewrite appendHintAsEmptyNode_unknown
               | unfold urCommandBufferAppendMemBufferCopyRectExp,
                   urCommandBufferAppendMemBufferWriteExp,
                   urCommandBufferAppendMemBufferReadExp,
                   urCommandBufferAppendMemBufferWriteRectExp,
                   urCommandBufferAppendMemBufferReadRectExp;
                 rewrite (unknown_sync_point_not_null _ _ _ Hunk);
                 by rewrite (withDependencies_unknown _ _ _ _ _ Hunk) ]].
  - (* kernel launch *)
    destruct (kernels st !! hKernel) as [k|] eqn:Hk.
    + destruct (urCommandBufferAppendKernelLaunchExp_unknown h hKernel workDim
                  pGlobalWorkOffset pGlobalWorkSize pLocalWorkSize num wl
                  pSyncPoint phCommand st cb k Hh Hk Hunk)
        as (Err & Hrun & Hne & Hval).
      left. exists Err. rewrite Hrun. simpl. split; [done|]. split; [done|].
      intros (k' & Hk' & Hctx & Hdim). apply Hval. by simplify_eq.
    + right. unfold urCommandBufferAppendKernelLaunchExp. rewrite Hh, Hk. simpl.
      split; [done|]. intros (k' & Hk' & _). congruence.
  - (* linear buffer copy *)
    destruct (urCommandBufferAppendMemBufferCopyExp_unknown cb hSrcMem hDstMem
                srcOffset dstOffset size num wl Hunk) as (Err & Hrun & Hne & Hval).
    left. exists Err. split; [|done].
    apply (onCommandBuffer_fails _ cb); [done|]. by rewrite Hrun.
  - (* buffer fill *)
    destruct (decide (patternSize = 0)) as [->|HP].
    + right. split; [|by intros [? _]].
      unfold onCommandBuffer. rewrite Hh. simpl.
      by unfold urCommandBufferAppendMemBufferFillExp.
    + destruct (urCommandBufferAppendMemBufferFillExp_unknown fuel cb hBuffer
                  pPattern patternSize offset size num wl Hunk HP)
        as (Err & Hrun & Hne & Hval).
      left. exists Err. split; [by apply (onCommandBuffer_fails _ cb)|].
      split; [done|]. intros (_ & ?). by apply Hval.
  - (* USM fill *)
    destruct (urCommandBufferAppendUSMFillExp_unknown fuel cb pPtr pPattern
                patternSize size num wl Hunk) as (Err & Hrun & Hne & Hval).
    left. exists Err. split; [by apply (onCommandBuffer_fails _ cb)|]. done.
Qed.

(** C1 (as amended): an append whose wait list names a sync point unknown to
    the buffer never succeeds and changes nothing: the heap, hence the graph
    of the buffer and its sync-point registry, is the one before the call.
    When the entry point's checks on its own arguments pass, the error is
    [UR_RESULT_ERROR_INVALID_VALUE]. *)
Theorem append_with_unknown_sync_point fuel op h num wl st cb :
  buffers st !! h = Some cb →
  has_unknown_sync_point cb num wl →
  (∀ r st', append fuel op h num wl st = Returns (r, st') →
            st' = st ∧ r ≠ UR_RESULT_SUCCESS) ∧
  (parameter_checks_pass op cb st →
   append fuel op h num wl st = Returns (UR_RESULT_ERROR_INVALID_VALUE, st)).
Proof.
  intros Hh Hunk.
  destruct (append_unknown_cases fuel op h num wl st cb Hh Hunk)
    as [(Err & Hrun & Hne & Hval)|[Hrun Hno]]; rewrite Hrun.
  - split.
    + intros r st' [= <- <-]. done.
    + intros Hok. by rewrite (Hval Hok).
  - split; [done|]. intros Hok. by destruct Hno.
Qed.

End UnknownSyncPoint.

Lemma example_buffer_knows_no_sync_point SyncPoint :
  has_unknown_sync_point example_buffer 1 (Some [SyncPoint]).
Proof.
  exists SyncPoint. split; [apply list_elem_of_here|reflexivity].
Defined.

(** C1, instance: a USM copy recorded into the example buffer with the
    unknown sync point 7 in its wait list. *)
Lemma append_with_unknown_sync_point_witness :
  append (H := ideal_externals) 0 (USMMemcpy 0 0 8) 0 1 (Some [7%N]) example_heap =
  Returns (UR_RESULT_ERROR_INVALID_VALUE, example_heap).
Proof.
  apply (append_with_unknown_sync_point (H := ideal_externals) 0
           (USMMemcpy 0 0 8) 0%nat 1%nat (Some [7%N]) example_heap example_buffer).
  - reflexivity.
  - apply example_buffer_knows_no_sync_point.
  - exact I.
Defined.

(** C1, as stated, fails: a kernel launch with work dimension 0 and the
    unknown sync point 7 in its wait list is rejected for its work dimension,
    not with [UR_RESULT_ERROR_INVALID_VALUE]. *)
Lemma unknown_sync_point_after_bad_work_dimension :
  has_unknown_sync_point example_buffer 1 (Some [7%N]) ∧
  append (H := ideal_externals) 0 (KernelLaunch 0 0 [0] [8] None true true)
    0 1 (Some [7%N]) example_heap =
  Returns (UR_RESULT_ERROR_INVALID_WORK_DIMENSION, example_heap).
Proof.
  split; [apply example_buffer_knows_no_sync_point|reflexivity].
Qed.

(** ** Argument checks of a kernel launch *)

Section KernelLaunchChecks.
Context `{Externals}.

(** C10 (as amended): a kernel of another context is rejected with
    [UR_RESULT_ERROR_INVALID_KERNEL]; with a kernel of the buffer's context, a
    work dimension of 0 or above 3 is rejected with
    [UR_RESULT_ERROR_INVALID_WORK_DIMENSION].  Either way the heap is left as
    it was and nothing is stored through the out-pointers, whatever the wait
    list is. *)
Theorem kernel_launch_argument_checks h hKernel workDim pGlobalWorkOffset
    pGlobalWorkSize pLocalWorkSize num wl pSyncPoint phCommand st cb k :
  buffers st !! h = Some cb →
  kernels st !! hKernel = Some k →
  (Context cb ≠ getContext k →
   urCommandBufferAppendKernelLaunchExp h hKernel workDim pGlobalWorkOffset
     pGlobalWorkSize pLocalWorkSize num wl pSyncPoint phCommand st =
   Returns (UR_RESULT_ERROR_INVALID_KERNEL, st, None, None)) ∧
  (Context cb = getContext k → (workDim = 0 ∨ 3 < workDim)%nat →
   urCommandBufferAppendKernelLaunchExp h hKernel workDim pGlobalWorkOffset
     pGlobalWorkSize pLocalWorkSize num wl pSyncPoint phCommand st =
   Returns (UR_RESULT_ERROR_INVALID_WORK_DIMENSION, st, None, None)).
Proof.
  intros Hh Hk. unfold urCommandBufferAppendKernelLaunchExp.
  rewrite Hh, Hk. simpl. split.
  - intros Hctx. by rewrite bool_decide_false.
  - intros Hctx Hdim. rewrite bool_decide_true by done. simpl.
    repeat case_bool_decide; simpl; first [done|lia].
Qed.

End KernelLaunchChecks.

(** C10, instance: work dimension 4 with a kernel of the buffer's context. *)
Lemma kernel_launch_argument_checks_witness :
  urCommandBufferAppendKernelLaunchExp (H := ideal_externals) 0 0 4
    [0] [8] None 0 None true true example_heap =
  Returns (UR_RESULT_ERROR_INVALID_WORK_DIMENSION, example_heap, None, None).
Proof.
  apply (proj2 (kernel_launch_argument_checks (H := ideal_externals) 0%nat
                  0%nat 4%nat [0] [8] None 0%nat None true true example_heap
                  example_buffer 1%nat eq_refl eq_refl)).
  - reflexivity.
  - right. unfold lt. apply le_n.
Defined.

(** C10, as stated, fails: with a kernel of another context and work
    dimension 0 the launch is rejected for the kernel, not for the work
    dimension. *)
Lemma bad_work_dimension_after_foreign_kernel :
  urCommandBufferAppendKernelLaunchExp (H := ideal_externals) 0 1 0
    [0] [8] None 0 None true true example_heap =
  Returns (UR_RESULT_ERROR_INVALID_KERNEL, example_heap, None, None) ∧
  UR_RESULT_ERROR_INVALID_KERNEL ≠ UR_RESULT_ERROR_INVALID_WORK_DIMENSION.
Proof. split; [reflexivity|discriminate]. Qed.

(** ** Updating a kernel launch *)

Section UpdateFacts.
Context `{Externals}.

(** C6: an update on a command whose buffer has no compiled graph (it was
    never finalized), or whose buffer has one but was not created updatable,
    fails with [UR_RESULT_ERROR_INVALID_OPERATION] and leaves the heap as it
    was: the command handle, with its cached work dimension, global offset,
    global size and local size, and the kernels, with their arguments, are
    the ones before the call. *)
Theorem update_needs_finalized_updatable_buffer hCommand pUpdateKernelLaunch
    st c cb :
  commands st !! hCommand = Some c →
  buffers st !! Command.CommandBuffer c = Some cb →
  HIPGraphExec cb = None ∨ (is_Some (HIPGraphExec cb) ∧ IsUpdatable cb = false) →
  urCommandBufferUpdateKernelLaunchExp hCommand pUpdateKernelLaunch st =
  Returns (UR_RESULT_ERROR_INVALID_OPERATION, st).
Proof.
  intros Hc Hcb Hcase. unfold urCommandBufferUpdateKernelLaunchExp.
  rewrite Hc. simpl. rewrite Hcb. simpl.
  destruct Hcase as [->|[[g ->] ->]]; done.
Qed.

Lemma setKernelArgs_throws_error Args k :
  (setKernelArgs Args k).1 ≠ Some UR_RESULT_SUCCESS.
Proof.
  revert k. induction Args as [|[[i s] a] rest IH]; intros k; simpl; [done|].
  pose proof (setKernelArg_throws_error i s a k) as Hthrow.
  destruct (setKernelArg i s a k) as [[Err|] k']; simpl in *; [done|apply IH].
Qed.

(** The cached coordinate after [setCoordinate]: the supplied values in the
    dimensions in use, zero in the others. *)
Lemma setCoordinate_read WorkDim Ptr Old :
  (WorkDim ≤ length Ptr)%nat →
  setCoordinate WorkDim Ptr Old = take WorkDim Ptr ++ replicate (3 - WorkDim)%nat 0.
Proof.
  intros Hlen. unfold setCoordinate, memset_zero_from, memcpy_size_t.
  rewrite take_app_length'; [done|]. rewrite length_take. lia.
Qed.

(** C7: after an update that returned [UR_RESULT_SUCCESS], the command handle
    holds the supplied work dimension (the previous one when [newWorkDim] is
    0), and each of global offset, global size and local size holds the
    supplied values in the dimensions in use and zero in the others (the
    previous array, untouched, when the pointer is null). *)
Theorem update_then_read_geometry hCommand pUpdateKernelLaunch st st' c :
  commands st !! hCommand = Some c →
  urCommandBufferUpdateKernelLaunchExp hCommand pUpdateKernelLaunch st =
  Returns (UR_RESULT_SUCCESS, st') →
  ∃ c', commands st' !! hCommand = Some c' ∧
    let WorkDim := Command.WorkDim c' in
    (newWorkDim pUpdateKernelLaunch ≠ 0%nat →
     WorkDim = newWorkDim pUpdateKernelLaunch) ∧
    (newWorkDim pUpdateKernelLaunch = 0%nat → WorkDim = Command.WorkDim c) ∧
    (∀ p, pNewGlobalWorkOffset pUpdateKernelLaunch = Some p →
          (WorkDim ≤ length p)%nat →
          Command.GlobalWorkOffset c' =
          take WorkDim p ++ replicate (3 - WorkDim)%nat 0) ∧
    (pNewGlobalWorkOffset pUpdateKernelLaunch = None →
     Command.GlobalWorkOffset c' = Command.GlobalWorkOffset c) ∧
    (∀ p, pNewGlobalWorkSize pUpdateKernelLaunch = Some p →
          (WorkDim ≤ length p)%nat →
          Command.GlobalWorkSize c' =
          take WorkDim p ++ replicate (3 - WorkDim)%nat 0) ∧
    (pNewGlobalWorkSize pUpdateKernelLaunch = None →
     Command.GlobalWorkSize c' = Command.GlobalWorkSize c) ∧
    (∀ p, pNewLocalWorkSize pUpdateKernelLaunch = Some p →
          (WorkDim ≤ length p)%nat →
          Command.LocalWorkSize c' =
          take WorkDim p ++ replicate (3 - WorkDim)%nat 0) ∧
    (pNewLocalWorkSize pUpdateKernelLaunch = None →
     Command.LocalWorkSize c' = Command.LocalWorkSize c).
Proof.
  intros Hc. unfold urCommandBufferUpdateKernelLaunchExp.
  rewrite Hc. simpl.
  destruct (buffers st !! Command.CommandBuffer c) as [cb|]; simpl; [|done].
  destruct (HIPGraphExec cb) as [GraphExec|]; [|done].
  destruct (IsUpdatable cb); simpl; [|done].
  destruct (kernels st !! Command.Kernel c) as [k|]; simpl; [|done].
  match goal with |- context [setKernelArgs ?a k] =>
    pose proof (setKernelArgs_throws_error a k) as Hthrow;
    destruct (setKernelArgs a k) as [[Err|] k1]; simpl in Hthrow
  end; [intros [= -> _]; done|].
  destruct (bool_decide (newWorkDim pUpdateKernelLaunch ≠ 0%nat) &&
            negb (bool_decide (newWorkDim pUpdateKernelLaunch < 4)%nat)); [done|].
  match goal with |- context [setKernelParams ?a1 ?a2 ?a3 ?a4 ?a5 ?a6 ?a7 ?a8 ?a9] =>
    destruct (setKernelParams a1 a2 a3 a4 a5 a6 a7 a8 a9) as [[[Result k2] T] B]
  end.
  case_bool_decide; [intros [= -> _]; done|].
  match goal with |- context [hipGraphExecKernelNodeSetParams_error ?g ?n ?p] =>
    pose proof (hipGraphExecKernelNodeSetParams_throws_error g n p) as Hthrow';
    destruct (hipGraphExecKernelNodeSetParams_error g n p) as [Err|]
  end; [intros [= -> _]; done|].
  intros [= <-]. simpl. rewrite lookup_insert_eq. eexists. split; [done|].
  simpl.
  split; [intros Hn; by rewrite bool_decide_true|].
  split; [intros Hn; by rewrite bool_decide_false by (rewrite Hn; tauto)|].
  repeat split;
    first [ intros p Hp Hlen; rewrite Hp in *; by apply setCoordinate_read
          | by intros -> ].
Qed.

End UpdateFacts.

(** C6, instance: the launch recorded in [launched_heap] cannot be updated,
    since its buffer has not been finalized. *)
Lemma update_needs_finalized_updatable_buffer_witness :
  urCommandBufferUpdateKernelLaunchExp (H := ideal_externals) 0
    (new_global_size [128]) launched_heap =
  Returns (UR_RESULT_ERROR_INVALID_OPERATION, launched_heap).
Proof.
  eapply (update_needs_finalized_updatable_buffer (H := ideal_externals) 0%nat
            (new_global_size [128]) launched_heap).
  - vm_compute. reflexivity.
  - vm_compute. reflexivity.
  - left. reflexivity.
Defined.

(** C7, instance: after finalizing, the update to global size 128 succeeds
    and the command handle reads back size 128 in its one dimension, with its
    offset untouched. *)
Lemma update_then_read_geometry_witness :
  ∃ c', commands updated_heap !! 0%nat = Some c' ∧
        Command.GlobalWorkSize c' = [128; 0; 0] ∧
        Command.GlobalWorkOffset c' = [0; 0; 0].
Proof.
  edestruct (update_then_read_geometry (H := ideal_externals) 0%nat
               (new_global_size [128]) finalized_heap updated_heap)
    as (c' & Hc' & _ & Hdim & _ & Hoffset & Hsize & _).
  - vm_compute. reflexivity.
  - vm_compute. reflexivity.
  - exists c'. split; [exact Hc'|].
    simpl in Hdim, Hoffset, Hsize.
    specialize (Hdim eq_refl). specialize (Hoffset eq_refl).
    specialize (Hsize [128] eq_refl).
    rewrite Hdim in Hsize. split.
    + apply Hsize. apply le_n.
    + exact Hoffset.
Defined.

(** ** Recording one node *)

Lemma registry_wf_new hContext hDevice IsUpdatable :
  registry_wf (new_ur_exp_command_buffer_handle_t_ hContext hDevice IsUpdatable).
Proof.
  split; simpl.
  - intros sp. rewrite lookup_empty. split; [by intros [? ?]|lia].
  - intros sp n. by rewrite lookup_empty.
Qed.

Lemma addSyncPoint_eq HIPNode g cb :
  addSyncPoint HIPNode (set_graph g cb) =
  (NextSyncPoint cb,
   set_sync_points (<[NextSyncPoint cb := HIPNode]> (SyncPoints cb))
     ((NextSyncPoint cb + 1) mod 2 ^ 32)%N (set_graph g cb)).
Proof. reflexivity. Qed.

Lemma registry_wf_fresh cb :
  registry_wf cb → SyncPoints cb !! NextSyncPoint cb = None.
Proof.
  intros [Hdom _]. apply eq_None_not_Some. rewrite Hdom. lia.
Qed.

(** Registering a node: the sync point is the next one, which was not in
    use, and the registry stays well formed unless the 32-bit counter
    wraps. *)
Lemma addSyncPoint_records cb node sp cb' :
  registry_wf cb →
  addSyncPoint (length (HIPGraph cb)) (set_graph (HIPGraph cb ++ [node]) cb) =
    (sp, cb') →
  sp = NextSyncPoint cb ∧ records_one_node cb cb' node sp ∧
  ((NextSyncPoint cb + 1 < 2 ^ 32)%N → registry_wf cb').
Proof.
  intros Hwf. pose proof (registry_wf_fresh cb Hwf) as Hfresh.
  destruct Hwf as [Hdom Hnodes]. unfold addSyncPoint. cbn [NextSyncPoint set_graph].
  intros [= <- <-].
  split; [done|]. split.
  - unfold records_one_node. simpl. done.
  - intros Hroom. split; simpl.
    + intros sp. rewrite N.mod_small by done.
      destruct (decide (sp = NextSyncPoint cb)) as [->|Hne].
      * rewrite lookup_insert_eq. split; [lia|eauto].
      * rewrite lookup_insert_ne by done. rewrite Hdom. lia.
    + intros sp n. rewrite length_app. simpl.
      destruct (decide (sp = NextSyncPoint cb)) as [->|Hne].
      * rewrite lookup_insert_eq. intros [= <-]. lia.
      * rewrite lookup_insert_ne by done. intros Hn. apply Hnodes in Hn. lia.
Qed.

(** A wait list that names the nodes of [DepsList] is consistent and
    resolves to them. *)
Lemma wait_list_names_resolved cb num wl DepsList :
  wait_list_names cb num wl DepsList →
  nullWaitListWithEntries num wl = false ∧
  resolved (SyncPoints cb) (waitListEntries num wl) = Some DepsList.
Proof.
  intros [Hlen Hnames].
  assert (num ≤ length (default [] wl))%nat as Hentries.
  { destruct num as [|n]; [lia|].
    destruct (Hnames n) as (sp & node & Hsp & _); [lia|].
    apply lookup_lt_Some in Hsp. lia. }
  split.
  - unfold nullWaitListWithEntries. destruct wl as [l|]; [done|].
    simpl in Hentries. rewrite andb_true_l. apply bool_decide_eq_false_2. lia.
  - unfold resolved, waitListEntries. apply mapM_Some.
    apply Forall2_same_length_lookup_2.
    + rewrite length_take. lia.
    + intros i sp node Hsp Hnode.
      apply lookup_take_Some in Hsp as [Hsp Hi].
      destruct (Hnames i Hi) as (sp' & node' & Hsp' & Hreg & Hnode').
      congruence.
Qed.

Section HintFacts.
Context `{Externals}.

Lemma appendHintAsEmptyNode_recorded Message cb num wl DepsList :
  registry_wf cb →
  nullWaitListWithEntries num wl = false →
  resolved (SyncPoints cb) (waitListEntries num wl) = Some DepsList →
  hipGraphAddNode_error (HIPGraph cb)
    {| dependencies := DepsList; payload := hipGraphNodeTypeEmpty |} = None →
  hint_recorded cb DepsList (appendHintAsEmptyNode Message cb num wl).
Proof.
  intros Hwf Hnull Hres Hok. unfold appendHintAsEmptyNode.
  rewrite Hnull, (withDependencies_resolved _ _ _ _ _ _ Hres).
  unfold hipGraphAddNode. rewrite Hok.
  destruct (addSyncPoint _ _) as [sp cb'] eqn:Hadd.
  destruct (addSyncPoint_records _ _ _ _ Hwf Hadd) as (-> & Hrec & Hwf').
  exists cb', (NextSyncPoint cb), Message. split; [done|]. split; [done|].
  split; [done|]. unfold resolved. simpl.
  destruct Hrec as (_ & _ & -> & _). by rewrite lookup_insert_eq.
Qed.

(** C9: take a buffer with a well-formed registry and a wait list, passed as
    a count and a pointer, whose first [num] entries are registered; let
    [DepsList] be the nodes registered under those entries, in the order of
    the wait list, and let the native library accept the node.  Then
    prefetch and advise each record exactly one empty node whose dependency
    edges are [DepsList], register it under a fresh sync point stored through
    [pSyncPoint], and return [UR_RESULT_ERROR_ADAPTER_SPECIFIC], which is
    neither [UR_RESULT_SUCCESS] nor one of the codes the two calls fail with;
    the message set carries [UR_RESULT_SUCCESS]; the new sync point resolves
    to the new node, and the registry remains well formed as long as the
    32-bit counter of sync points has not wrapped. *)
Theorem prefetch_and_advise_record_an_empty_node cb Mem Size Flags num wl
    DepsList :
  registry_wf cb →
  wait_list_names cb num wl DepsList →
  hipGraphAddNode_error (HIPGraph cb)
    {| dependencies := DepsList; payload := hipGraphNodeTypeEmpty |} = None →
  hint_recorded cb DepsList
    (urCommandBufferAppendUSMPrefetchExp cb Mem Size Flags num wl) ∧
  hint_recorded cb DepsList
    (urCommandBufferAppendUSMAdviseExp cb Mem Size Flags num wl) ∧
  UR_RESULT_ERROR_ADAPTER_SPECIFIC ≠ UR_RESULT_SUCCESS ∧
  UR_RESULT_ERROR_ADAPTER_SPECIFIC ≠ UR_RESULT_ERROR_INVALID_EVENT_WAIT_LIST ∧
  UR_RESULT_ERROR_ADAPTER_SPECIFIC ≠ UR_RESULT_ERROR_INVALID_VALUE.
Proof.
  intros Hwf Hnames Hok.
  destruct (wait_list_names_resolved _ _ _ _ Hnames) as [Hnull Hres].
  split; [by apply appendHintAsEmptyNode_recorded|].
  split; [by apply appendHintAsEmptyNode_recorded|]. done.
Qed.

End HintFacts.

(** The example buffer after one copy has a well-formed registry. *)
Lemma registry_wf_copied_buffer : registry_wf copied_buffer.
Proof.
  destruct (addSyncPoint_records example_buffer
              {| dependencies := [];
                 payload := hipGraphNodeTypeMemcpy1D 0 0 8 hipMemcpyHostToHost |}
              _ _ (registry_wf_new 1 0 true) eq_refl) as (_ & _ & Hwf).
  apply Hwf. reflexivity.
Qed.

(** C9, instance: a prefetch and an advise recorded into the example buffer
    after one copy, each waiting for the sync point 0 of that copy: the
    empty node depends on node 0, the node of the copy. *)
Lemma prefetch_and_advise_record_an_empty_node_witness :
  hint_recorded copied_buffer [0%nat]
    (urCommandBufferAppendUSMPrefetchExp (H := ideal_externals) copied_buffer
       0 16 0 1 (Some [0%N])) ∧
  hint_recorded copied_buffer [0%nat]
    (urCommandBufferAppendUSMAdviseExp (H := ideal_externals) copied_buffer
       0 16 0 1 (Some [0%N])).
Proof.
  assert (wait_list_names copied_buffer 1 (Some [0%N]) [0%nat]) as Hnames.
  { split; [reflexivity|]. intros i Hi. exists 0%N, 0%nat.
    destruct i as [|i]; [|exfalso; revert Hi; apply Nat.nlt_succ_diag_l || lia].
    repeat split; reflexivity. }
  pose proof (prefetch_and_advise_record_an_empty_node (H := ideal_externals)
                copied_buffer 0 16 0 1%nat (Some [0%N]) [0%nat]
                registry_wf_copied_buffer Hnames eq_refl) as Hboth.
  split; [exact (proj1 Hboth)|exact (proj1 (proj2 Hboth))].
Defined.

(** ** Bounds of buffer copies *)

Section CopyFacts.
Context `{Externals}.



End CopyFacts.



(** ** Validation of fill patterns *)

Lemma land_even_odd a b : Z.land (2 * a) (2 * b + 1) = 2 * Z.land a b.
Proof.
  apply Z.bits_inj'. intros n Hn. rewrite Z.land_spec.
  destruct (Z.eq_dec n 0) as [->|Hne].
  - by rewrite !Z.testbit_even_0.
  - replace n with (Z.succ (n - 1)) by lia.
    rewrite !Z.testbit_even_succ, Z.testbit_odd_succ by lia.
    by rewrite Z.land_spec.
Qed.

Lemma land_odd_even a b : Z.land (2 * a + 1) (2 * b) = 2 * Z.land a b.
Proof. rewrite Z.land_comm, land_even_odd. by rewrite Z.land_comm. Qed.

(** The bit test of the source holds of positive powers of two only. *)
Lemma land_pred_zero_power_of_two (n : nat) (v : Z) :
  0 < v < 2 ^ Z.of_nat n →
  Z.land v (v - 1) = 0 →
  is_power_of_two v.
Proof.
  revert v. induction n as [|n IH]; intros v Hv Hland.
  - simpl in Hv. lia.
  - rewrite Nat2Z.inj_succ, Z.pow_succ_r in Hv by lia.
    destruct (Z.even v) eqn:Heven.
    + apply Z.even_spec in Heven as [q ->].
      replace (2 * q - 1) with (2 * (q - 1) + 1) in Hland by lia.
      rewrite land_even_odd in Hland.
      destruct (IH q) as (k & Hk & ->); [lia|lia|].
      exists (k + 1). split; [lia|]. rewrite Z.pow_add_r by lia. lia.
    + assert (Z.odd v = true) as Hodd by (by rewrite <- Z.negb_even, Heven).
      apply Z.odd_spec in Hodd as [q ->].
      replace (2 * q + 1 - 1) with (2 * q) in Hland by lia.
      rewrite land_odd_even, Z.land_diag in Hland.
      exists 0. split; [lia|]. simpl. lia.
Qed.

Lemma PatternSizeIsValid_power_of_two patternSize :
  0 ≤ patternSize < 2 ^ 64 →
  PatternSizeIsValid patternSize = true →
  is_power_of_two patternSize.
Proof.
  intros Hrange Hvalid. unfold PatternSizeIsValid in Hvalid.
  apply andb_true_iff in Hvalid as [Hland Hpos].
  apply Z.eqb_eq in Hland. apply Z.ltb_lt in Hpos.
  unfold wrap_size_t in Hland. rewrite Z.mod_small in Hland by lia.
  apply (land_pred_zero_power_of_two 64); [|done].
  change (Z.of_nat 64) with 64. lia.
Qed.

Lemma power_of_two_PatternSizeIsValid patternSize :
  0 ≤ patternSize < 2 ^ 64 →
  is_power_of_two patternSize →
  PatternSizeIsValid patternSize = true.
Proof.
  intros Hrange (k & Hk & ->). unfold PatternSizeIsValid.
  assert (0 < 2 ^ k) by (apply Z.pow_pos_nonneg; lia).
  apply andb_true_iff. split; [|by apply Z.ltb_lt].
  apply Z.eqb_eq. unfold wrap_size_t. rewrite Z.mod_small by lia.
  rewrite Z.sub_1_r, <- Z.ones_equiv, Z.land_ones by lia.
  by apply Z.mod_same, Z.pow_nonzero.
Qed.

Lemma three_is_no_power_of_two : ¬ is_power_of_two 3.
Proof.
  intros (k & Hk & Heq).
  destruct (decide (k = 0)) as [->|]; [simpl in Heq; lia|].
  replace k with (Z.succ (k - 1)) in Heq by lia.
  rewrite Z.pow_succ_r in Heq by lia. lia.
Qed.

Section FillValidation.
Context `{Externals}.

(** X22. What the validation of the two fills rejects.  A buffer fill with a
    non-zero pattern width returns [UR_RESULT_ERROR_INVALID_SIZE], the buffer
    unchanged, when the pattern is null, when the width is not a power of two,
    or when neither the offset nor the size is a multiple of the width; a
    USM fill whose wait list is not a null pointer with a positive count
    returns it when the pattern is null or the width is not a power of two
    (zero included).  This holds for any offset, size, wait list and fuel. *)
Theorem fill_pattern_validation fuel cb hBuffer pPtr pPattern patternSize
    offset size num wl :
  0 ≤ patternSize < 2 ^ 64 →
  (patternSize ≠ 0 →
   pPattern = None ∨ ¬ is_power_of_two patternSize ∨
   (offset mod patternSize ≠ 0 ∧ size mod patternSize ≠ 0) →
   urCommandBufferAppendMemBufferFillExp fuel cb hBuffer pPattern patternSize
     offset size num wl = Returns (fails UR_RESULT_ERROR_INVALID_SIZE cb)) ∧
  (nullWaitListWithEntries num wl = false →
   pPattern = None ∨ ¬ is_power_of_two patternSize →
   urCommandBufferAppendUSMFillExp fuel cb pPtr pPattern patternSize size
     num wl = Returns (fails UR_RESULT_ERROR_INVALID_SIZE cb)).
Proof.
  intros Hrange.
  assert (¬ is_power_of_two patternSize → PatternSizeIsValid patternSize = false)
    as Hinvalid.
  { intros Hno. destruct (PatternSizeIsValid patternSize) eqn:E; [|done].
    destruct Hno. by apply PatternSizeIsValid_power_of_two. }
  split.
  - intros HP Hbad. unfold urCommandBufferAppendMemBufferFillExp.
    destruct (Z.eqb_spec patternSize 0) as [|_]; [done|].
    destruct Hbad as [->|[Hno|[Ho Hs]]].
    + by rewrite bool_decide_false, andb_false_r by (by intros ?).
    + by rewrite (Hinvalid Hno), andb_false_r.
    + apply Z.eqb_neq in Ho, Hs. by rewrite Ho, Hs.
  - intros Hnull Hbad. unfold urCommandBufferAppendUSMFillExp. rewrite Hnull.
    destruct Hbad as [->|Hno].
    + by rewrite bool_decide_false by (by intros ?).
    + by rewrite (Hinvalid Hno), andb_false_r.
Qed.

End FillValidation.

(** X22, instance: a buffer fill with a 3-byte pattern. *)
Lemma fill_pattern_validation_witness :
  urCommandBufferAppendMemBufferFillExp (H := ideal_externals) 0 example_buffer
    16 (Some [1; 2; 3]) 3 0 6 0 None =
  Returns (fails UR_RESULT_ERROR_INVALID_SIZE example_buffer).
Proof.
  destruct (fill_pattern_validation (H := ideal_externals) 0%nat
              example_buffer 16 0 (Some [1; 2; 3]) 3 0 6 0%nat None)
    as [Hbuffer _].
  - split; [discriminate|reflexivity].
  - apply Hbuffer.
    + discriminate.
    + right. left. exact three_is_no_power_of_two.
Defined.

Section FillsThatAreNoMultiples.
Context `{Externals}.

(** A buffer fill with a pattern width of zero: [offset % patternSize] is
    evaluated before the width is tested. *)
Lemma buffer_fill_with_zero_width fuel cb hBuffer pPattern offset size num wl :
  urCommandBufferAppendMemBufferFillExp fuel cb hBuffer pPattern 0 offset size
    num wl = Undefined.
Proof. done. Qed.

(** C5, where the code fails it: a fill whose size is no multiple of the
    pattern width is recorded.  Take a pattern of 2 or 4 bytes, not null, a
    size that is no multiple of the width, an offset that is one, a wait list
    whose entries are registered, and a native library that accepts the
    node.  The buffer fill passes its check, because the check joins the two
    multiple tests with [||]; the USM fill has no such check.  Both return
    [UR_RESULT_SUCCESS] and record one memset node of [size / patternSize]
    elements, which covers less than the [size] bytes asked for, under the
    next sync point. *)
Theorem fill_of_a_size_that_is_no_multiple fuel cb hBuffer pPtr Pattern
    patternSize offset size num wl DepsList :
  patternSize = 2 ∨ patternSize = 4 →
  0 ≤ size → size mod patternSize ≠ 0 →
  offset mod patternSize = 0 →
  wait_list_names cb num wl DepsList →
  (∀ g node, hipGraphAddNode_error g node = None) →
  let node Dst :=
    {| dependencies := DepsList;
       payload :=
         hipGraphNodeTypeMemset
           {| dst := Dst; elementSize := patternSize;
              height := size / patternSize; pitch := patternSize;
              value := if patternSize =? 2 then read_uint16 Pattern
                       else read_uint32 Pattern;
              width := 1 |} |} in
  (∃ cb',
     urCommandBufferAppendMemBufferFillExp fuel cb hBuffer (Some Pattern)
       patternSize offset size num wl =
     Returns (UR_RESULT_SUCCESS, cb', Some (NextSyncPoint cb)) ∧
     HIPGraph cb' =
       HIPGraph cb ++ [node (getPtrWithOffset hBuffer (Device cb) offset)]) ∧
  (∃ cb',
     urCommandBufferAppendUSMFillExp fuel cb pPtr (Some Pattern) patternSize
       size num wl =
     Returns (UR_RESULT_SUCCESS, cb', Some (NextSyncPoint cb)) ∧
     HIPGraph cb' = HIPGraph cb ++ [node pPtr]) ∧
  patternSize * (size / patternSize) < size.
Proof.
  intros HP Hsize Hno Hoffset Hnames Hok node.
  destruct (wait_list_names_resolved _ _ _ _ Hnames) as [Hnull Hres].
  assert (PatternSizeIsValid patternSize = true) as Hvalid
    by (by destruct HP as [->| ->]).
  assert (∀ Dst DstType,
            ∃ cb',
              enqueueCommandBufferFillHelper fuel cb Dst DstType Pattern
                patternSize size num wl =
              Returns (UR_RESULT_SUCCESS, cb', Some (NextSyncPoint cb)) ∧
              HIPGraph cb' = HIPGraph cb ++ [node Dst]) as Hhelper.
  { intros Dst DstType. unfold enqueueCommandBufferFillHelper.
    rewrite (withDependencies_resolved _ _ _ _ _ _ Hres).
    unfold addNodeAndSyncPoint, hipGraphAddNode. unfold node.
    destruct HP as [-> | ->]; simpl; rewrite Hok; simpl; eexists; done. }
  split; [|split].
  - unfold urCommandBufferAppendMemBufferFillExp.
    rewrite (proj2 (Z.eqb_neq patternSize 0)) by (destruct HP; lia).
    rewrite Hoffset, Hvalid, Hnull. simpl. apply Hhelper.
  - unfold urCommandBufferAppendUSMFillExp. rewrite Hnull, Hvalid. simpl.
    apply Hhelper.
  - destruct HP as [-> | ->]; Z.div_mod_to_equations; lia.
Qed.

End FillsThatAreNoMultiples.

(** C5, failing input: a buffer fill and a USM fill of 6 bytes with a 4-byte
    pattern, at offset 0, are recorded as one node of one element, although 6
    is not a multiple of 4. *)
Lemma fill_of_a_size_that_is_no_multiple_witness :
  (∃ cb',
     urCommandBufferAppendMemBufferFillExp (H := ideal_externals) 0
       example_buffer 16 (Some [1; 2; 3; 4]) 4 0 6 0 None =
     Returns (UR_RESULT_SUCCESS, cb', Some 0%N) ∧
     HIPGraph cb' =
       [{| dependencies := [];
           payload :=
             hipGraphNodeTypeMemset
               {| dst := 0; elementSize := 4; height := 1; pitch := 4;
                  value := read_uint32 [1; 2; 3; 4]; width := 1 |} |}]) ∧
  (∃ cb',
     urCommandBufferAppendUSMFillExp (H := ideal_externals) 0 example_buffer
       0 (Some [1; 2; 3; 4]) 4 6 0 None =
     Returns (UR_RESULT_SUCCESS, cb', Some 0%N) ∧
     HIPGraph cb' =
       [{| dependencies := [];
           payload :=
             hipGraphNodeTypeMemset
               {| dst := 0; elementSize := 4; height := 1; pitch := 4;
                  value := read_uint32 [1; 2; 3; 4]; width := 1 |} |}]) ∧
  4 * (6 / 4) < 6.
Proof.
  apply (fill_of_a_size_that_is_no_multiple (H := ideal_externals) 0%nat
           example_buffer 16 0 [1; 2; 3; 4] 4 0 6 0%nat None []).
  - right. reflexivity.
  - discriminate.
  - discriminate.
  - reflexivity.
  - split; [reflexivity|]. intros i Hi. exfalso. revert Hi. apply Nat.nlt_0_r.
  - intros g node. reflexivity.
Defined.

(** ** Fills with a pattern wider than 4 bytes *)

Lemma byte_chain_S DstPtr Pattern PatternSize Size previous Step n :
  byte_chain DstPtr Pattern PatternSize Size previous Step (S n) =
  byte_node DstPtr Pattern PatternSize Size previous Step ::
  byte_chain DstPtr Pattern PatternSize Size (S previous) (Step + 1) n.
Proof.
  unfold byte_chain. simpl. f_equal.
  - f_equal; [f_equal; lia|]. by rewrite Z.add_0_r.
  - rewrite <- fmap_S_seq, <- list_fmap_compose. apply list_fmap_ext.
    intros i x _. simpl. f_equal; [lia|].
    rewrite Nat2Z.inj_succ. lia.
Qed.

Lemma byte_chain_lookup DstPtr Pattern PatternSize Size previous Step n i :
  (i < n)%nat →
  byte_chain DstPtr Pattern PatternSize Size previous Step n !! i =
  Some (byte_node DstPtr Pattern PatternSize Size (previous + i) (Step + Z.of_nat i)).
Proof.
  intros Hi. unfold byte_chain. rewrite list_lookup_fmap.
  by rewrite lookup_seq_lt.
Qed.

Lemma byte_chain_length DstPtr Pattern PatternSize Size previous Step n :
  length (byte_chain DstPtr Pattern PatternSize Size previous Step n) = n.
Proof. unfold byte_chain. by rewrite length_fmap, length_seq. Qed.

(** A size that is a multiple of a power of two above 4 is a multiple of 4:
    the 4-byte node of [Size / 4] elements covers the whole region. *)
Lemma four_byte_elements_cover_region PatternSize Size :
  4 < PatternSize →
  is_power_of_two PatternSize →
  Size mod PatternSize = 0 →
  4 * (Size / 4) = Size.
Proof.
  intros HP (k & Hk & ->) Hmod.
  assert (2 < k) as Hk2.
  { apply (Z.pow_lt_mono_r_iff 2); [lia|lia|]. simpl. lia. }
  assert (2 ^ k = 4 * 2 ^ (k - 2)) as Hsplit.
  { replace k with (2 + (k - 2)) at 1 by lia. by rewrite Z.pow_add_r by lia. }
  apply Z.mod_divide in Hmod as [q ->]; [|lia].
  rewrite Hsplit.
  replace (q * (4 * 2 ^ (k - 2))) with (q * 2 ^ (k - 2) * 4) by ring.
  rewrite Z.div_mul by lia. ring.
Qed.

Section FillChain.
Context `{Externals}.

Lemma NodeParamsStep_byte_node DstPtr Pattern NumberOfSteps Size previous Step :
  {| dependencies := [previous];
     payload := hipGraphNodeTypeMemset
                  (NodeParamsStep DstPtr Pattern NumberOfSteps Size Step) |} =
  byte_node DstPtr Pattern NumberOfSteps Size previous Step.
Proof.
  unfold byte_node, NodeParamsStep. by rewrite !Z.mul_1_r.
Qed.

Lemma fillSteps_step fuel Step NumberOfSteps DstPtr Pattern Size DepsList cb
    SyncPoint :
  Step < NumberOfSteps →
  hipGraphAddNode_error (HIPGraph cb)
    {| dependencies := DepsList;
       payload := hipGraphNodeTypeMemset
                    (NodeParamsStep DstPtr Pattern NumberOfSteps Size Step) |} =
    None →
  fillSteps (S fuel) Step NumberOfSteps DstPtr Pattern Size DepsList cb SyncPoint =
  let '(NewSyncPoint, cb') :=
    addSyncPoint (length (HIPGraph cb))
      (set_graph
         (HIPGraph cb ++
          [{| dependencies := DepsList;
              payload := hipGraphNodeTypeMemset
                           (NodeParamsStep DstPtr Pattern NumberOfSteps Size Step) |}])
         cb) in
  fillSteps fuel (wrap_uint32 (Step + 1)) NumberOfSteps DstPtr Pattern Size
    [length (HIPGraph cb)] cb' (Some NewSyncPoint).
Proof.
  intros Hlt Hok. simpl. destruct (Z.ltb_spec Step NumberOfSteps); [|lia].
  unfold hipGraphAddNode. by rewrite Hok.
Qed.

Lemma fillSteps_done fuel Step NumberOfSteps DstPtr Pattern Size DepsList cb
    SyncPoint :
  NumberOfSteps ≤ Step →
  fillSteps fuel Step NumberOfSteps DstPtr Pattern Size DepsList cb SyncPoint =
  Returns (UR_RESULT_SUCCESS, cb, SyncPoint).
Proof.
  intros Hge. destruct fuel; simpl;
    by destruct (Z.ltb_spec Step NumberOfSteps); [lia|].
Qed.

(** The loop, with enough fuel and a library that accepts every node: [n]
    iterations append the chain for the bytes from [Step] on, register each
    node under the next sync point, and leave the last of them in
    [*SyncPoint]. *)
Lemma fillSteps_chain (n : nat) :
  ∀ fuel Step NumberOfSteps DstPtr Pattern Size previous cb SyncPoint,
    (∀ g node, hipGraphAddNode_error g node = None) →
    0 ≤ Step →
    NumberOfSteps = Step + Z.of_nat n →
    NumberOfSteps < 2 ^ 32 →
    length (HIPGraph cb) = S previous →
    (NextSyncPoint cb < 2 ^ 32)%N →
    (n ≤ fuel)%nat →
    ∃ cb',
      fillSteps fuel Step NumberOfSteps DstPtr Pattern Size [previous] cb
        SyncPoint =
      Returns (UR_RESULT_SUCCESS, cb',
               if decide (n = 0%nat) then SyncPoint
               else Some ((NextSyncPoint cb + N.of_nat n - 1) mod 2 ^ 32)%N) ∧
      HIPGraph cb' =
        HIPGraph cb ++ byte_chain DstPtr Pattern NumberOfSteps Size previous Step n ∧
      NextSyncPoint cb' = ((NextSyncPoint cb + N.of_nat n) mod 2 ^ 32)%N ∧
      (n ≠ 0%nat →
       SyncPoints cb' !! ((NextSyncPoint cb + N.of_nat n - 1) mod 2 ^ 32)%N =
       Some (previous + n)%nat).
Proof.
  induction n as [|n IH];
    intros fuel Step NumberOfSteps DstPtr Pattern Size previous cb SyncPoint
      Hok HStep HSteps Hsmall Hlen Hnext Hfuel.
  - exists cb. rewrite fillSteps_done by lia.
    split; [done|]. rewrite app_nil_r.
    split; [done|]. split; [sync_point_arith|done].
  - destruct fuel as [|fuel]; [lia|].
    rewrite fillSteps_step by (done || lia).
    rewrite addSyncPoint_eq.
    unfold wrap_uint32. rewrite Z.mod_small by lia.
    match goal with |- context [fillSteps fuel _ _ _ _ _ _ ?c _] =>
      set (cb1 := c)
    end.
    assert (HIPGraph cb1 =
            HIPGraph cb ++ [byte_node DstPtr Pattern NumberOfSteps Size previous Step])
      as Hg1 by (unfold cb1; simpl; by rewrite NodeParamsStep_byte_node).
    assert (NextSyncPoint cb1 = ((NextSyncPoint cb + 1) mod 2 ^ 32)%N) as Hnext1
      by done.
    assert (SyncPoints cb1 !! NextSyncPoint cb = Some (S previous)) as Hsp1
      by (unfold cb1; simpl; by rewrite lookup_insert_eq, Hlen).
    clearbody cb1.
    destruct (IH fuel (Step + 1) NumberOfSteps DstPtr Pattern Size
                (length (HIPGraph cb)) cb1 (Some (NextSyncPoint cb)))
      as (cb' & Hrun & Hg' & Hnext' & Hsp');
      [done|lia|lia|done|rewrite Hg1, length_app; simpl; lia|
       rewrite Hnext1; sync_point_arith|lia|].
    exists cb'. rewrite Hrun. split.
    { do 3 f_equal. destruct (decide (n = 0%nat)) as [->|]; simpl.
      - f_equal. sync_point_arith.
      - f_equal. rewrite Hnext1. sync_point_arith. }
    split.
    { rewrite Hg', Hg1, byte_chain_S, <- app_assoc. simpl. by rewrite Hlen. }
    split; [rewrite Hnext', Hnext1; sync_point_arith|].
    intros _. destruct (decide (n = 0%nat)) as [->|Hn].
    + rewrite fillSteps_done in Hrun by lia. injection Hrun as <-.
      replace ((NextSyncPoint cb + N.of_nat 1 - 1) mod 2 ^ 32)%N
        with (NextSyncPoint cb) by sync_point_arith.
      rewrite Hsp1. f_equal. lia.
    + replace ((NextSyncPoint cb + N.of_nat (S n) - 1) mod 2 ^ 32)%N
        with ((NextSyncPoint cb1 + N.of_nat n - 1) mod 2 ^ 32)%N
        by (rewrite Hnext1; sync_point_arith).
      rewrite Hsp' by done. f_equal. lia.
Qed.

(** X21. The chain of a wide fill.  For a pattern wider than 4 bytes and
    narrower than [2 ^ 32], a wait list whose entries are registered, a
    native library that accepts every node and enough fuel, the fill helper
    returns [UR_RESULT_SUCCESS] after appending exactly one 4-byte memset
    node over the region, which depends on the nodes of the wait list,
    followed by one 1-byte memset node for each of the pattern bytes 4 to
    [PatternSize - 1]; each of these depends on the node appended just
    before it and on nothing else; the sync point stored through the
    out-pointer is the one issued last, [PatternSize - 4] steps of the
    32-bit counter after the buffer's next one, and it is registered to the
    last node of the chain.  When the width is a power of two and the size a
    multiple of it, the [Size / 4] elements of the 4-byte node make up the
    whole region. *)
Theorem wide_pattern_fill_chain fuel cb DstDevice DstType Pattern PatternSize
    Size num wl DepsList :
  (∀ g node, hipGraphAddNode_error g node = None) →
  4 < PatternSize < 2 ^ 32 →
  wait_list_names cb num wl DepsList →
  (Z.to_nat (PatternSize - 4) ≤ fuel)%nat →
  let first := length (HIPGraph cb) in
  let steps := Z.to_nat (PatternSize - 4) in
  let last := ((NextSyncPoint cb + N.of_nat steps) mod 2 ^ 32)%N in
  ∃ cb',
    enqueueCommandBufferFillHelper fuel cb DstDevice DstType Pattern
      PatternSize Size num wl = Returns (UR_RESULT_SUCCESS, cb', Some last) ∧
    HIPGraph cb' =
      HIPGraph cb ++
      {| dependencies := DepsList;
         payload :=
           hipGraphNodeTypeMemset
             {| dst := DstDevice; elementSize := 4; height := Size / 4;
                pitch := 4; value := read_uint32 Pattern; width := 1 |} |} ::
      byte_chain DstDevice Pattern PatternSize Size first 4 steps ∧
    length (HIPGraph cb') = (first + 1 + steps)%nat ∧
    (∀ i, (i < steps)%nat →
          HIPGraph cb' !! (first + 1 + i)%nat =
          Some (byte_node DstDevice Pattern PatternSize Size (first + i)
                  (4 + Z.of_nat i))) ∧
    SyncPoints cb' !! last = Some (first + steps)%nat ∧
    (is_power_of_two PatternSize → Size mod PatternSize = 0 →
     4 * (Size / 4) = Size).
Proof.
  intros Hok HP Hnames Hfuel first steps last.
  destruct (wait_list_names_resolved _ _ _ _ Hnames) as [_ Hres].
  unfold enqueueCommandBufferFillHelper.
  rewrite (withDependencies_resolved _ _ _ _ _ _ Hres).
  destruct (Z.eqb_spec PatternSize 0); [lia|].
  destruct (Z.eqb_spec PatternSize 1); [lia|].
  destruct (Z.eqb_spec PatternSize 2); [lia|].
  destruct (Z.eqb_spec PatternSize 4); [lia|]. cbn [orb].
  unfold hipGraphAddNode. rewrite Hok.
  rewrite addSyncPoint_eq, Z.div_1_r.
  match goal with |- context [fillSteps fuel _ _ _ _ _ _ ?c _] =>
    set (cb1 := c)
  end.
  assert (NextSyncPoint cb1 = ((NextSyncPoint cb + 1) mod 2 ^ 32)%N) as Hnext1
    by done.
  assert (HIPGraph cb1 =
          HIPGraph cb ++
          [{| dependencies := DepsList;
              payload :=
                hipGraphNodeTypeMemset
                  {| dst := DstDevice; elementSize := 4; height := Size / 4;
                     pitch := 4; value := read_uint32 Pattern; width := 1 |} |}])
    as Hg1 by done.
  clearbody cb1.
  destruct (fillSteps_chain steps fuel 4 PatternSize DstDevice Pattern Size
              (length (HIPGraph cb)) cb1 (Some (NextSyncPoint cb)))
    as (cb' & Hrun & Hg' & Hnext' & Hsp');
    [done|lia|unfold steps; lia|lia|
     rewrite Hg1, length_app; simpl; lia|
     rewrite Hnext1; sync_point_arith|done|].
  assert (steps ≠ 0%nat) as Hsteps by (unfold steps; lia).
  assert (((NextSyncPoint cb1 + N.of_nat steps - 1) mod 2 ^ 32)%N = last)
    as Hlast by (unfold last; rewrite Hnext1; sync_point_arith).
  exists cb'. rewrite Hrun. split.
  { destruct (decide (steps = 0%nat)); [done|]. by rewrite Hlast. }
  assert (HIPGraph cb' =
          HIPGraph cb ++
          {| dependencies := DepsList;
             payload :=
               hipGraphNodeTypeMemset
                 {| dst := DstDevice; elementSize := 4; height := Size / 4;
                    pitch := 4; value := read_uint32 Pattern; width := 1 |} |} ::
          byte_chain DstDevice Pattern PatternSize Size first 4 steps) as Hgraph.
  { rewrite Hg', Hg1. by rewrite <- app_assoc. }
  split; [done|]. split.
  { rewrite Hgraph, length_app. simpl. rewrite byte_chain_length.
    unfold first. lia. }
  split.
  { intros i Hi. rewrite Hgraph.
    rewrite lookup_app_r by (unfold first; lia).
    replace (first + 1 + i - length (HIPGraph cb))%nat with (S i)
      by (unfold first; lia).
    simpl. by apply byte_chain_lookup. }
  split.
  - rewrite <- Hlast, Hsp' by done. done.
  - apply four_byte_elements_cover_region. lia.
Qed.

(** With a pattern of 2^32 bytes or more the 32-bit counter never reaches
    [NumberOfSteps]: however much fuel there is, the loop uses it up. *)
Lemma fillSteps_never_ends fuel :
  ∀ Step NumberOfSteps DstPtr Pattern Size DepsList cb SyncPoint,
    (∀ g node, hipGraphAddNode_error g node = None) →
    0 ≤ Step < 2 ^ 32 →
    2 ^ 32 ≤ NumberOfSteps →
    fillSteps fuel Step NumberOfSteps DstPtr Pattern Size DepsList cb SyncPoint =
    OutOfFuel.
Proof.
  induction fuel as [|fuel IH];
    intros Step NumberOfSteps DstPtr Pattern Size DepsList cb SyncPoint
      Hok HStep HSteps.
  - simpl. by destruct (Z.ltb_spec Step NumberOfSteps); [|lia].
  - rewrite fillSteps_step by (done || lia).
    destruct (addSyncPoint _ _) as [sp cb1].
    apply IH; [done| |done].
    unfold wrap_uint32. apply Z.mod_pos_bound. lia.
Qed.

(** C4, where the code fails it: with a pattern of [2 ^ 32] bytes or more
    (a power of two and a size that is a multiple of it included), a wait
    list that resolves and a native library that accepts every node, the
    fill helper never returns: the 32-bit counter [Step] wraps to 0 before it
    reaches [NumberOfSteps], so no chain is completed and no final sync
    point is handed back, however much fuel there is. *)
Theorem fill_with_wide_pattern_never_returns fuel cb DstDevice DstType
    Pattern PatternSize Size num wl DepsList :
  (∀ g node, hipGraphAddNode_error g node = None) →
  resolved (SyncPoints cb) (waitListEntries num wl) = Some DepsList →
  2 ^ 32 ≤ PatternSize →
  enqueueCommandBufferFillHelper fuel cb DstDevice DstType Pattern PatternSize
    Size num wl = OutOfFuel.
Proof.
  intros Hok Hres HP. unfold enqueueCommandBufferFillHelper.
  rewrite (withDependencies_resolved _ _ _ _ _ _ Hres).
  destruct (Z.eqb_spec PatternSize 0); [lia|].
  destruct (Z.eqb_spec PatternSize 1); [lia|].
  destruct (Z.eqb_spec PatternSize 2); [lia|].
  destruct (Z.eqb_spec PatternSize 4); [lia|]. cbn [orb].
  unfold hipGraphAddNode. rewrite Hok.
  destruct (addSyncPoint _ _) as [sp cb1].
  rewrite Z.div_1_r. apply fillSteps_never_ends; [done|lia|done].
Qed.

End FillChain.

(** X21, instance: an 8-byte pattern over 16 bytes, recorded into the example
    buffer with fuel for four steps. *)
Lemma wide_pattern_fill_chain_witness :
  ∃ cb',
    enqueueCommandBufferFillHelper (H := ideal_externals) 4 example_buffer 0
      hipMemoryTypeUnified [1; 2; 3; 4; 5; 6; 7; 8] 8 16 0 None =
    Returns (UR_RESULT_SUCCESS, cb', Some 4%N) ∧
    length (HIPGraph cb') = 5%nat ∧
    SyncPoints cb' !! 4%N = Some 4%nat.
Proof.
  destruct (wide_pattern_fill_chain (H := ideal_externals) 4%nat example_buffer
              0 hipMemoryTypeUnified [1; 2; 3; 4; 5; 6; 7; 8] 8 16 0%nat None [])
    as (cb' & Hrun & _ & Hlen & _ & Hlast & _).
  - intros g node. reflexivity.
  - split; reflexivity.
  - split; [reflexivity|]. intros i Hi. exfalso. revert Hi. apply Nat.nlt_0_r.
  - apply le_n.
  - exists cb'. split; [exact Hrun|]. split; [exact Hlen|exact Hlast].
Defined.

(** C4, failing input: a pattern of [2 ^ 32] bytes, a power of two, over a
    region of [2 ^ 32] bytes, on the example buffer with an empty wait list
    and a native library that accepts every node: whatever the fuel, the
    helper does not return. *)
Lemma fill_with_wide_pattern_never_returns_witness :
  4 < 4294967296 ∧
  is_power_of_two 4294967296 ∧
  4294967296 mod 4294967296 = 0 ∧
  ∀ fuel,
    enqueueCommandBufferFillHelper (H := ideal_externals) fuel example_buffer 0
      hipMemoryTypeUnified (replicate (Z.to_nat 4294967296) 0) 4294967296
      4294967296 0 None = OutOfFuel.
Proof.
  split; [reflexivity|]. split; [exists 32; split; [discriminate|reflexivity]|].
  split; [reflexivity|].
  intros fuel.
  apply (fill_with_wide_pattern_never_returns (H := ideal_externals) fuel
           example_buffer 0 hipMemoryTypeUnified
           (replicate (Z.to_nat 4294967296) 0) 4294967296 4294967296 0%nat None []).
  - intros g node. reflexivity.
  - reflexivity.
  - discriminate.
Defined.

(** ** Kernel launches of size zero *)

Section ZeroSizedLaunch.
Context `{Externals}.

Lemma withDependencies_cases {A : Type} cb num wl (failed : ur_result_t → A) k :
  withDependencies cb num wl failed k = failed UR_RESULT_ERROR_INVALID_VALUE ∨
  ∃ DepsList, resolved (SyncPoints cb) (waitListEntries num wl) = Some DepsList ∧
              withDependencies cb num wl failed k = k DepsList.
Proof.
  destruct (resolved_or_unknown (SyncPoints cb) (waitListEntries num wl))
    as [[DepsList Hres]|Hunk].
  - right. exists DepsList. split; [done|]. by apply withDependencies_resolved.
  - left. by apply withDependencies_unknown.
Qed.

(** When the first entry of the global size is zero, the wait list is
    consistent and resolves, and the native library accepts the node, the
    launch records one empty node with the resolved dependencies under the
    next sync point, and creates no command handle. *)
Lemma kernel_launch_zero_first_dimension h hKernel workDim pGlobalWorkOffset
    rest pLocalWorkSize num wl phCommand st cb k DepsList :
  buffers st !! h = Some cb →
  kernels st !! hKernel = Some k →
  Context cb = getContext k →
  (1 ≤ workDim ≤ 3)%nat →
  nullWaitListWithEntries num wl = false →
  resolved (SyncPoints cb) (waitListEntries num wl) = Some DepsList →
  registry_wf cb →
  hipGraphAddNode_error (HIPGraph cb)
    {| dependencies := DepsList; payload := hipGraphNodeTypeEmpty |} = None →
  ∃ cb',
    urCommandBufferAppendKernelLaunchExp h hKernel workDim pGlobalWorkOffset
      (0 :: rest) pLocalWorkSize num wl true phCommand st =
    Returns (UR_RESULT_SUCCESS,
             set_buffers (<[h := cb']> (buffers st)) st,
             Some (NextSyncPoint cb), None) ∧
    records_one_node cb cb'
      {| dependencies := DepsList; payload := hipGraphNodeTypeEmpty |}
      (NextSyncPoint cb).
Proof.
  intros Hh Hk Hctx Hdim Hnull Hres Hwf Hok.
  unfold urCommandBufferAppendKernelLaunchExp. rewrite Hh, Hk. simpl.
  rewrite Hnull, (withDependencies_resolved _ _ _ _ _ _ Hres).
  rewrite !bool_decide_true by (done || lia). simpl.
  unfold hipGraphAddNode. rewrite Hok.
  eexists. split; [reflexivity|].
  exact (proj1 (proj2 (addSyncPoint_records cb _ _ _ Hwf eq_refl))).
Qed.

(** C3, at the inputs where it fails: when the first entry of the global size
    is not zero, whatever the other entries are, a launch that returns never
    records an empty node.  The graph is the one before the call or has one
    more node, a kernel node; and when the launch succeeds it has created a
    command handle and added it to the buffer's list. *)
Theorem kernel_launch_zero_in_later_dimension h hKernel workDim
    pGlobalWorkOffset GlobalWorkSize0 rest pLocalWorkSize num wl pSyncPoint
    phCommand st cb k r st' SyncPoint Command :
  buffers st !! h = Some cb →
  kernels st !! hKernel = Some k →
  GlobalWorkSize0 ≠ 0 →
  urCommandBufferAppendKernelLaunchExp h hKernel workDim pGlobalWorkOffset
    (GlobalWorkSize0 :: rest) pLocalWorkSize num wl pSyncPoint phCommand st =
  Returns (r, st', SyncPoint, Command) →
  ∃ cb', buffers st' !! h = Some cb' ∧
    (HIPGraph cb' = HIPGraph cb ∨
     ∃ DepsList NodeParams,
       HIPGraph cb' =
       HIPGraph cb ++ [{| dependencies := DepsList;
                          payload := hipGraphNodeTypeKernel NodeParams |}]) ∧
    (r = UR_RESULT_SUCCESS →
     ∃ NewCommand,
       commands st !! NewCommand = None ∧
       is_Some (commands st' !! NewCommand) ∧
       CommandHandles cb' = CommandHandles cb ++ [NewCommand]).
Proof.
  intros Hh Hk Hnz. unfold urCommandBufferAppendKernelLaunchExp.
  rewrite Hh, Hk. simpl.
  repeat (case_bool_decide; simpl;
          [|intros [= <- <- <- <-]; exists cb; split; [done|]; split; [by left|done]]).
  destruct (nullWaitListWithEntries num wl);
    [intros [= <- <- <- <-]; exists cb; split; [done|]; split; [by left|done]|].
  match goal with |- context [withDependencies cb num wl ?f ?k] =>
    destruct (withDependencies_cases cb num wl f k) as [->|(DepsList & _ & ->)]
  end; [intros [= <- <- <- <-]; exists cb; split; [done|]; split; [by left|done]|].
  simpl. destruct (Z.eqb_spec GlobalWorkSize0 0); [done|].
  match goal with |- context [setKernelParams ?a1 ?a2 ?a3 ?a4 ?a5 ?a6 ?a7 ?a8 ?a9] =>
    destruct (setKernelParams a1 a2 a3 a4 a5 a6 a7 a8 a9) as [[[Result k1] T] B]
  end.
  case_bool_decide;
    [intros [= <- <- <- <-]; exists cb; split; [done|]; split; [by left|done]|].
  unfold hipGraphAddNode.
  match goal with |- context [hipGraphAddNode_error ?g ?n] =>
    pose proof (hipGraphAddNode_throws_error g n) as Hthrow;
    destruct (hipGraphAddNode_error g n) as [Err|]
  end.
  { intros [= <- <- <- <-]. exists cb. split; [done|]. split; [by left|].
    intros ->. done. }
  destruct pSyncPoint; intros [= <- <- <- <-]; simpl; rewrite lookup_insert_eq;
    (eexists; split; [done|]; simpl; split; [right; by eexists _, _|]);
    intros _; exists (fresh (dom (commands st)));
    (split; [apply not_elem_of_dom, is_fresh|]);
    (split; [rewrite lookup_insert_eq; eauto|done]).
Qed.

End ZeroSizedLaunch.

(** C3, failing input: a two-dimensional launch of global size 4 x 0 into the
    example heap records a kernel node and creates the command handle 0. *)
Lemma kernel_launch_zero_in_later_dimension_witness :
  ∃ st' cb' NodeParams,
    urCommandBufferAppendKernelLaunchExp (H := ideal_externals) 0 0 2
      [0; 0] [4; 0] None 0 None true true example_heap =
    Returns (UR_RESULT_SUCCESS, st', Some 0%N, Some 0%nat) ∧
    buffers st' !! 0%nat = Some cb' ∧
    HIPGraph cb' =
      [{| dependencies := []; payload := hipGraphNodeTypeKernel NodeParams |}] ∧
    CommandHandles cb' = [0%nat].
Proof.
  destruct (urCommandBufferAppendKernelLaunchExp (H := ideal_externals) 0 0 2
              [0; 0] [4; 0] None 0 None true true example_heap)
    as [[[[r st'] sp] c]| |] eqn:Hrun; try discriminate Hrun.
  destruct (kernel_launch_zero_in_later_dimension (H := ideal_externals)
              0%nat 0%nat 2%nat [0; 0] 4 [0] None 0%nat None true true
              example_heap example_buffer 1%nat r st' sp c
              eq_refl eq_refl ltac:(discriminate) Hrun)
    as (cb' & Hcb' & _ & _).
  vm_compute in Hrun. injection Hrun as <- <- <- <-.
  vm_compute in Hcb'. injection Hcb' as <-.
  eexists _, _, _. repeat split; reflexivity.
Defined.

(** ** Reference counting *)

Section ReferenceCounting.
Context `{Externals}.

Lemma set_ref_counts_twice i e i' e' cb :
  set_ref_counts i e (set_ref_counts i' e' cb) = set_ref_counts i e cb.
Proof. done. Qed.

Lemma set_ref_counts_same cb :
  set_ref_counts (RefCountInternal cb) (RefCountExternal cb) cb = cb.
Proof. by destruct cb. Qed.

Lemma commandBufferReleaseInternal_spec h st cb :
  buffers st !! h = Some cb →
  commandBufferReleaseInternal h st =
  Returns (UR_RESULT_SUCCESS,
           set_buffers
             (if decide (RefCountInternal cb - 1 = 0) then delete h (buffers st)
              else <[h := set_ref_counts (RefCountInternal cb - 1)
                            (RefCountExternal cb) cb]> (buffers st))
             st).
Proof.
  intros Hh. unfold commandBufferReleaseInternal. rewrite Hh. simpl.
  case_bool_decide; case_decide; done.
Qed.

Lemma commandHandleReleaseInternal_survives c st cmd :
  commands st !! c = Some cmd →
  Command.RefCountInternal cmd - 1 ≠ 0 →
  commandHandleReleaseInternal c st =
  Returns (UR_RESULT_SUCCESS,
           set_commands
             (<[c := set_command_ref_counts (Command.RefCountInternal cmd - 1)
                       (Command.RefCountExternal cmd) cmd]> (commands st)) st).
Proof.
  intros Hc Hne. unfold commandHandleReleaseInternal. rewrite Hc. simpl.
  by rewrite bool_decide_true.
Qed.

Lemma commandHandleReleaseInternal_destroys c st cmd cb :
  commands st !! c = Some cmd →
  Command.RefCountInternal cmd - 1 = 0 →
  buffers st !! Command.CommandBuffer cmd = Some cb →
  commandHandleReleaseInternal c st =
  Returns (UR_RESULT_SUCCESS,
           {| buffers :=
                if decide (RefCountInternal cb - 1 = 0)
                then delete (Command.CommandBuffer cmd) (buffers st)
                else <[Command.CommandBuffer cmd :=
                         set_ref_counts (RefCountInternal cb - 1)
                           (RefCountExternal cb) cb]> (buffers st);
              commands := delete c (commands st);
              kernels := kernels st |}).
Proof.
  intros Hc Hzero Hcb. unfold commandHandleReleaseInternal. rewrite Hc. simpl.
  rewrite bool_decide_false by (intros ?; done).
  rewrite (commandBufferReleaseInternal_spec _ _ cb) by done. simpl.
  unfold set_commands, set_buffers. simpl. by rewrite delete_insert_eq.
Qed.

(** The loop over the handles a buffer owns: each handle loses one internal
    count and is destroyed when none is left; every destroyed handle gives
    back its unit of the buffer's internal count.  The buffer outlives the
    loop because its count exceeds the number of handles. *)
Lemma releaseCommandHandles_spec h l :
  ∀ st cb,
    NoDup l →
    (∀ c, c ∈ l →
          ∃ cmd, commands st !! c = Some cmd ∧ Command.CommandBuffer cmd = h) →
    buffers st !! h = Some cb →
    Z.of_nat (length l) < RefCountInternal cb →
    ∃ st',
      releaseCommandHandles l st = Returns st' ∧
      (∀ c, c ∈ l → commands st' !! c = commands st !! c ≫= drop_internal) ∧
      (∀ c, c ∉ l → commands st' !! c = commands st !! c) ∧
      kernels st' = kernels st ∧
      buffers st' =
        <[h := set_ref_counts
                 (RefCountInternal cb - Z.of_nat (length l) +
                  Z.of_nat (length (live_commands st' l)))
                 (RefCountExternal cb) cb]> (buffers st).
Proof.
  induction l as [|c rest IH]; intros st cb Hnodup Hlive Hh Hcount.
  - exists st. split; [done|]. split; [by intros c Hc; apply elem_of_nil in Hc|].
    split; [done|]. split; [done|]. simpl.
    rewrite Z.sub_0_r, Z.add_0_r.
    by rewrite set_ref_counts_same, insert_id.
  - apply NoDup_cons in Hnodup as [Hnotin Hnodup].
    destruct (Hlive c) as (cmd & Hc & Hparent); [by left|].
    simpl in Hcount.
    destruct (decide (Command.RefCountInternal cmd - 1 = 0)) as [Hzero|Hleft].
    + (* the handle is destroyed *)
      simpl. rewrite <- Hparent in Hh.
      rewrite (commandHandleReleaseInternal_destroys c st cmd cb) by done.
      rewrite decide_False by lia. simpl. rewrite Hparent in *.
      set (cb1 := set_ref_counts (RefCountInternal cb - 1) (RefCountExternal cb) cb).
      set (st1 := {| buffers := <[h := cb1]> (buffers st);
                     commands := delete c (commands st);
                     kernels := kernels st |}).
      destruct (IH st1 cb1) as (st' & Hrun & Hin & Hout & Hk & Hb); [done| | |simpl; lia|].
      { intros c' Hc'. destruct (Hlive c') as (cmd' & Hcmd' & Hp'); [by right|].
        exists cmd'. split; [|done]. simpl.
        rewrite lookup_delete_ne; [done|]. by intros ->. }
      { simpl. by rewrite lookup_insert_eq. }
      exists st'. split; [done|].
      assert (commands st' !! c = None) as Hgone.
      { rewrite Hout by done. simpl. by rewrite lookup_delete_eq. }
      split.
      { intros c' Hc'. apply elem_of_cons in Hc' as [->|Hc'].
        - rewrite Hgone, Hc. simpl. unfold drop_internal.
          by rewrite bool_decide_false by (intros ?; done).
        - rewrite Hin by done. simpl. rewrite lookup_delete_ne; [done|].
          by intros ->. }
      split.
      { intros c' Hc'. apply not_elem_of_cons in Hc' as [Hne Hc'].
        rewrite Hout by done. simpl. by rewrite lookup_delete_ne. }
      split; [done|].
      rewrite Hb. simpl. rewrite insert_insert_eq.
      unfold live_commands. rewrite filter_cons_False
        by (rewrite Hgone; by intros [? ?]).
      f_equal. unfold cb1. rewrite set_ref_counts_twice. simpl.
      f_equal. lia.
    + (* the handle survives *)
      simpl. rewrite (commandHandleReleaseInternal_survives c st cmd) by done.
      simpl.
      set (cmd1 := set_command_ref_counts (Command.RefCountInternal cmd - 1)
                     (Command.RefCountExternal cmd) cmd).
      set (st1 := set_commands (<[c := cmd1]> (commands st)) st).
      destruct (IH st1 cb) as (st' & Hrun & Hin & Hout & Hk & Hb); [done| |done|lia|].
      { intros c' Hc'. destruct (Hlive c') as (cmd' & Hcmd' & Hp'); [by right|].
        exists cmd'. split; [|done]. simpl.
        rewrite lookup_insert_ne; [done|]. by intros ->. }
      exists st'. split; [done|].
      assert (commands st' !! c = Some cmd1) as Hkept.
      { rewrite Hout by done. simpl. by rewrite lookup_insert_eq. }
      split.
      { intros c' Hc'. apply elem_of_cons in Hc' as [->|Hc'].
        - rewrite Hkept, Hc. simpl. unfold drop_internal.
          by rewrite bool_decide_true.
        - rewrite Hin by done. simpl. rewrite lookup_insert_ne; [done|].
          by intros ->. }
      split.
      { intros c' Hc'. apply not_elem_of_cons in Hc' as [Hne Hc'].
        rewrite Hout by done. simpl. by rewrite lookup_insert_ne. }
      split; [done|].
      rewrite Hb. simpl.
      unfold live_commands. rewrite filter_cons_True by (rewrite Hkept; eauto).
      f_equal. simpl. f_equal. lia.
Qed.

Lemma live_commands_set_buffers m (st : Heap) l :
  live_commands (set_buffers m st) l = live_commands st l.
Proof. done. Qed.

(** C2: the life cycle of a command buffer.
    - Creation: the new buffer has external and internal count 1.
    - Retain adds one to both counts and changes nothing else.
    - Release, when the external count does not reach zero: the external and
      the internal count each lose one, no command handle is touched, and the
      buffer is destroyed exactly when its internal count reaches zero.
    - Release, when the external count reaches zero, of a buffer that owns
      its command handles: every owned handle loses one internal count and
      is destroyed when none is left, no other handle is touched, and then
      the buffer's own internal release runs: the buffer is destroyed exactly
      when no owned handle is left alive; otherwise it stays, with external
      count 0 and one internal count per handle still alive.
    - Release of a command handle: the handle loses one external and one
      internal count; when its internal count reaches zero it is destroyed
      and gives back its unit of the owning buffer's internal count, and the
      buffer is destroyed exactly when that count reaches zero. *)
Theorem command_buffer_life_cycle :
  (∀ hContext hDevice pCommandBufferDesc st,
     new_command_buffer_ok = true →
     ∃ r st' h cb,
       urCommandBufferCreateExp hContext hDevice pCommandBufferDesc st =
         (r, st', Some h) ∧
       buffers st !! h = None ∧ buffers st' !! h = Some cb ∧
       RefCountExternal cb = 1 ∧ RefCountInternal cb = 1 ∧
       CommandHandles cb = []) ∧
  (∀ h st cb,
     buffers st !! h = Some cb →
     urCommandBufferRetainExp h st =
     Returns (UR_RESULT_SUCCESS,
              set_buffers
                (<[h := set_ref_counts (RefCountInternal cb + 1)
                          (RefCountExternal cb + 1) cb]> (buffers st)) st)) ∧
  (∀ h st cb,
     buffers st !! h = Some cb →
     RefCountExternal cb - 1 ≠ 0 →
     urCommandBufferReleaseExp h st =
     Returns (UR_RESULT_SUCCESS,
              set_buffers
                (if decide (RefCountInternal cb - 1 = 0)
                 then delete h (buffers st)
                 else <[h := set_ref_counts (RefCountInternal cb - 1)
                               (RefCountExternal cb - 1) cb]> (buffers st))
                st)) ∧
  (∀ h st cb,
     buffers st !! h = Some cb →
     RefCountExternal cb - 1 = 0 →
     owns_its_commands st h cb →
     ∃ st',
       urCommandBufferReleaseExp h st = Returns (UR_RESULT_SUCCESS, st') ∧
       (∀ c, c ∈ CommandHandles cb →
             commands st' !! c = commands st !! c ≫= drop_internal) ∧
       (∀ c, c ∉ CommandHandles cb → commands st' !! c = commands st !! c) ∧
       kernels st' = kernels st ∧
       (∀ h', h' ≠ h → buffers st' !! h' = buffers st !! h') ∧
       buffers st' !! h =
         if decide (live_commands st' (CommandHandles cb) = []) then None
         else Some (set_ref_counts
                      (Z.of_nat (length (live_commands st' (CommandHandles cb))))
                      0 cb)) ∧
  (∀ c st cmd cb,
     commands st !! c = Some cmd →
     buffers st !! Command.CommandBuffer cmd = Some cb →
     urCommandBufferReleaseCommandExp c st =
     Returns (UR_RESULT_SUCCESS,
              if decide (Command.RefCountInternal cmd - 1 = 0)
              then {| buffers :=
                        if decide (RefCountInternal cb - 1 = 0)
                        then delete (Command.CommandBuffer cmd) (buffers st)
                        else <[Command.CommandBuffer cmd :=
                                 set_ref_counts (RefCountInternal cb - 1)
                                   (RefCountExternal cb) cb]> (buffers st);
                      commands := delete c (commands st);
                      kernels := kernels st |}
              else set_commands
                     (<[c := set_command_ref_counts
                               (Command.RefCountInternal cmd - 1)
                               (Command.RefCountExternal cmd - 1) cmd]>
                        (commands st)) st)).
Proof.
  split; [|split; [|split; [|split]]].
  - intros hContext hDevice pDesc st Hnew.
    unfold urCommandBufferCreateExp. rewrite Hnew. simpl.
    destruct (negb hipGraphCreate_ok);
      (eexists _, _, _, _; split; [done|]; split;
       [apply not_elem_of_dom, is_fresh|]; simpl;
       by rewrite lookup_insert_eq).
  - intros h st cb Hh. unfold urCommandBufferRetainExp. by rewrite Hh.
  - intros h st cb Hh Hext. unfold urCommandBufferReleaseExp. rewrite Hh. simpl.
    rewrite bool_decide_false by done. simpl.
    rewrite (commandBufferReleaseInternal_spec _ _
               (decrementExternalReferenceCount cb))
      by (simpl; by rewrite lookup_insert_eq).
    simpl. do 2 f_equal. unfold set_buffers. simpl. f_equal.
    case_decide; [by rewrite delete_insert_eq|by rewrite insert_insert_eq].
  - intros h st cb Hh Hext (Hnodup & Hlive & Hcount).
    unfold urCommandBufferReleaseExp. rewrite Hh. simpl.
    rewrite bool_decide_true by done.
    set (cb0 := decrementExternalReferenceCount cb).
    set (st0 := set_buffers (<[h := cb0]> (buffers st)) st).
    destruct (releaseCommandHandles_spec h (CommandHandles cb) st0 cb0)
      as (st1 & Hrun & Hin & Hout & Hk & Hb);
      [done|done|by (simpl; rewrite lookup_insert_eq)|simpl; lia|].
    change (CommandHandles cb0) with (CommandHandles cb). rewrite Hrun. simpl.
    set (n := length (live_commands st1 (CommandHandles cb))) in *.
    set (cb1 := set_ref_counts
                  (RefCountInternal cb0 - Z.of_nat (length (CommandHandles cb)) +
                   Z.of_nat n) (RefCountExternal cb0) cb0) in *.
    rewrite (commandBufferReleaseInternal_spec _ _ cb1)
      by (rewrite Hb; by rewrite lookup_insert_eq).
    eexists. split; [done|]. simpl.
    split; [done|]. split; [done|]. split; [done|]. split.
    { intros h' Hne. rewrite Hb. simpl.
      case_decide; by rewrite ?lookup_delete_ne, ?lookup_insert_ne by done. }
    rewrite !live_commands_set_buffers. fold n.
    assert (RefCountInternal cb - Z.of_nat (length (CommandHandles cb)) +
            Z.of_nat n - 1 = Z.of_nat n) as -> by lia.
    rewrite Hext.
    destruct (decide (Z.of_nat n = 0)) as [Hz|Hnz].
    + rewrite decide_True by (apply length_zero_iff_nil; fold n; lia).
      by rewrite lookup_delete_eq.
    + rewrite decide_False by (intros Hnil; apply Hnz; unfold n; by rewrite Hnil).
      by rewrite lookup_insert_eq.
  - intros c st cmd cb Hc Hcb. unfold urCommandBufferReleaseCommandExp.
    rewrite Hc. simpl.
    set (cmd0 := set_command_ref_counts (Command.RefCountInternal cmd)
                   (Command.RefCountExternal cmd - 1) cmd).
    set (st0 := set_commands (<[c := cmd0]> (commands st)) st).
    assert (commands st0 !! c = Some cmd0) as Hc0
      by (simpl; by rewrite lookup_insert_eq).
    case_decide as Hzero.
    + rewrite (commandHandleReleaseInternal_destroys c st0 cmd0 cb) by done.
      simpl. by rewrite delete_insert_eq.
    + rewrite (commandHandleReleaseInternal_survives c st0 cmd0) by done.
      simpl. unfold set_commands. simpl. by rewrite insert_insert_eq.
Qed.

End ReferenceCounting.

(** C2, instance: the user releases the buffer of [launched_heap] while the
    command handle of the recorded launch is still held.  The buffer stays,
    with external count 0 and internal count 1, and so does the handle, with
    internal count 1; releasing the handle then destroys both. *)
Lemma command_buffer_life_cycle_witness :
  ∃ st' cb' c',
    urCommandBufferReleaseExp (H := ideal_externals) 0 launched_heap =
      Returns (UR_RESULT_SUCCESS, st') ∧
    buffers st' !! 0%nat = Some cb' ∧
    RefCountExternal cb' = 0 ∧ RefCountInternal cb' = 1 ∧
    commands st' !! 0%nat = Some c' ∧ Command.RefCountInternal c' = 1 ∧
    ∃ st'',
      urCommandBufferReleaseCommandExp (H := ideal_externals) 0 st' =
        Returns (UR_RESULT_SUCCESS, st'') ∧
      buffers st'' !! 0%nat = None ∧ commands st'' !! 0%nat = None.
Proof.
  edestruct (proj1 (proj2 (proj2 (proj2 (command_buffer_life_cycle
                                           (H := ideal_externals)))))
               0%nat launched_heap)
    as (st' & Hrun & _).
  - vm_compute. reflexivity.
  - reflexivity.
  - split; [|split].
    + apply NoDup_singleton.
    + intros c Hc. apply list_elem_of_singleton in Hc. subst c.
      eexists. split; [vm_compute; reflexivity|reflexivity].
    + reflexivity.
  - vm_compute in Hrun. injection Hrun as <-.
    eexists _, _, _. split; [vm_compute; reflexivity|].
    split; [vm_compute; reflexivity|]. split; [reflexivity|].
    split; [reflexivity|]. split; [vm_compute; reflexivity|].
    split; [reflexivity|].
    eexists. split; [vm_compute; reflexivity|].
    split; vm_compute; reflexivity.
Defined.

(** ** Ownership is established by creation and kept by recording *)

Section Ownership.
Context `{Externals}.

Lemma owns_its_commands_frame (st st' : Heap) h cb cb' :
  commands st' = commands st →
  CommandHandles cb' = CommandHandles cb →
  RefCountInternal cb' = RefCountInternal cb →
  RefCountExternal cb' = RefCountExternal cb →
  owns_its_commands st h cb →
  owns_its_commands st' h cb'.
Proof.
  intros Hc Hl Hi He (Hnodup & Hlive & Hcount).
  unfold owns_its_commands. rewrite Hc, Hl, Hi, He. done.
Qed.

(** A created buffer owns its (no) command handles. *)
Lemma owns_its_commands_created hContext hDevice pCommandBufferDesc st r st' h :
  urCommandBufferCreateExp hContext hDevice pCommandBufferDesc st =
    (r, st', Some h) →
  ∃ cb, buffers st' !! h = Some cb ∧ owns_its_commands st' h cb.
Proof.
  unfold urCommandBufferCreateExp.
  destruct (negb new_command_buffer_ok); [done|].
  destruct (negb hipGraphCreate_ok); intros [= <- <- <-]; simpl;
    rewrite lookup_insert_eq; (eexists; split; [done|]);
    (split; [apply NoDup_nil_2|]); (split; [|done]);
    intros c Hc; by apply elem_of_nil in Hc.
Qed.

(** Retain keeps ownership. *)
Lemma owns_its_commands_retained h st cb st' r :
  buffers st !! h = Some cb →
  owns_its_commands st h cb →
  urCommandBufferRetainExp h st = Returns (r, st') →
  ∃ cb', buffers st' !! h = Some cb' ∧ owns_its_commands st' h cb' ∧
         RefCountExternal cb' = RefCountExternal cb + 1.
Proof.
  intros Hh (Hnodup & Hlive & Hcount). unfold urCommandBufferRetainExp.
  rewrite Hh. simpl. intros [= <- <-]. simpl. rewrite lookup_insert_eq.
  eexists. split; [done|]. split; [|done].
  split; [done|]. split; [done|]. simpl. lia.
Qed.

(** A kernel launch, whatever its outcome, keeps ownership: a new command
    handle comes with its unit of the buffer's internal count. *)
Lemma owns_its_commands_launched h hKernel workDim pGlobalWorkOffset
    pGlobalWorkSize pLocalWorkSize num wl pSyncPoint phCommand st cb r st'
    SyncPoint Command :
  buffers st !! h = Some cb →
  owns_its_commands st h cb →
  urCommandBufferAppendKernelLaunchExp h hKernel workDim pGlobalWorkOffset
    pGlobalWorkSize pLocalWorkSize num wl pSyncPoint phCommand st =
  Returns (r, st', SyncPoint, Command) →
  ∃ cb', buffers st' !! h = Some cb' ∧ owns_its_commands st' h cb' ∧
         RefCountExternal cb' = RefCountExternal cb.
Proof.
  intros Hh Howns. unfold urCommandBufferAppendKernelLaunchExp.
  rewrite Hh. simpl.
  destruct (kernels st !! hKernel) as [k|]; simpl; [|done].
  repeat (case_bool_decide; simpl;
          [|intros [= <- <- <- <-]; exists cb; done]).
  destruct (nullWaitListWithEntries num wl);
    [intros [= <- <- <- <-]; exists cb; done|].
  match goal with |- context [withDependencies cb num wl ?f ?k] =>
    destruct (withDependencies_cases cb num wl f k) as [->|(DepsList & _ & ->)]
  end; [intros [= <- <- <- <-]; exists cb; done|].
  destruct (head pGlobalWorkSize) as [GlobalWorkSize0|]; simpl; [|done].
  unfold hipGraphAddNode.
  destruct (GlobalWorkSize0 =? 0).
  - (* the empty node *)
    destruct (hipGraphAddNode_error _ _);
      [intros [= <- <- <- <-]; exists cb; done|].
    destruct pSyncPoint; [|done].
    intros [= <- <- <- <-]. simpl. rewrite lookup_insert_eq.
    eexists. split; [done|]. split; [|done].
    by apply (owns_its_commands_frame st _ h cb).
  - match goal with |- context [setKernelParams ?a1 ?a2 ?a3 ?a4 ?a5 ?a6 ?a7 ?a8 ?a9] =>
      destruct (setKernelParams a1 a2 a3 a4 a5 a6 a7 a8 a9) as [[[Result k1] T] B]
    end.
    case_bool_decide;
      [intros [= <- <- <- <-]; exists cb; split; [done|]; split; [|done];
       by apply (owns_its_commands_frame st _ h cb)|].
    destruct (hipGraphAddNode_error _ _);
      [intros [= <- <- <- <-]; exists cb; split; [done|]; split; [|done];
       by apply (owns_its_commands_frame st _ h cb)|].
    destruct Howns as (Hnodup & Hlive & Hcount).
    assert (commands st !! fresh (dom (commands st)) = None) as Hfresh
      by apply not_elem_of_dom, is_fresh.
    assert (fresh (dom (commands st)) ∉ CommandHandles cb) as Hnew.
    { intros Hin. destruct (Hlive _ Hin) as (cmd & Hcmd & _). congruence. }
    destruct pSyncPoint; intros [= <- <- <- <-]; simpl; rewrite lookup_insert_eq;
      (eexists; split; [done|]; split; [|done]);
      (split; [|split]); simpl.
    all: try (apply NoDup_app; split; [done|]; split;
              [intros c Hc Hc'; apply list_elem_of_singleton in Hc'; by subst c
              |apply NoDup_singleton]).
    all: try (rewrite length_app; simpl; lia).
    all: intros c Hc; apply elem_of_app in Hc as [Hc|Hc];
      [destruct (Hlive c Hc) as (cmd & Hcmd & Hp); exists cmd; split; [|done];
       rewrite lookup_insert_ne; [done|]; by intros <-
      |apply list_elem_of_singleton in Hc; subst c; rewrite lookup_insert_eq;
       by eexists].
Qed.

End Ownership.



(** * Further properties of the code *)

(** ** Resolving a wait list *)

Lemma getNodesFromSyncPoints_loop_first_unknown m :
  ∀ WaitList acc,
    resolved m WaitList = None →
    ∃ known SyncPoint rest nodes,
      WaitList = known ++ SyncPoint :: rest ∧
      resolved m known = Some nodes ∧
      m !! SyncPoint = None ∧
      getNodesFromSyncPoints_loop m WaitList acc =
        (UR_RESULT_ERROR_INVALID_VALUE, acc ++ nodes).
Proof.
  induction WaitList as [|sp WaitList IH]; intros acc; [done|].
  unfold resolved. simpl. destruct (m !! sp) as [n|] eqn:Hsp; simpl.
  - destruct (mapM _ WaitList) as [nodes|] eqn:Hrest; simpl; [done|]. intros _.
    destruct (IH (acc ++ [n]) Hrest) as (known & SyncPoint & rest & nodes & -> & Hk & Hu & ->).
    exists (sp :: known), SyncPoint, rest, (n :: nodes).
    split; [done|]. split; [|split; [done|]].
    + unfold resolved in *. simpl. rewrite Hsp. simpl. by rewrite Hk.
    + by rewrite <-app_assoc.
  - intros _. exists [], sp, WaitList, []. by rewrite app_nil_r.
Qed.

(** X1. [getNodesFromSyncPoints] appends to the caller's list the node of
    each wait-list entry, in the order of the wait list, and reports success;
    at the first entry that is not registered it stops with
    [UR_RESULT_ERROR_INVALID_VALUE], having appended the nodes of the entries
    before it. *)
Theorem getNodesFromSyncPoints_in_order cb num wl acc :
  match resolved (SyncPoints cb) (waitListEntries num wl) with
  | Some nodes =>
      getNodesFromSyncPoints cb num wl acc = (UR_RESULT_SUCCESS, acc ++ nodes) ∧
      length nodes = length (waitListEntries num wl) ∧
      ∀ i SyncPoint, waitListEntries num wl !! i = Some SyncPoint →
                     nodes !! i = SyncPoints cb !! SyncPoint
  | None =>
      ∃ known SyncPoint rest nodes,
        waitListEntries num wl = known ++ SyncPoint :: rest ∧
        resolved (SyncPoints cb) known = Some nodes ∧
        SyncPoints cb !! SyncPoint = None ∧
        getNodesFromSyncPoints cb num wl acc =
          (UR_RESULT_ERROR_INVALID_VALUE, acc ++ nodes)
  end.
Proof.
  unfold getNodesFromSyncPoints.
  destruct (resolved _ _) as [nodes|] eqn:Hres.
  - split; [by apply getNodesFromSyncPoints_loop_resolved|].
    unfold resolved in Hres. apply mapM_Some in Hres.
    split; [symmetry; by eapply Forall2_length|].
    intros i sp Hi.
    destruct (Forall2_lookup_l _ _ _ _ _ Hres Hi) as (n & Hn & Hsp). congruence.
  - by apply getNodesFromSyncPoints_loop_first_unknown.
Qed.

(** ** What recording a node does *)

Lemma addSyncPoint_with_node Deps what cb :
  addSyncPoint (length (HIPGraph cb))
    (set_graph (HIPGraph cb ++ [{| dependencies := Deps; payload := what |}]) cb) =
  (NextSyncPoint cb, with_node Deps what cb).
Proof. done. Qed.

Lemma with_node_graph Deps what cb :
  HIPGraph (with_node Deps what cb) =
  HIPGraph cb ++ [{| dependencies := Deps; payload := what |}].
Proof. done. Qed.

Lemma with_node_sync_points Deps what cb :
  SyncPoints (with_node Deps what cb) =
  <[NextSyncPoint cb := length (HIPGraph cb)]> (SyncPoints cb).
Proof. done. Qed.

Lemma with_node_next Deps what cb :
  NextSyncPoint (with_node Deps what cb) = ((NextSyncPoint cb + 1) mod 2 ^ 32)%N.
Proof. done. Qed.

Lemma with_unnamed_node_graph Deps what cb :
  HIPGraph (with_unnamed_node Deps what cb) =
  HIPGraph cb ++ [{| dependencies := Deps; payload := what |}].
Proof. done. Qed.

Lemma registry_wf_names_nodes cb : registry_wf cb → sync_points_name_nodes cb.
Proof. by intros [_ Hnodes]. Qed.

Lemma with_node_names_nodes Deps what cb :
  sync_points_name_nodes cb → sync_points_name_nodes (with_node Deps what cb).
Proof.
  intros Hnodes sp n. rewrite with_node_sync_points, with_node_graph, length_app.
  simpl. destruct (decide (sp = NextSyncPoint cb)) as [->|Hne].
  - rewrite lookup_insert_eq. intros [= <-]. lia.
  - rewrite lookup_insert_ne by done. intros Hn. apply Hnodes in Hn. lia.
Qed.

Lemma with_unnamed_node_names_nodes Deps what cb :
  sync_points_name_nodes cb →
  sync_points_name_nodes (with_unnamed_node Deps what cb).
Proof.
  intros Hnodes sp n Hn. apply Hnodes in Hn.
  rewrite with_unnamed_node_graph, length_app. simpl. lia.
Qed.

Lemma resolved_below cb WaitList Deps :
  sync_points_name_nodes cb →
  resolved (SyncPoints cb) WaitList = Some Deps →
  Forall (fun d => (d < length (HIPGraph cb))%nat) Deps.
Proof.
  intros Hnodes Hres. unfold resolved in Hres. apply mapM_Some in Hres.
  induction Hres as [|sp n l l' Hsp _ IH]; constructor; [|done].
  by eapply Hnodes.
Qed.

Lemma recorded_from_names_nodes cb cb' :
  recorded_from cb cb' → sync_points_name_nodes cb → sync_points_name_nodes cb'.
Proof.
  induction 1; intros Hnodes;
    [done|apply with_node_names_nodes|apply with_unnamed_node_names_nodes];
    by apply IHrecorded_from.
Qed.

Lemma recorded_from_trans cb1 cb2 cb3 :
  recorded_from cb1 cb2 → recorded_from cb2 cb3 → recorded_from cb1 cb3.
Proof.
  intros H12 H23. induction H23; [done| |]; by constructor.
Qed.

Lemma grows_from_refl cb : grows_from cb cb.
Proof. by repeat split. Qed.

Lemma grows_from_trans cb1 cb2 cb3 :
  grows_from cb1 cb2 → grows_from cb2 cb3 → grows_from cb1 cb3.
Proof.
  intros (Hg & Hc & Hd & Hu & He & Hx) (Hg' & Hc' & Hd' & Hu' & He' & Hx').
  split; [by etrans|]. repeat split; congruence.
Qed.

(** Recording touches the graph and the registry only. *)
Lemma recorded_from_grows cb cb' :
  recorded_from cb cb' →
  grows_from cb cb' ∧ CommandHandles cb' = CommandHandles cb ∧
  RefCountInternal cb' = RefCountInternal cb.
Proof.
  induction 1 as [|cb' Deps what Hrec IH HDeps|cb' Deps what Hrec IH HDeps].
  - split; [apply grows_from_refl|done].
  - destruct IH as (Hgrow & Hh & Hi). split; [|done].
    eapply grows_from_trans; [exact Hgrow|].
    split; [rewrite with_node_graph; by apply prefix_app_r|done].
  - destruct IH as (Hgrow & Hh & Hi). split; [|done].
    eapply grows_from_trans; [exact Hgrow|].
    split; [rewrite with_unnamed_node_graph; by apply prefix_app_r|done].
Qed.

Lemma recorded_from_length cb cb' :
  recorded_from cb cb' → (length (HIPGraph cb) ≤ length (HIPGraph cb'))%nat.
Proof.
  intros Hrec. destruct (recorded_from_grows _ _ Hrec) as ((Hg & _) & _).
  by apply prefix_length.
Qed.

Lemma keeps_registry_refl cb : keeps_registry cb cb.
Proof. intros Hwf _. split; [done|]. split; [done|]. lia. Qed.

Lemma keeps_registry_trans cb1 cb2 cb3 :
  (length (HIPGraph cb1) ≤ length (HIPGraph cb2))%nat →
  (length (HIPGraph cb2) ≤ length (HIPGraph cb3))%nat →
  keeps_registry cb1 cb2 → keeps_registry cb2 cb3 → keeps_registry cb1 cb3.
Proof.
  unfold keeps_registry, counter_has_room. intros H12 H23 K12 K23 Hwf Hroom.
  destruct K12 as (Hwf2 & Hs2 & Hn2 & Hm2); [done|lia|].
  destruct K23 as (Hwf3 & Hs3 & Hn3 & Hm3); [done|lia|].
  split; [done|]. split; [by etrans|]. lia.
Qed.

Lemma with_node_keeps_registry Deps what cb :
  keeps_registry cb (with_node Deps what cb).
Proof.
  unfold keeps_registry, counter_has_room. intros Hwf.
  rewrite with_node_graph, length_app, with_node_sync_points, with_node_next.
  simpl. intros Hroom.
  assert (NextSyncPoint cb + 1 < 2 ^ 32)%N as Hone by lia.
  split.
  - by destruct (addSyncPoint_records cb {| dependencies := Deps; payload := what |}
                   _ _ Hwf (addSyncPoint_with_node Deps what cb)) as (_ & _ & Hwf');
      apply Hwf'.
  - split; [by apply insert_subseteq, registry_wf_fresh|].
    rewrite N.mod_small by done. lia.
Qed.

Lemma with_unnamed_node_keeps_registry Deps what cb :
  keeps_registry cb (with_unnamed_node Deps what cb).
Proof.
  intros [Hdom Hnodes] _. split.
  - split; [exact Hdom|].
    by apply with_unnamed_node_names_nodes.
  - split; [done|]. split; [done|]. unfold with_unnamed_node, set_graph. simpl. lia.
Qed.

(** While the counter has room, recording keeps the registry well formed
    and every sync point in its place. *)
Lemma recorded_from_keeps_registry cb cb' :
  recorded_from cb cb' → keeps_registry cb cb'.
Proof.
  induction 1 as [|cb' Deps what Hrec IH HDeps|cb' Deps what Hrec IH HDeps].
  - apply keeps_registry_refl.
  - eapply keeps_registry_trans;
      [by apply recorded_from_length| |exact IH|apply with_node_keeps_registry].
    rewrite with_node_graph, length_app. lia.
  - eapply keeps_registry_trans;
      [by apply recorded_from_length| |exact IH
      |apply with_unnamed_node_keeps_registry].
    rewrite with_unnamed_node_graph, length_app. lia.
Qed.

Lemma dependencies_point_back_snoc g node :
  dependencies_point_back g →
  Forall (fun d => (d < length g)%nat) (dependencies node) →
  dependencies_point_back (g ++ [node]).
Proof.
  intros Hg Hnode i node' Hi.
  apply lookup_app_Some in Hi as [Hi|[Hlen Hi]]; [by apply Hg|].
  apply list_lookup_singleton_Some in Hi as [Hi <-].
  eapply Forall_impl; [exact Hnode|]. simpl. intros d Hd. lia.
Qed.

Lemma recorded_from_dependencies_point_back cb cb' :
  recorded_from cb cb' →
  dependencies_point_back (HIPGraph cb) →
  dependencies_point_back (HIPGraph cb').
Proof.
  induction 1; intros Hg; [done| |];
    by apply dependencies_point_back_snoc; [apply IHrecorded_from|].
Qed.

(** The sync point of the node recorded last. *)
Lemma with_node_names_last_node Deps what cb :
  Forall (fun d => (d < length (HIPGraph cb))%nat) Deps →
  names_last_node cb (with_node Deps what cb) (NextSyncPoint cb).
Proof. intros HDeps. exists cb, Deps, what. by split; [constructor|]. Qed.

Lemma names_last_node_after cb cb1 cb' s :
  recorded_from cb cb1 → names_last_node cb1 cb' s → names_last_node cb cb' s.
Proof.
  intros Hrec (cb2 & Deps & what & Hrec2 & HDeps & -> & ->).
  exists cb2, Deps, what. split; [by eapply recorded_from_trans|done].
Qed.

Lemma names_last_node_recorded cb cb' s :
  names_last_node cb cb' s → recorded_from cb cb'.
Proof. intros (cb1 & Deps & what & Hrec & HDeps & -> & _). by constructor. Qed.

Lemma names_last_node_lookup cb cb' s :
  names_last_node cb cb' s →
  (length (HIPGraph cb) < length (HIPGraph cb'))%nat ∧
  SyncPoints cb' !! s = Some (length (HIPGraph cb') - 1)%nat ∧
  NextSyncPoint cb' = ((s + 1) mod 2 ^ 32)%N.
Proof.
  intros (cb1 & Deps & what & Hrec & HDeps & -> & ->).
  apply recorded_from_length in Hrec.
  rewrite with_node_graph, with_node_sync_points, with_node_next, length_app.
  simpl. split; [lia|]. split; [|done].
  rewrite lookup_insert_eq. f_equal. lia.
Qed.

Lemma names_last_node_fresh cb cb' s :
  names_last_node cb cb' s →
  registry_wf cb → counter_has_room cb cb' →
  SyncPoints cb !! s = None ∧ (NextSyncPoint cb ≤ s)%N.
Proof.
  intros (cb1 & Deps & what & Hrec & HDeps & -> & ->) Hwf.
  unfold counter_has_room. rewrite with_node_graph, length_app. simpl.
  intros Hroom.
  pose proof (recorded_from_length _ _ Hrec) as Hlen.
  destruct (recorded_from_keeps_registry _ _ Hrec Hwf) as (_ & _ & Hnext & _);
    [unfold counter_has_room; lia|].
  split; [|done]. destruct Hwf as [Hdom _].
  apply eq_None_not_Some. rewrite Hdom. lia.
Qed.

Section RecordingCalls.
Context `{Externals}.

Lemma addNodeAndSyncPoint_cases cb Deps what :
  (∃ Err, addNodeAndSyncPoint cb Deps what = (Err, cb, None) ∧
          Err ≠ UR_RESULT_SUCCESS) ∨
  addNodeAndSyncPoint cb Deps what =
    (UR_RESULT_SUCCESS, with_node Deps what cb, Some (NextSyncPoint cb)).
Proof.
  unfold addNodeAndSyncPoint, hipGraphAddNode.
  destruct (hipGraphAddNode_error _ _) as [Err|] eqn:Hnative.
  - left. exists Err. split; [done|]. intros ->.
    by eapply hipGraphAddNode_throws_error.
  - right. by rewrite addSyncPoint_with_node.
Qed.

Lemma appendHintAsEmptyNode_cases Message cb num wl :
  (∃ Err, (appendHintAsEmptyNode Message cb num wl).1 = (Err, cb, None) ∧
          Err ≠ UR_RESULT_SUCCESS) ∨
  (∃ Deps,
     nullWaitListWithEntries num wl = false ∧
     resolved (SyncPoints cb) (waitListEntries num wl) = Some Deps ∧
     (appendHintAsEmptyNode Message cb num wl).1 =
       (UR_RESULT_ERROR_ADAPTER_SPECIFIC, with_node Deps hipGraphNodeTypeEmpty cb,
        Some (NextSyncPoint cb))).
Proof.
  unfold appendHintAsEmptyNode.
  destruct (nullWaitListWithEntries num wl); [left; by eexists|].
  match goal with |- context [withDependencies cb num wl ?f ?k] =>
    destruct (withDependencies_cases cb num wl f k) as [->|(Deps & HDeps & ->)]
  end; [left; by eexists|].
  unfold hipGraphAddNode.
  destruct (hipGraphAddNode_error _ _) as [Err|] eqn:Hnative.
  - left. exists Err. split; [done|]. intros ->.
    by eapply hipGraphAddNode_throws_error.
  - right. exists Deps. by rewrite addSyncPoint_with_node.
Qed.

(** The entry points that record at most one node: either nothing changes
    and an error is returned, or the wait list resolves and one node joins
    the graph under the next sync point. *)
Lemma single_node_call_cases fuel op num wl call cb res :
  records_at_most_one_node op = true →
  on_buffer_call fuel op num wl = Some call →
  call cb = Returns res →
  (∃ Err, res = (Err, cb, None) ∧ Err ≠ UR_RESULT_SUCCESS) ∨
  (∃ Deps what,
     nullWaitListWithEntries num wl = false ∧
     resolved (SyncPoints cb) (waitListEntries num wl) = Some Deps ∧
     res = (result_when_recorded op, with_node Deps what cb,
            Some (NextSyncPoint cb))).
Proof.
  intros Hone Hcall.
  destruct op; try done; simpl in Hcall; injection Hcall as <-;
    intros [= <-]; unfold result_when_recorded.
  1-7: unfold urCommandBufferAppendUSMMemcpyExp,
         urCommandBufferAppendMemBufferCopyExp,
         urCommandBufferAppendMemBufferCopyRectExp,
         urCommandBufferAppendMemBufferWriteExp,
         urCommandBufferAppendMemBufferReadExp,
         urCommandBufferAppendMemBufferWriteRectExp,
         urCommandBufferAppendMemBufferReadRectExp;
       (destruct (nullWaitListWithEntries num wl) eqn:Hnull; [left; by eexists|]);
       repeat (destruct (negb _); [left; by eexists|]).
  1-7: match goal with |- context [withDependencies ?c ?n ?l ?f ?k] =>
         destruct (withDependencies_cases c n l f k) as [->|(Deps & HDeps & ->)]
       end; [left; by eexists|]; cbv zeta.
  1-7: match goal with |- context [addNodeAndSyncPoint ?c ?d ?w] =>
         destruct (addNodeAndSyncPoint_cases c d w) as [(Err & -> & HErr)| ->]
       end; [left; by eexists|right; by eexists _, _].
  - unfold urCommandBufferAppendUSMPrefetchExp.
    destruct (appendHintAsEmptyNode_cases PrefetchMessage cb num wl)
      as [(Err & -> & HErr)|(Deps & Hnull & HDeps & ->)];
      [left; by eexists|right; by exists Deps, hipGraphNodeTypeEmpty].
  - unfold urCommandBufferAppendUSMAdviseExp.
    destruct (appendHintAsEmptyNode_cases AdviseMessage cb num wl)
      as [(Err & -> & HErr)|(Deps & Hnull & HDeps & ->)];
      [left; by eexists|right; by exists Deps, hipGraphNodeTypeEmpty].
Qed.

Lemma fillSteps_effect fuel :
  ∀ Step NumberOfSteps DstPtr Pattern Size DepsList cb SyncPoint r cb' SyncPoint',
    Forall (fun d => (d < length (HIPGraph cb))%nat) DepsList →
    fillSteps fuel Step NumberOfSteps DstPtr Pattern Size DepsList cb SyncPoint =
      Returns (r, cb', SyncPoint') →
    (cb' = cb ∧ SyncPoint' = SyncPoint) ∨
    ∃ s, SyncPoint' = Some s ∧ names_last_node cb cb' s.
Proof.
  induction fuel as [|fuel IH];
    intros Step NumberOfSteps DstPtr Pattern Size DepsList cb SyncPoint r cb'
      SyncPoint' HDeps.
  - simpl. destruct (Step <? NumberOfSteps); [done|]. intros [= <- <- <-].
    by left.
  - destruct (Z.ltb_spec Step NumberOfSteps);
      [|rewrite fillSteps_done by done; intros [= <- <- <-]; by left].
    destruct (hipGraphAddNode_error (HIPGraph cb)
                {| dependencies := DepsList;
                   payload := hipGraphNodeTypeMemset
                                (NodeParamsStep DstPtr Pattern NumberOfSteps Size
                                   Step) |}) as [Err|] eqn:Hnative.
    + simpl. destruct (Z.ltb_spec Step NumberOfSteps); [|lia].
      unfold hipGraphAddNode. rewrite Hnative. intros [= <- <- <-]. by left.
    + rewrite fillSteps_step by done. rewrite addSyncPoint_with_node.
      intros Hrun. right.
      pose proof (with_node_names_last_node DepsList
                    (hipGraphNodeTypeMemset
                       (NodeParamsStep DstPtr Pattern NumberOfSteps Size Step))
                    cb HDeps) as Hone.
      apply IH in Hrun as [[-> ->]|(s & -> & Hlast)].
      * by eexists.
      * exists s. split; [done|].
        eapply names_last_node_after; [|exact Hlast].
        by eapply names_last_node_recorded.
      * constructor; [|constructor].
        rewrite with_node_graph, length_app. simpl. lia.
Qed.

Lemma enqueueCommandBufferFillHelper_effect fuel cb DstDevice DstType Pattern
    PatternSize Size num wl r cb' SyncPoint :
  sync_points_name_nodes cb →
  enqueueCommandBufferFillHelper fuel cb DstDevice DstType Pattern PatternSize
    Size num wl = Returns (r, cb', SyncPoint) →
  match SyncPoint with
  | None => cb' = cb ∧ r ≠ UR_RESULT_SUCCESS
  | Some s => names_last_node cb cb' s
  end.
Proof.
  intros Hnodes. unfold enqueueCommandBufferFillHelper.
  match goal with |- context [withDependencies cb num wl ?f ?k] =>
    destruct (withDependencies_cases cb num wl f k) as [->|(DepsList & HDeps & ->)]
  end; [by intros [= <- <- <-]|].
  pose proof (resolved_below _ _ _ Hnodes HDeps) as Hbelow.
  destruct (PatternSize =? 0); [done|].
  destruct ((PatternSize =? 1) || (PatternSize =? 2) || (PatternSize =? 4)).
  - match goal with |- context [addNodeAndSyncPoint ?c ?d ?w] =>
      destruct (addNodeAndSyncPoint_cases c d w) as [(Err & -> & HErr)| ->]
    end; intros [= <- <- <-]; [done|by apply with_node_names_last_node].
  - unfold hipGraphAddNode.
    destruct (hipGraphAddNode_error _ _) as [Err|] eqn:Hnative.
    + intros [= <- <- <-]. split; [done|]. intros ->.
      by eapply hipGraphAddNode_throws_error.
    + rewrite addSyncPoint_with_node. intros Hrun.
      match type of Hrun with context [with_node ?d ?w cb] =>
        pose proof (with_node_names_last_node d w cb Hbelow) as Hfirst
      end.
      apply fillSteps_effect in Hrun as [[-> ->]|(s & -> & Hlast)]; [done| |].
      * eapply names_last_node_after; [|exact Hlast].
        by eapply names_last_node_recorded.
      * constructor; [|constructor].
        rewrite with_node_graph, length_app. simpl. lia.
Qed.

(** What a call on the command buffer does in general: it records nodes, and
    the sync point it hands back, if any, is that of the last of them. *)
Lemma on_buffer_call_effect fuel op num wl call cb r cb' SyncPoint :
  sync_points_name_nodes cb →
  on_buffer_call fuel op num wl = Some call →
  call cb = Returns (r, cb', SyncPoint) →
  match SyncPoint with
  | None => cb' = cb ∧ r ≠ UR_RESULT_SUCCESS
  | Some s => names_last_node cb cb' s
  end.
Proof.
  intros Hnodes Hcall Hrun.
  destruct (records_at_most_one_node op) eqn:Hone.
  - destruct (single_node_call_cases _ _ _ _ _ _ _ Hone Hcall Hrun)
      as [(Err & [= -> -> ->] & HErr)|(Deps & what & _ & HDeps & [= -> -> ->])];
      [done|].
    apply with_node_names_last_node. by eapply resolved_below.
  - destruct op; try done; simpl in Hcall; injection Hcall as <-; revert Hrun.
    + unfold urCommandBufferAppendMemBufferFillExp.
      destruct (patternSize =? 0); [done|].
      destruct (negb _); [by intros [= <- <- <-]|].
      destruct (nullWaitListWithEntries num wl); [by intros [= <- <- <-]|].
      by apply enqueueCommandBufferFillHelper_effect.
    + unfold urCommandBufferAppendUSMFillExp.
      destruct (nullWaitListWithEntries num wl); [by intros [= <- <- <-]|].
      destruct (negb _); [by intros [= <- <- <-]|].
      by apply enqueueCommandBufferFillHelper_effect.
Qed.

Lemma on_buffer_call_recorded fuel op num wl call cb r cb' SyncPoint :
  sync_points_name_nodes cb →
  on_buffer_call fuel op num wl = Some call →
  call cb = Returns (r, cb', SyncPoint) →
  recorded_from cb cb'.
Proof.
  intros Hnodes Hcall Hrun.
  pose proof (on_buffer_call_effect _ _ _ _ _ _ _ _ _ Hnodes Hcall Hrun) as Heff.
  destruct SyncPoint as [s|].
  - by eapply names_last_node_recorded.
  - destruct Heff as [-> _]. constructor.
Qed.

End RecordingCalls.

Section AppendEffect.
Context `{Externals}.

Lemma insert_same_buffer h cb (st : Heap) :
  buffers st !! h = Some cb → buffers st = <[h := cb]> (buffers st).
Proof. intros Hh. by rewrite insert_id. Qed.

(** What a kernel launch does to its command buffer: it records at most one
    node, and when it creates a command handle the buffer gains the handle
    and one unit of internal count. *)
Lemma kernel_launch_effect h hKernel workDim pGlobalWorkOffset pGlobalWorkSize
    pLocalWorkSize num wl pSyncPoint phCommand st cb r st' SyncPoint Command :
  buffers st !! h = Some cb →
  sync_points_name_nodes cb →
  urCommandBufferAppendKernelLaunchExp h hKernel workDim pGlobalWorkOffset
    pGlobalWorkSize pLocalWorkSize num wl pSyncPoint phCommand st =
  Returns (r, st', SyncPoint, Command) →
  ∃ cb1 cb',
    recorded_from cb cb1 ∧
    buffers st' = <[h := cb']> (buffers st) ∧
    (cb' = cb1 ∨
     ∃ c, commands st !! c = None ∧
          cb' = set_command_handles (CommandHandles cb1 ++ [c])
                  (incrementInternalReferenceCount cb1)).
Proof.
  intros Hh Hnodes. unfold urCommandBufferAppendKernelLaunchExp.
  rewrite Hh. simpl.
  assert (∃ cb1 cb',
            recorded_from cb cb1 ∧ buffers st = <[h := cb']> (buffers st) ∧
            (cb' = cb1 ∨
             ∃ c, commands st !! c = None ∧
                  cb' = set_command_handles (CommandHandles cb1 ++ [c])
                          (incrementInternalReferenceCount cb1))) as Hsame.
  { exists cb, cb. split; [constructor|]. split; [by apply insert_same_buffer|].
    by left. }
  destruct (kernels st !! hKernel) as [k|]; simpl; [|done].
  repeat (case_bool_decide; simpl; [|by intros [= <- <- <- <-]]).
  destruct (nullWaitListWithEntries num wl); [by intros [= <- <- <- <-]|].
  match goal with |- context [withDependencies cb num wl ?f ?k] =>
    destruct (withDependencies_cases cb num wl f k) as [->|(DepsList & HDeps & ->)]
  end; [by intros [= <- <- <- <-]|].
  pose proof (resolved_below _ _ _ Hnodes HDeps) as Hbelow.
  destruct (head pGlobalWorkSize) as [GlobalWorkSize0|]; simpl; [|done].
  unfold hipGraphAddNode.
  destruct (GlobalWorkSize0 =? 0).
  - destruct (hipGraphAddNode_error _ _); [by intros [= <- <- <- <-]|].
    destruct pSyncPoint; [|done].
    intros [= <- <- <- <-]. simpl.
    exists (with_node DepsList hipGraphNodeTypeEmpty cb),
           (with_node DepsList hipGraphNodeTypeEmpty cb).
    split; [by constructor; [constructor|]|].
    split; [done|by left].
  - match goal with |- context [setKernelParams ?a1 ?a2 ?a3 ?a4 ?a5 ?a6 ?a7 ?a8 ?a9] =>
      destruct (setKernelParams a1 a2 a3 a4 a5 a6 a7 a8 a9) as [[[Result k1] T] B]
    end.
    case_bool_decide; [by intros [= <- <- <- <-]|].
    destruct (hipGraphAddNode_error _ _); [by intros [= <- <- <- <-]|].
    assert (commands st !! fresh (dom (commands st)) = None) as Hfresh
      by apply not_elem_of_dom, is_fresh.
    destruct pSyncPoint.
    + intros [= <- <- <- <-]. simpl.
      match goal with |- context [hipGraphNodeTypeKernel ?p] =>
        exists (with_node DepsList (hipGraphNodeTypeKernel p) cb)
      end.
      eexists. split; [by constructor; [constructor|]|].
      split; [done|]. right. by eexists.
    + intros [= <- <- <- <-]. simpl.
      match goal with |- context [hipGraphNodeTypeKernel ?p] =>
        exists (with_unnamed_node DepsList (hipGraphNodeTypeKernel p) cb)
      end.
      eexists. split; [by constructor; [constructor|]|].
      split; [done|]. right. by eexists.
Qed.

(** What an append does to the heap: behind the handle, nodes are recorded
    and at most one command handle is added; the other command buffers are
    not touched. *)
Lemma append_effect fuel op h num wl st cb r st' :
  buffers st !! h = Some cb →
  sync_points_name_nodes cb →
  append fuel op h num wl st = Returns (r, st') →
  ∃ cb1 cb',
    recorded_from cb cb1 ∧
    buffers st' = <[h := cb']> (buffers st) ∧
    (cb' = cb1 ∨
     ∃ c, commands st !! c = None ∧
          cb' = set_command_handles (CommandHandles cb1 ++ [c])
                  (incrementInternalReferenceCount cb1)).
Proof.
  intros Hh Hnodes.
  destruct (on_buffer_call fuel op num wl) as [call|] eqn:Hcall.
  - assert (append fuel op h num wl st = onCommandBuffer h st call) as ->
      by (destruct op; try done; simpl in Hcall; by injection Hcall as <-).
    unfold onCommandBuffer. rewrite Hh. simpl.
    destruct (call cb) as [[[r0 cb0] sp0]| |] eqn:Hrun; simpl; [|done|done].
    intros [= <- <-]. simpl.
    pose proof (on_buffer_call_recorded _ _ _ _ _ _ _ _ _ Hnodes Hcall Hrun)
      as Hrec.
    exists cb0, cb0. split; [done|]. split; [done|by left].
  - destruct op; try done. simpl.
    destruct (urCommandBufferAppendKernelLaunchExp _ _ _ _ _ _ _ _ _ _ _)
      as [[[[r0 st0] sp0] c0]| |] eqn:Hrun; simpl; [|done|done].
    intros [= <- <-].
    by eapply kernel_launch_effect.
Qed.

End AppendEffect.

(** ** One node or nothing *)

Lemma with_node_records Deps what cb :
  registry_wf cb →
  records_one_node cb (with_node Deps what cb)
    {| dependencies := Deps; payload := what |} (NextSyncPoint cb).
Proof.
  intros Hwf.
  by destruct (addSyncPoint_records cb {| dependencies := Deps; payload := what |}
                 _ _ Hwf (addSyncPoint_with_node Deps what cb)) as (_ & Hrec & _).
Qed.

Section OneNodeOrNothing.
Context `{Externals}.

(** X2. The copies, reads, writes, prefetch and advise are all-or-nothing.
    Such a call either returns an error and leaves the command buffer as it
    was, storing no sync point; or the wait list resolves, exactly one node
    joins the graph with the resolved nodes as its dependencies, and the
    sync point stored is the buffer's next one, now naming that node.  The
    result is then success for the copies and the adapter-specific code for
    the two hints. *)
Theorem single_node_entry_points_all_or_nothing fuel op num wl call cb r cb'
    SyncPoint :
  registry_wf cb →
  records_at_most_one_node op = true →
  on_buffer_call fuel op num wl = Some call →
  call cb = Returns (r, cb', SyncPoint) →
  (cb' = cb ∧ SyncPoint = None ∧ r ≠ UR_RESULT_SUCCESS) ∨
  (∃ Deps what,
     resolved (SyncPoints cb) (waitListEntries num wl) = Some Deps ∧
     r = result_when_recorded op ∧
     SyncPoint = Some (NextSyncPoint cb) ∧
     records_one_node cb cb' {| dependencies := Deps; payload := what |}
       (NextSyncPoint cb) ∧
     SyncPoints cb' !! NextSyncPoint cb = Some (length (HIPGraph cb))).
Proof.
  intros Hwf Hone Hcall Hrun.
  destruct (single_node_call_cases _ _ _ _ _ _ _ Hone Hcall Hrun)
    as [(Err & [= -> -> ->] & HErr)|(Deps & what & _ & HDeps & [= -> -> ->])];
    [by left|right].
  exists Deps, what. split; [done|]. split; [done|]. split; [done|].
  split; [by apply with_node_records|].
  unfold with_node, addSyncPoint. simpl. by rewrite lookup_insert_eq.
Qed.

(** X3. The sync point an entry point hands back names the last node of the
    resulting graph, which the call has added; a wait list that consists of
    it resolves to that node; and the buffer's next sync point is the one
    after it, counted in 32 bits.  This holds for every entry point that
    works on the buffer alone, whatever the call returns, on a buffer whose
    registered sync points name nodes of its graph.  When moreover the
    registry was well formed and the 32-bit counter had room for the nodes
    the call has added, the sync point was not in use before the call.  (A
    counter that wraps hands back ids that were registered before.) *)
Theorem returned_sync_point_names_the_new_node fuel op num wl call cb r cb' s :
  sync_points_name_nodes cb →
  on_buffer_call fuel op num wl = Some call →
  call cb = Returns (r, cb', Some s) →
  (length (HIPGraph cb) < length (HIPGraph cb'))%nat ∧
  SyncPoints cb' !! s = Some (length (HIPGraph cb') - 1)%nat ∧
  getNodesFromSyncPoints cb' 1 (Some [s]) [] =
    (UR_RESULT_SUCCESS, [(length (HIPGraph cb') - 1)%nat]) ∧
  NextSyncPoint cb' = ((s + 1) mod 2 ^ 32)%N ∧
  (registry_wf cb → counter_has_room cb cb' →
   SyncPoints cb !! s = None ∧ (NextSyncPoint cb ≤ s)%N).
Proof.
  intros Hnodes Hcall Hrun.
  pose proof (on_buffer_call_effect _ _ _ _ _ _ _ _ _ Hnodes Hcall Hrun) as Hlast.
  simpl in Hlast.
  destruct (names_last_node_lookup _ _ _ Hlast) as (Hlen & Hnode & Hnext).
  split; [done|]. split; [done|]. split.
  { unfold getNodesFromSyncPoints. simpl. by rewrite Hnode. }
  split; [done|]. by apply names_last_node_fresh.
Qed.

(** X4. Sync points chain commands.  When a first call has handed back a
    sync point and a second call, of an entry point that records one node,
    names just that sync point in its wait list, then the node the second
    call records depends on exactly one node: the last node the first call
    added.  The sync point of the second call is the one after that of the
    first, counted in 32 bits: after [2 ^ 32 - 1] comes 0. *)
Theorem waiting_on_a_returned_sync_point fuel op1 num wl call1 cb r1 cb1 s
    op2 call2 r2 cb2 s2 :
  sync_points_name_nodes cb →
  on_buffer_call fuel op1 num wl = Some call1 →
  call1 cb = Returns (r1, cb1, Some s) →
  records_at_most_one_node op2 = true →
  on_buffer_call fuel op2 1 (Some [s]) = Some call2 →
  call2 cb1 = Returns (r2, cb2, Some s2) →
  ∃ what,
    HIPGraph cb2 =
      HIPGraph cb1 ++
      [{| dependencies := [(length (HIPGraph cb1) - 1)%nat]; payload := what |}] ∧
    (length (HIPGraph cb) ≤ length (HIPGraph cb1) - 1)%nat ∧
    s2 = ((s + 1) mod 2 ^ 32)%N.
Proof.
  intros Hnodes Hcall1 Hrun1 Hone Hcall2 Hrun2.
  pose proof (on_buffer_call_effect _ _ _ _ _ _ _ _ _ Hnodes Hcall1 Hrun1)
    as Hlast.
  simpl in Hlast.
  destruct (names_last_node_lookup _ _ _ Hlast) as (Hlen & Hnode & Hnext).
  destruct (single_node_call_cases _ _ _ _ _ _ _ Hone Hcall2 Hrun2)
    as [(Err & [=] & _)|(Deps & what & _ & HDeps & [= -> -> ->])].
  unfold resolved in HDeps. simpl in HDeps. rewrite Hnode in HDeps.
  injection HDeps as <-. exists what. split; [done|]. split; [lia|done].
Qed.

End OneNodeOrNothing.

(** ** Wait-list pointer and count *)

Section WaitListArguments.
Context `{Externals}.

(** X5. A null wait-list pointer with a positive count is rejected by every
    append entry point: the call returns an error and changes nothing.  The
    error is [UR_RESULT_ERROR_INVALID_EVENT_WAIT_LIST] whenever the checks
    that the entry point makes before it looks at the pointer pass: the
    kernel and work-dimension checks of a kernel launch and the pattern
    checks of a buffer fill; the other entry points look at the pointer
    first. *)
Theorem append_with_null_wait_list fuel op h num st cb :
  buffers st !! h = Some cb →
  (0 < num)%nat →
  (∀ r st', append fuel op h num None st = Returns (r, st') →
            st' = st ∧ r ≠ UR_RESULT_SUCCESS) ∧
  (checks_before_wait_list op cb st →
   append fuel op h num None st =
   Returns (UR_RESULT_ERROR_INVALID_EVENT_WAIT_LIST, st)).
Proof.
  intros Hh Hnum.
  assert (nullWaitListWithEntries num None = true) as Hnull.
  { unfold nullWaitListWithEntries. rewrite bool_decide_eq_true_2 by done.
    by rewrite bool_decide_eq_true_2. }
  assert (∀ call,
            call cb = Returns (fails UR_RESULT_ERROR_INVALID_EVENT_WAIT_LIST cb) →
            (∀ r st', onCommandBuffer h st call = Returns (r, st') →
                      st' = st ∧ r ≠ UR_RESULT_SUCCESS) ∧
            onCommandBuffer h st call =
              Returns (UR_RESULT_ERROR_INVALID_EVENT_WAIT_LIST, st)) as Hlift.
  { intros call Hcall.
    rewrite (onCommandBuffer_fails h cb st call _ Hh Hcall).
    split; [|done]. by intros r st' [= <- <-]. }
  destruct op; simpl.
  - (* kernel launch *)
    unfold urCommandBufferAppendKernelLaunchExp. rewrite Hh. simpl.
    destruct (kernels st !! hKernel) as [k|] eqn:Hk; simpl;
      [|split; [done|]; by intros (k & [=] & _)].
    rewrite Hnull.
    split.
    + repeat (case_bool_decide; simpl; [|by intros r st' [= <- <-]]).
      by intros r st' [= <- <-].
    + intros (k' & [= <-] & Hctx & Hdim1 & Hdim2).
      rewrite bool_decide_eq_true_2 by done. simpl.
      rewrite bool_decide_eq_true_2 by lia. simpl.
      rewrite bool_decide_eq_true_2 by lia. done.
  - destruct (Hlift (fun cb => Returns
                (urCommandBufferAppendUSMMemcpyExp cb pDst pSrc size num None)))
      as [H1 H2]; [|by split].
    unfold urCommandBufferAppendUSMMemcpyExp. by rewrite Hnull.
  - destruct (Hlift (fun cb => Returns
                (urCommandBufferAppendMemBufferCopyExp cb hSrcMem hDstMem
                   srcOffset dstOffset size num None)))
      as [H1 H2]; [|by split].
    unfold urCommandBufferAppendMemBufferCopyExp. by rewrite Hnull.
  - destruct (Hlift (fun cb => Returns
                (urCommandBufferAppendMemBufferCopyRectExp cb hSrcMem hDstMem
                   srcOrigin dstOrigin region srcRowPitch srcSlicePitch
                   dstRowPitch dstSlicePitch num None)))
      as [H1 H2]; [|by split].
    unfold urCommandBufferAppendMemBufferCopyRectExp. by rewrite Hnull.
  - destruct (Hlift (fun cb => Returns
                (urCommandBufferAppendMemBufferWriteExp cb hBuffer offset size
                   pSrc num None)))
      as [H1 H2]; [|by split].
    unfold urCommandBufferAppendMemBufferWriteExp. by rewrite Hnull.
  - destruct (Hlift (fun cb => Returns
                (urCommandBufferAppendMemBufferReadExp cb hBuffer offset size
                   pDst num None)))
      as [H1 H2]; [|by split].
    unfold urCommandBufferAppendMemBufferReadExp. by rewrite Hnull.
  - destruct (Hlift (fun cb => Returns
                (urCommandBufferAppendMemBufferWriteRectExp cb hBuffer
                   bufferOffset hostOffset region bufferRowPitch
                   bufferSlicePitch hostRowPitch hostSlicePitch pSrc num None)))
      as [H1 H2]; [|by split].
    unfold urCommandBufferAppendMemBufferWriteRectExp. by rewrite Hnull.
  - destruct (Hlift (fun cb => Returns
                (urCommandBufferAppendMemBufferReadRectExp cb hBuffer
                   bufferOffset hostOffset region bufferRowPitch
                   bufferSlicePitch hostRowPitch hostSlicePitch pDst num None)))
      as [H1 H2]; [|by split].
    unfold urCommandBufferAppendMemBufferReadRectExp. by rewrite Hnull.
  - destruct (Hlift (fun cb => Returns
                (urCommandBufferAppendUSMPrefetchExp cb Mem Size Flags num None).1))
      as [H1 H2]; [|by split].
    unfold urCommandBufferAppendUSMPrefetchExp, appendHintAsEmptyNode.
    by rewrite Hnull.
  - destruct (Hlift (fun cb => Returns
                (urCommandBufferAppendUSMAdviseExp cb Mem Size Advice num None).1))
      as [H1 H2]; [|by split].
    unfold urCommandBufferAppendUSMAdviseExp, appendHintAsEmptyNode.
    by rewrite Hnull.
  - (* buffer fill: the pattern checks come first *)
    unfold onCommandBuffer. rewrite Hh. simpl.
    unfold urCommandBufferAppendMemBufferFillExp.
    destruct (Z.eqb_spec patternSize 0) as [->|Hp]; simpl;
      [split; [done|]; by intros [? _]|].
    rewrite Hnull.
    destruct (_ && _ && _) eqn:Hchecks; simpl.
    + rewrite (set_buffers_same h cb st Hh).
      split; [by intros r st' [= <- <-]|done].
    + rewrite (set_buffers_same h cb st Hh).
      split; [by intros r st' [= <- <-]|].
      intros (_ & Hmul & Hpat & Hsize). exfalso.
      rewrite Hsize, andb_true_r in Hchecks.
      rewrite bool_decide_eq_true_2, andb_true_r in Hchecks by done.
      apply orb_false_iff in Hchecks as [H1%Z.eqb_neq H2%Z.eqb_neq]. tauto.
  - destruct (Hlift (fun cb =>
                urCommandBufferAppendUSMFillExp fuel cb pPtr pPattern
                  patternSize size num None))
      as [H1 H2]; [|by split].
    unfold urCommandBufferAppendUSMFillExp. by rewrite Hnull.
Qed.

Lemma append_depends_on_entries_read fuel op h num wl num' wl' st :
  waitListEntries num wl = waitListEntries num' wl' →
  nullWaitListWithEntries num wl = nullWaitListWithEntries num' wl' →
  append fuel op h num wl st = append fuel op h num' wl' st.
Proof.
  intros Hentries Hnull.
  destruct op; simpl; unfold onCommandBuffer;
    try (destruct (buffers st !! h) as [cb|]; simpl; [|done]).
  - unfold urCommandBufferAppendKernelLaunchExp, withDependencies,
      getNodesFromSyncPoints.
    by rewrite Hentries, Hnull.
  - unfold urCommandBufferAppendUSMMemcpyExp, withDependencies,
      getNodesFromSyncPoints.
    by rewrite Hentries, Hnull.
  - unfold urCommandBufferAppendMemBufferCopyExp, withDependencies,
      getNodesFromSyncPoints.
    by rewrite Hentries, Hnull.
  - unfold urCommandBufferAppendMemBufferCopyRectExp, withDependencies,
      getNodesFromSyncPoints.
    by rewrite Hentries, Hnull.
  - unfold urCommandBufferAppendMemBufferWriteExp, withDependencies,
      getNodesFromSyncPoints.
    by rewrite Hentries, Hnull.
  - unfold urCommandBufferAppendMemBufferReadExp, withDependencies,
      getNodesFromSyncPoints.
    by rewrite Hentries, Hnull.
  - unfold urCommandBufferAppendMemBufferWriteRectExp, withDependencies,
      getNodesFromSyncPoints.
    by rewrite Hentries, Hnull.
  - unfold urCommandBufferAppendMemBufferReadRectExp, withDependencies,
      getNodesFromSyncPoints.
    by rewrite Hentries, Hnull.
  - unfold urCommandBufferAppendUSMPrefetchExp, appendHintAsEmptyNode,
      withDependencies, getNodesFromSyncPoints.
    by rewrite Hentries, Hnull.
  - unfold urCommandBufferAppendUSMAdviseExp, appendHintAsEmptyNode,
      withDependencies, getNodesFromSyncPoints.
    by rewrite Hentries, Hnull.
  - unfold urCommandBufferAppendMemBufferFillExp,
      enqueueCommandBufferFillHelper, withDependencies, getNodesFromSyncPoints.
    by rewrite Hentries, Hnull.
  - unfold urCommandBufferAppendUSMFillExp, enqueueCommandBufferFillHelper,
      withDependencies, getNodesFromSyncPoints.
    by rewrite Hentries, Hnull.
Qed.

(** X6. An append entry point reads the wait list up to the count and no
    further.  With a count of zero the result is the same for every pointer,
    null or not; and entries that lie behind the first
    [numSyncPointsInWaitList] ones, even unregistered ones, do not change
    the result. *)
Theorem append_reads_the_wait_list_up_to_the_count fuel op h st :
  (∀ wl, append fuel op h 0 wl st = append fuel op h 0 None st) ∧
  (∀ num WaitList behind,
     (num ≤ length WaitList)%nat →
     append fuel op h num (Some (WaitList ++ behind)) st =
     append fuel op h num (Some WaitList) st).
Proof.
  split.
  - intros wl. apply append_depends_on_entries_read; [done|].
    unfold nullWaitListWithEntries. by rewrite !andb_false_r.
  - intros num WaitList behind Hnum.
    apply append_depends_on_entries_read; [|done].
    unfold waitListEntries. simpl. by rewrite take_app_le.
Qed.

End WaitListArguments.

(** ** Recording only adds *)

Section RecordingOnlyAdds.
Context `{Externals}.

Lemma grows_from_with_command cb1 c :
  grows_from cb1 (set_command_handles (CommandHandles cb1 ++ [c])
                    (incrementInternalReferenceCount cb1)).
Proof. by repeat split. Qed.

Lemma keeps_registry_with_command cb1 c :
  keeps_registry cb1 (set_command_handles (CommandHandles cb1 ++ [c])
                        (incrementInternalReferenceCount cb1)).
Proof.
  intros [Hdom Hnodes] _. split; [by split|]. split; [done|]. simpl. lia.
Qed.

(** What an append does to the command buffer behind its handle. *)
Lemma append_grows fuel op h num wl st cb r st' :
  buffers st !! h = Some cb →
  sync_points_name_nodes cb →
  append fuel op h num wl st = Returns (r, st') →
  ∃ cb', buffers st' = <[h := cb']> (buffers st) ∧
         grows_from cb cb' ∧
         CommandHandles cb `prefix_of` CommandHandles cb' ∧
         sync_points_name_nodes cb' ∧
         (dependencies_point_back (HIPGraph cb) →
          dependencies_point_back (HIPGraph cb')) ∧
         keeps_registry cb cb'.
Proof.
  intros Hh Hnodes Hrun.
  destruct (append_effect _ _ _ _ _ _ _ _ _ Hh Hnodes Hrun)
    as (cb1 & cb' & Hrec & Hb & Hcb').
  destruct (recorded_from_grows _ _ Hrec) as (Hgrow & Hhandles & _).
  pose proof (recorded_from_names_nodes _ _ Hrec Hnodes) as Hnodes1.
  pose proof (recorded_from_keeps_registry _ _ Hrec) as Hkeeps.
  pose proof (recorded_from_dependencies_point_back _ _ Hrec) as Hback.
  exists cb'. split; [done|].
  destruct Hcb' as [->|(c & _ & ->)].
  - split; [done|]. by rewrite Hhandles.
  - split; [eapply grows_from_trans; [exact Hgrow|apply grows_from_with_command]|].
    split; [simpl; rewrite Hhandles; by apply prefix_app_r|].
    split; [done|]. split; [done|].
    eapply keeps_registry_trans; [by apply recorded_from_length|done|exact Hkeeps|].
    apply keeps_registry_with_command.
Qed.

(** X7. Appending only adds.  After any append on a command buffer whose
    registered sync points name nodes of its graph, whatever the call
    returns, the graph recorded before is the beginning of the graph; the
    context, the device, the updatable flag, the executable graph and the
    external reference count are what they were; the command handles known
    before are still the first ones; every registered sync point still names
    a node of the graph; and no other command buffer of the heap is
    touched.  When moreover the registry was well formed and the 32-bit
    counter of sync points had room for the nodes added, every sync point
    registered before still names the same node, the next sync point has not
    gone back, and the registry is still well formed. *)
Theorem append_only_adds fuel op h num wl st cb r st' :
  buffers st !! h = Some cb →
  sync_points_name_nodes cb →
  append fuel op h num wl st = Returns (r, st') →
  ∃ cb', buffers st' !! h = Some cb' ∧
         grows_from cb cb' ∧
         CommandHandles cb `prefix_of` CommandHandles cb' ∧
         sync_points_name_nodes cb' ∧
         (∀ h', h' ≠ h → buffers st' !! h' = buffers st !! h') ∧
         (registry_wf cb → counter_has_room cb cb' →
          extends cb cb' ∧ registry_wf cb').
Proof.
  intros Hh Hnodes Hrun.
  destruct (append_grows _ _ _ _ _ _ _ _ _ Hh Hnodes Hrun)
    as (cb' & Hb & Hgrow & Hhandles & Hnodes' & _ & Hkeeps).
  exists cb'. rewrite Hb, lookup_insert_eq. split; [done|].
  split; [done|]. split; [done|]. split; [done|]. split.
  - intros h' Hne. by rewrite lookup_insert_ne.
  - intros Hwf Hroom. destruct (Hkeeps Hwf Hroom) as (Hwf' & Hs & Hn & _).
    split; [|done]. split; [done|]. by split.
Qed.

End RecordingOnlyAdds.

(** ** Invariants of a recording session *)

Section Sessions.
Context `{Externals}.

Lemma append_keeps_ownership fuel op h num wl st cb r st' :
  buffers st !! h = Some cb →
  sync_points_name_nodes cb →
  owns_its_commands st h cb →
  append fuel op h num wl st = Returns (r, st') →
  ∃ cb', buffers st' !! h = Some cb' ∧ owns_its_commands st' h cb'.
Proof.
  intros Hh Hnodes Howns.
  destruct (on_buffer_call fuel op num wl) as [call|] eqn:Hcall.
  - assert (append fuel op h num wl st = onCommandBuffer h st call) as ->
      by (destruct op; try done; simpl in Hcall; by injection Hcall as <-).
    unfold onCommandBuffer. rewrite Hh. simpl.
    destruct (call cb) as [[[r0 cb0] sp0]| |] eqn:Hrun; simpl; [|done|done].
    intros [= <- <-]. simpl. rewrite lookup_insert_eq.
    pose proof (on_buffer_call_recorded _ _ _ _ _ _ _ _ _ Hnodes Hcall Hrun)
      as Hrec.
    destruct (recorded_from_grows _ _ Hrec)
      as ((_ & _ & _ & _ & _ & He) & Hl & Hi).
    exists cb0. split; [done|].
    by apply (owns_its_commands_frame st _ h cb).
  - destruct op; try done. simpl.
    destruct (urCommandBufferAppendKernelLaunchExp _ _ _ _ _ _ _ _ _ _ _)
      as [[[[r0 st0] sp0] c0]| |] eqn:Hrun; simpl; [|done|done].
    intros [= <- <-].
    destruct (owns_its_commands_launched _ _ _ _ _ _ _ _ _ _ _ _ _ _ _ _
                Hh Howns Hrun) as (cb' & Hcb' & Howns' & _).
    by exists cb'.
Qed.

Lemma run_call_invariant fuel c h st cb st' :
  buffers st !! h = Some cb →
  sync_points_name_nodes cb →
  dependencies_point_back (HIPGraph cb) →
  owns_its_commands st h cb →
  run_call fuel c h st = Returns st' →
  ∃ cb', buffers st' !! h = Some cb' ∧
    sync_points_name_nodes cb' ∧
    dependencies_point_back (HIPGraph cb') ∧
    owns_its_commands st' h cb' ∧
    HIPGraph cb `prefix_of` HIPGraph cb' ∧
    Context cb' = Context cb ∧ Device cb' = Device cb ∧
    IsUpdatable cb' = IsUpdatable cb ∧
    RefCountExternal cb' =
      RefCountExternal cb + (if is_retain c then 1 else 0) ∧
    keeps_registry cb cb'.
Proof.
  intros Hh Hnodes Hback Howns. destruct c as [op num wl| |]; simpl.
  - destruct (append fuel op h num wl st) as [[r st0]| |] eqn:Hrun; simpl;
      [|done|done].
    intros [= <-].
    destruct (append_grows _ _ _ _ _ _ _ _ _ Hh Hnodes Hrun)
      as (cb' & Hb & (Hg & Hc & Hd & Hu & _ & He) & _ & Hnodes' & Hback' & Hkeeps).
    destruct (append_keeps_ownership _ _ _ _ _ _ _ _ _ Hh Hnodes Howns Hrun)
      as (cb'' & Hcb'' & Howns').
    rewrite Hb, lookup_insert_eq in Hcb''. injection Hcb'' as <-.
    exists cb'. rewrite Hb, lookup_insert_eq. split; [done|].
    split; [done|]. split; [by apply Hback'|]. do 5 (split; [done|]).
    split; [lia|done].
  - rewrite Hh. simpl. intros [= <-]. simpl. rewrite lookup_insert_eq.
    eexists. split; [done|]. unfold urCommandBufferFinalizeExp.
    destruct (hipGraphInstantiateWithFlags_ok _); simpl.
    + split; [done|]. split; [done|].
      split; [by apply (owns_its_commands_frame st _ h cb)|].
      do 4 (split; [done|]). split; [simpl; lia|].
      intros [Hdom Hwf] _. split; [by split|]. split; [done|]. simpl. lia.
    + split; [done|]. split; [done|].
      split; [by apply (owns_its_commands_frame st _ h cb)|].
      do 4 (split; [done|]). split; [lia|apply keeps_registry_refl].
  - destruct (urCommandBufferRetainExp h st) as [[r st0]| |] eqn:Hrun; simpl;
      [|done|done].
    intros [= <-].
    destruct (owns_its_commands_retained _ _ _ _ _ Hh Howns Hrun)
      as (cb' & Hcb' & Howns' & He).
    exists cb'. split; [done|].
    revert Hrun Hcb'. unfold urCommandBufferRetainExp. rewrite Hh. simpl.
    intros [= <- <-]. simpl. rewrite lookup_insert_eq. intros [= <-].
    do 7 (split; [done|]). split; [simpl; lia|].
    intros [Hdom Hwf] _. split; [by split|]. split; [done|]. simpl. lia.
Qed.

Lemma run_calls_invariant fuel calls h :
  ∀ st cb st',
    buffers st !! h = Some cb →
    sync_points_name_nodes cb →
    dependencies_point_back (HIPGraph cb) →
    owns_its_commands st h cb →
    run_calls fuel calls h st = Returns st' →
    ∃ cb', buffers st' !! h = Some cb' ∧
      sync_points_name_nodes cb' ∧
      dependencies_point_back (HIPGraph cb') ∧
      owns_its_commands st' h cb' ∧
      HIPGraph cb `prefix_of` HIPGraph cb' ∧
      Context cb' = Context cb ∧ Device cb' = Device cb ∧
      IsUpdatable cb' = IsUpdatable cb ∧
      RefCountExternal cb' =
        RefCountExternal cb + Z.of_nat (length (List.filter is_retain calls)) ∧
      keeps_registry cb cb'.
Proof.
  induction calls as [|c calls IH]; intros st cb st' Hh Hnodes Hback Howns; simpl.
  - intros [= <-]. exists cb. do 8 (split; [done|]).
    split; [lia|apply keeps_registry_refl].
  - destruct (run_call fuel c h st) as [st1| |] eqn:Hcall; simpl; [|done|done].
    intros Hrest.
    destruct (run_call_invariant _ _ _ _ _ _ Hh Hnodes Hback Howns Hcall)
      as (cb1 & Hh1 & Hnodes1 & Hback1 & Howns1 & Hg & Hc & Hd & Hu & He & Hk).
    destruct (IH _ _ _ Hh1 Hnodes1 Hback1 Howns1 Hrest)
      as (cb' & Hh' & Hnodes' & Hback' & Howns' & Hg' & Hc' & Hd' & Hu' & He' & Hk').
    exists cb'. split; [done|]. split; [done|]. split; [done|]. split; [done|].
    split; [by etrans|].
    split; [congruence|]. split; [congruence|]. split; [congruence|].
    split; [rewrite He', He; destruct (is_retain c); simpl; lia|].
    eapply keeps_registry_trans; [by apply prefix_length| |exact Hk|exact Hk'].
    by apply prefix_length.
Qed.

(** X8. Invariants of a recording session.  Start from a command buffer,
    such as one just created, whose registered sync points name nodes of
    its graph, whose nodes depend only on nodes recorded before them, and
    which owns its command handles; make any sequence of appends, finalize
    and retain calls on it, whatever each of them returns.  Then the buffer
    is still live; every registered sync point names a node of the graph;
    every node of the graph depends only on nodes recorded before it, so the
    graph has no cycle; the buffer owns its command handles, its internal
    count being its external count plus one per handle; what was recorded at
    the start is the beginning of the graph; the context, device and
    updatable flag are unchanged; and the external count has grown by the
    number of retain calls.  When moreover the registry was well formed at
    the start (the registered sync points being exactly the ids below the
    next one) and the 32-bit counter of sync points had room for the nodes
    added, the registry is well formed at the end, every sync point of the
    start names the same node, and the next sync point has not gone back. *)
Theorem recording_session_invariants fuel calls h st cb st' :
  buffers st !! h = Some cb →
  sync_points_name_nodes cb →
  dependencies_point_back (HIPGraph cb) →
  owns_its_commands st h cb →
  run_calls fuel calls h st = Returns st' →
  ∃ cb', buffers st' !! h = Some cb' ∧
    sync_points_name_nodes cb' ∧
    dependencies_point_back (HIPGraph cb') ∧
    owns_its_commands st' h cb' ∧
    HIPGraph cb `prefix_of` HIPGraph cb' ∧
    Context cb' = Context cb ∧ Device cb' = Device cb ∧
    IsUpdatable cb' = IsUpdatable cb ∧
    RefCountExternal cb' =
      RefCountExternal cb + Z.of_nat (length (List.filter is_retain calls)) ∧
    (registry_wf cb → counter_has_room cb cb' →
     registry_wf cb' ∧ SyncPoints cb ⊆ SyncPoints cb' ∧
     (NextSyncPoint cb ≤ NextSyncPoint cb')%N).
Proof.
  intros Hh Hnodes Hback Howns Hrun.
  destruct (run_calls_invariant _ _ _ _ _ _ Hh Hnodes Hback Howns Hrun)
    as (cb' & Hh' & Hnodes' & Hback' & Howns' & Hg & Hc & Hd & Hu & He & Hk).
  exists cb'. do 9 (split; [done|]).
  intros Hwf Hroom. destruct (Hk Hwf Hroom) as (Hwf' & Hs & Hn & _). done.
Qed.

End Sessions.

(** ** Retain and release *)

Section RetainRelease.
Context `{Externals}.

Lemma set_command_ref_counts_same (cmd : ur_exp_command_buffer_command_handle_t_) :
  set_command_ref_counts (Command.RefCountInternal cmd)
    (Command.RefCountExternal cmd) cmd = cmd.
Proof. by destruct cmd. Qed.

(** X9. A retain followed by a release changes nothing.  For a command
    buffer whose external and internal counts are not zero, and for a
    command handle whose internal count is not zero, the pair of calls
    returns success twice and leaves the heap exactly as it was: no command
    handle is released and nothing is destroyed. *)
Theorem retain_then_release_changes_nothing :
  (∀ h st cb,
     buffers st !! h = Some cb →
     RefCountExternal cb ≠ 0 → RefCountInternal cb ≠ 0 →
     urCommandBufferRetainExp h st ≫= (fun r => urCommandBufferReleaseExp h r.2) =
     Returns (UR_RESULT_SUCCESS, st)) ∧
  (∀ c st cmd,
     commands st !! c = Some cmd →
     Command.RefCountInternal cmd ≠ 0 →
     urCommandBufferRetainCommandExp c st ≫=
       (fun r => urCommandBufferReleaseCommandExp c r.2) =
     Returns (UR_RESULT_SUCCESS, st)).
Proof.
  split.
  - intros h st cb Hh Hext Hint.
    unfold urCommandBufferRetainExp. rewrite Hh. simpl.
    unfold urCommandBufferReleaseExp. simpl. rewrite lookup_insert_eq. simpl.
    rewrite bool_decide_eq_false_2 by lia. simpl.
    unfold commandBufferReleaseInternal. simpl. rewrite lookup_insert_eq. simpl.
    rewrite bool_decide_eq_true_2 by lia.
    rewrite !insert_insert_eq.
    unfold decrementInternalReferenceCount, decrementExternalReferenceCount,
      incrementExternalReferenceCount, incrementInternalReferenceCount. simpl.
    rewrite !set_ref_counts_twice.
    replace (RefCountInternal cb + 1 - 1) with (RefCountInternal cb) by lia.
    replace (RefCountExternal cb + 1 - 1) with (RefCountExternal cb) by lia.
    rewrite set_ref_counts_same. unfold set_buffers. simpl.
    rewrite insert_id by done. by destruct st.
  - intros c st cmd Hc Hint.
    unfold urCommandBufferRetainCommandExp. rewrite Hc. simpl.
    unfold urCommandBufferReleaseCommandExp. simpl. rewrite lookup_insert_eq. simpl.
    unfold commandHandleReleaseInternal. simpl. rewrite lookup_insert_eq. simpl.
    rewrite bool_decide_eq_true_2 by lia.
    rewrite !insert_insert_eq.
    unfold set_commands, set_command_ref_counts. simpl.
    replace (Command.RefCountInternal cmd + 1 - 1) with (Command.RefCountInternal cmd) by lia.
    replace (Command.RefCountExternal cmd + 1 - 1) with (Command.RefCountExternal cmd) by lia.
    pose proof (set_command_ref_counts_same cmd) as Hsame.
    unfold set_command_ref_counts in Hsame. rewrite Hsame.
    rewrite insert_id by done. by destruct st.
Qed.

End RetainRelease.

(** ** Releasing everything *)

Section ReleasingEverything.
Context `{Externals}.

Lemma live_commands_none (st : Heap) l :
  (∀ c, c ∈ l → commands st !! c = None) → live_commands st l = [].
Proof.
  induction l as [|c l IH]; intros Hl; [done|].
  unfold live_commands. rewrite filter_cons_False.
  - apply IH. intros c' Hc'. apply Hl. by right.
  - rewrite Hl by left. by intros [? ?].
Qed.

Lemma live_commands_all (st : Heap) l :
  (∀ c, c ∈ l → is_Some (commands st !! c)) → live_commands st l = l.
Proof.
  induction l as [|c l IH]; intros Hl; [done|].
  unfold live_commands. rewrite filter_cons_True by (apply Hl; left).
  f_equal. apply IH. intros c' Hc'. apply Hl. by right.
Qed.

(** Releasing handles that are also held by their buffer: each survives. *)
Lemma releaseCommands_survive l :
  ∀ st,
    NoDup l →
    (∀ c, c ∈ l → ∃ cmd, commands st !! c = Some cmd ∧
                         Command.RefCountInternal cmd - 1 ≠ 0) →
    ∃ st',
      releaseCommands l st = Returns st' ∧
      buffers st' = buffers st ∧ kernels st' = kernels st ∧
      (∀ c cmd, c ∈ l → commands st !! c = Some cmd →
                commands st' !! c =
                Some (set_command_ref_counts (Command.RefCountInternal cmd - 1)
                        (Command.RefCountExternal cmd - 1) cmd)) ∧
      (∀ c, c ∉ l → commands st' !! c = commands st !! c).
Proof.
  induction l as [|c l IH]; intros st Hnodup Hl.
  - exists st. simpl. repeat split; try done.
    intros c cmd Hc. by apply elem_of_nil in Hc.
  - apply NoDup_cons in Hnodup as [Hnotin Hnodup].
    destruct (Hl c) as (cmd & Hc & Hint); [by left|].
    simpl. unfold urCommandBufferReleaseCommandExp. rewrite Hc. simpl.
    set (cmd0 := set_command_ref_counts (Command.RefCountInternal cmd)
                   (Command.RefCountExternal cmd - 1) cmd).
    set (st0 := set_commands (<[c := cmd0]> (commands st)) st).
    rewrite (commandHandleReleaseInternal_survives c st0 cmd0)
      by (simpl; by rewrite ?lookup_insert_eq).
    simpl.
    set (cmd1 := set_command_ref_counts (Command.RefCountInternal cmd - 1)
                   (Command.RefCountExternal cmd - 1) cmd).
    set (st1 := set_commands (<[c := cmd1]> (commands st)) st).
    match goal with |- context [releaseCommands l ?s] =>
      replace s with st1
        by (unfold st1, st0, set_commands; simpl; by rewrite insert_insert_eq)
    end.
    destruct (IH st1) as (st' & Hrun & Hb & Hk & Hin & Hout); [done| |].
    { intros c' Hc'. destruct (Hl c') as (cmd' & Hcmd' & Hint'); [by right|].
      exists cmd'. split; [|done]. simpl.
      rewrite lookup_insert_ne; [done|]. by intros ->. }
    exists st'. split; [done|]. split; [done|]. split; [done|]. split.
    + intros c' cmd' Hc' Hcmd'. apply elem_of_cons in Hc' as [->|Hc'].
      * rewrite Hout by done. simpl. rewrite lookup_insert_eq.
        by replace cmd' with cmd by congruence.
      * rewrite (Hin c' cmd' Hc'); [done|]. simpl.
        rewrite lookup_insert_ne; [done|]. by intros ->.
    + intros c' Hc'. apply not_elem_of_cons in Hc' as [Hne Hc'].
      rewrite Hout by done. simpl. by rewrite lookup_insert_ne.
Qed.

(** Releasing the handles that keep a released buffer alive: each is
    destroyed, and the buffer with the last of them. *)
Lemma releaseCommands_destroy h l :
  ∀ st cb,
    l ≠ [] →
    NoDup l →
    buffers st !! h = Some cb →
    RefCountInternal cb = Z.of_nat (length l) →
    (∀ c, c ∈ l → ∃ cmd, commands st !! c = Some cmd ∧
                         Command.CommandBuffer cmd = h ∧
                         Command.RefCountInternal cmd = 1) →
    ∃ st', releaseCommands l st = Returns st' ∧ freed st h l st'.
Proof.
  induction l as [|c l IH]; intros st cb Hne Hnodup Hh Hcount Hl; [done|].
  apply NoDup_cons in Hnodup as [Hnotin Hnodup].
  destruct (Hl c) as (cmd & Hc & Hparent & Hint); [by left|].
  simpl. unfold urCommandBufferReleaseCommandExp. rewrite Hc. simpl.
  set (cmd0 := set_command_ref_counts (Command.RefCountInternal cmd)
                 (Command.RefCountExternal cmd - 1) cmd).
  set (st0 := set_commands (<[c := cmd0]> (commands st)) st).
  rewrite (commandHandleReleaseInternal_destroys c st0 cmd0 cb);
    [|by (simpl; rewrite lookup_insert_eq)|simpl; lia|by (simpl; rewrite Hparent)].
  simpl. rewrite Hparent, delete_insert_eq.
  destruct l as [|c2 l]; cbn [length] in Hcount.
  - rewrite decide_True by lia. simpl. eexists. split; [done|].
    split; [done|]. split; [|split; [|done]]; simpl.
    + intros c' Hc'. apply list_elem_of_singleton in Hc' as ->.
      by rewrite lookup_delete_eq.
    + intros c' Hc'. rewrite lookup_delete_ne; [done|].
      intros ->. apply Hc'. by left.
  - rewrite decide_False by lia.
    set (cb1 := set_ref_counts (RefCountInternal cb - 1) (RefCountExternal cb) cb).
    set (st1 := {| buffers := <[h := cb1]> (buffers st);
                   commands := delete c (commands st);
                   kernels := kernels st |}).
    destruct (IH st1 cb1) as (st' & Hrun & Hb & Hin & Hout & Hk);
      [done|done|by (simpl; rewrite lookup_insert_eq)|cbn [length]; simpl; lia| |].
    { intros c' Hc'. destruct (Hl c') as (cmd' & Hcmd' & Hp' & Hi'); [by right|].
      exists cmd'. split; [|done]. simpl.
      rewrite lookup_delete_ne; [done|]. by intros ->. }
    exists st'. split; [done|]. split; [|split; [|split; [|done]]].
    + rewrite Hb. simpl. by rewrite delete_insert_eq.
    + intros c' Hc'. apply elem_of_cons in Hc' as [->|Hc']; [|by apply Hin].
      rewrite Hout by done. simpl. by rewrite lookup_delete_eq.
    + intros c' Hc'. apply not_elem_of_cons in Hc' as [Hne' Hc'].
      rewrite Hout by done. simpl. by rewrite lookup_delete_ne.
Qed.

(** X10. Releasing everything frees everything, in either order.  Take a
    command buffer that owns its command handles, with external count 1, and
    whose handles each have internal count 2: one unit held by the buffer,
    one by the user.  If the user releases every command handle and then the
    buffer, each handle survives its own release, and the release of the
    buffer destroys the handles and the buffer.  If the user releases the
    buffer first, the buffer and the handles survive when there are handles,
    and releasing the handles then destroys them and, with the last one, the
    buffer.  Either way the buffer and its handles are gone in the end and
    nothing else in the heap has changed. *)
Theorem releasing_everything_frees_everything h st cb :
  buffers st !! h = Some cb →
  owns_its_commands st h cb →
  RefCountExternal cb = 1 →
  (∀ c cmd, c ∈ CommandHandles cb → commands st !! c = Some cmd →
            Command.RefCountInternal cmd = 2) →
  (∃ st1 st2,
     releaseCommands (CommandHandles cb) st = Returns st1 ∧
     buffers st1 = buffers st ∧
     (∀ c, c ∈ CommandHandles cb → is_Some (commands st1 !! c)) ∧
     urCommandBufferReleaseExp h st1 = Returns (UR_RESULT_SUCCESS, st2) ∧
     freed st h (CommandHandles cb) st2) ∧
  (∃ st1 st2,
     urCommandBufferReleaseExp h st = Returns (UR_RESULT_SUCCESS, st1) ∧
     (CommandHandles cb ≠ [] → is_Some (buffers st1 !! h)) ∧
     (∀ c, c ∈ CommandHandles cb → is_Some (commands st1 !! c)) ∧
     releaseCommands (CommandHandles cb) st1 = Returns st2 ∧
     freed st h (CommandHandles cb) st2).
Proof.
  intros Hh (Hnodup & Hlive & Hcount) Hext Hcmds.
  set (l := CommandHandles cb) in *.
  split.
  - (* the handles first *)
    destruct (releaseCommands_survive l st) as (st1 & Hrun & Hb & Hk & Hin & Hout);
      [done| |].
    { intros c Hc. destruct (Hlive c Hc) as (cmd & Hcmd & _).
      exists cmd. split; [done|]. rewrite (Hcmds c cmd Hc Hcmd). lia. }
    assert (∃ st2, urCommandBufferReleaseExp h st1 =
                     Returns (UR_RESULT_SUCCESS, st2) ∧ freed st h l st2)
      as (st2 & Hrelease & Hfreed);
      [|exists st1, st2; split; [done|]; split; [done|]; split; [|done];
        intros c Hc; destruct (Hlive c Hc) as (cmd & Hcmd & _);
        rewrite (Hin c cmd Hc Hcmd); by eexists].
    unfold urCommandBufferReleaseExp. rewrite Hb, Hh. simpl.
    rewrite bool_decide_true by lia.
    set (cb0 := decrementExternalReferenceCount cb).
    set (st0 := set_buffers (<[h := cb0]> (buffers st)) st1).
    destruct (releaseCommandHandles_spec h l st0 cb0)
      as (st2 & Hrun2 & Hin2 & Hout2 & Hk2 & Hb2);
      [done| |by (simpl; rewrite lookup_insert_eq)|simpl; lia|].
    { intros c Hc. destruct (Hlive c Hc) as (cmd & Hcmd & Hp).
      eexists. split; [simpl; by apply Hin|done]. }
    change (CommandHandles cb) with l. rewrite Hrun2. simpl.
    assert (∀ c, c ∈ l → commands st2 !! c = None) as Hgone.
    { intros c Hc. destruct (Hlive c Hc) as (cmd & Hcmd & Hp).
      rewrite (Hin2 c Hc). simpl. rewrite (Hin c cmd Hc Hcmd). simpl.
      unfold drop_internal. simpl.
      rewrite bool_decide_false; [done|]. rewrite (Hcmds c cmd Hc Hcmd). lia. }
    rewrite (live_commands_none st2 l Hgone) in Hb2. simpl in Hb2.
    match type of Hb2 with _ = <[h := ?x]> _ => set (cb1 := x) in * end.
    rewrite (commandBufferReleaseInternal_spec _ _ cb1)
      by (rewrite Hb2; by rewrite lookup_insert_eq).
    rewrite decide_True by (simpl; lia).
    eexists. split; [reflexivity|]. split; [|split; [|split]]; simpl.
    + rewrite Hb2. simpl. by rewrite !delete_insert_eq.
    + done.
    + intros c Hc. rewrite (Hout2 c Hc). simpl. by apply Hout.
    + by rewrite Hk2.
  - (* the buffer first *)
    unfold urCommandBufferReleaseExp. rewrite Hh. simpl.
    rewrite bool_decide_true by lia.
    set (cb0 := decrementExternalReferenceCount cb).
    set (st0 := set_buffers (<[h := cb0]> (buffers st)) st).
    destruct (releaseCommandHandles_spec h l st0 cb0)
      as (st1 & Hrun1 & Hin1 & Hout1 & Hk1 & Hb1);
      [done|done|by (simpl; rewrite lookup_insert_eq)|simpl; lia|].
    change (CommandHandles cb) with l. rewrite Hrun1. simpl.
    assert (∀ c, c ∈ l → ∃ cmd,
              commands st !! c = Some cmd ∧ Command.CommandBuffer cmd = h ∧
              commands st1 !! c =
                Some (set_command_ref_counts 1 (Command.RefCountExternal cmd) cmd))
      as Hkept.
    { intros c Hc. destruct (Hlive c Hc) as (cmd & Hcmd & Hp).
      exists cmd. split; [done|]. split; [done|].
      rewrite (Hin1 c Hc). simpl. rewrite Hcmd. simpl. unfold drop_internal.
      rewrite (Hcmds c cmd Hc Hcmd). by rewrite bool_decide_true by lia. }
    rewrite (live_commands_all st1 l) in Hb1
      by (intros c Hc; destruct (Hkept c Hc) as (cmd & _ & _ & ->); by eexists).
    simpl in Hb1.
    match type of Hb1 with _ = <[h := ?x]> _ => set (cb1 := x) in * end.
    rewrite (commandBufferReleaseInternal_spec _ _ cb1)
      by (rewrite Hb1; by rewrite lookup_insert_eq).
    simpl.
    destruct l as [|c0 l0] eqn:Hl.
    + (* no handles: the buffer goes at once *)
      rewrite decide_True by (simpl in *; lia).
      eexists _, _. split; [reflexivity|]. split; [done|].
      split; [intros c Hc; by apply elem_of_nil in Hc|].
      split; [reflexivity|]. split; [|split; [|split]]; simpl.
      * rewrite Hb1. simpl. by rewrite !delete_insert_eq.
      * intros c Hc. by apply elem_of_nil in Hc.
      * intros c Hc. by apply Hout1.
      * done.
    + rewrite decide_False by (simpl in *; lia).
      set (cb2 := set_ref_counts (RefCountInternal cb1 - 1) (RefCountExternal cb1) cb1).
      set (st1' := set_buffers (<[h := cb2]> (buffers st1)) st1).
      destruct (releaseCommands_destroy h (c0 :: l0) st1' cb2)
        as (st2 & Hrun2 & Hb2 & Hin2 & Hout2 & Hk2);
        [done|done|by (simpl; rewrite lookup_insert_eq)|simpl in *; lia| |].
      { intros c Hc. destruct (Hkept c Hc) as (cmd & _ & Hp & Hc1).
        eexists. split; [exact Hc1|]. by split. }
      exists st1', st2. split; [done|].
      split; [intros _; simpl; rewrite lookup_insert_eq; by eexists|].
      split; [intros c Hc; destruct (Hkept c Hc) as (cmd & _ & _ & Hc1);
              simpl; rewrite Hc1; by eexists|].
      split; [done|]. split; [|split; [|split]].
      * rewrite Hb2. simpl. rewrite Hb1. simpl. by rewrite !delete_insert_eq.
      * done.
      * intros c Hc. rewrite (Hout2 c Hc). simpl. by apply Hout1.
      * by rewrite Hk2.
Qed.

End ReleasingEverything.

(** ** The pattern-size test *)

(** X11. The bit test [((patternSize & (patternSize - 1)) == 0) &&
    (patternSize > 0)] of the two fills holds exactly for the powers of two:
    for every [size_t] value it is true if and only if the value is
    [2 ^ k] for some [k ≥ 0].  In particular 0 fails it, although
    [0 & (0 - 1)] is 0. *)
Theorem PatternSizeIsValid_iff_power_of_two patternSize :
  0 ≤ patternSize < 2 ^ 64 →
  (PatternSizeIsValid patternSize = true ↔ is_power_of_two patternSize) ∧
  PatternSizeIsValid 0 = false.
Proof.
  intros Hrange. split; [|done]. split.
  - by apply PatternSizeIsValid_power_of_two.
  - by apply power_of_two_PatternSizeIsValid.
Qed.

(** ** The command handle of a kernel launch *)

Section LaunchedCommand.
Context `{Externals}.

Lemma cached_coordinate WorkDim (Ptr : list Z) :
  (1 ≤ WorkDim ≤ 3)%nat →
  (WorkDim ≤ length Ptr)%nat →
  length indeterminate = 3%nat →
  (if bool_decide (WorkDim < 3)%nat
   then memset_zero_from (memcpy_size_t indeterminate Ptr WorkDim) WorkDim
   else memcpy_size_t indeterminate Ptr WorkDim) =
  take WorkDim Ptr ++ replicate (3 - WorkDim)%nat 0.
Proof.
  intros Hdim Hlen Hind. unfold memset_zero_from, memcpy_size_t.
  case_bool_decide.
  - rewrite take_app_le by (rewrite length_take; lia).
    by rewrite take_take, Nat.min_id.
  - assert (WorkDim = 3%nat) as -> by lia.
    rewrite drop_ge by lia. done.
Qed.

(** X12. A successful kernel launch with a non-zero first global size
    creates one command handle.  The handle is new in the heap and the last
    of the buffer's handles; it points back to the buffer and to the kernel;
    its internal count is 2 and its external count 1, and the buffer's
    internal count has grown by one while its external count has not; its
    node is the node the launch has added to the graph, a kernel node with
    the parameters the handle caches, depending on the resolved wait list.
    The handle is handed back only when [phCommand] is not null.  Its cached
    global offset and size are the first [workDim] values given, followed by
    zeros; its cached local size is zero when none was given, and otherwise
    the first [workDim] values given followed by what the rest of the array
    held before. *)
Theorem kernel_launch_creates_a_command_handle h hKernel workDim
    pGlobalWorkOffset pGlobalWorkSize pLocalWorkSize num wl pSyncPoint
    phCommand st cb GlobalWorkSize0 st' SyncPoint Command :
  buffers st !! h = Some cb →
  head pGlobalWorkSize = Some GlobalWorkSize0 →
  GlobalWorkSize0 ≠ 0 →
  urCommandBufferAppendKernelLaunchExp h hKernel workDim pGlobalWorkOffset
    pGlobalWorkSize pLocalWorkSize num wl pSyncPoint phCommand st =
  Returns (UR_RESULT_SUCCESS, st', SyncPoint, Command) →
  ∃ NewCommand c cb' Deps,
    commands st !! NewCommand = None ∧
    commands st' = <[NewCommand := c]> (commands st) ∧
    Command = (if phCommand then Some NewCommand else None) ∧
    buffers st' = <[h := cb']> (buffers st) ∧
    CommandHandles cb' = CommandHandles cb ++ [NewCommand] ∧
    RefCountInternal cb' = RefCountInternal cb + 1 ∧
    RefCountExternal cb' = RefCountExternal cb ∧
    Command.CommandBuffer c = h ∧ Command.Kernel c = hKernel ∧
    Command.WorkDim c = workDim ∧ (1 ≤ workDim ≤ 3)%nat ∧
    Command.RefCountInternal c = 2 ∧ Command.RefCountExternal c = 1 ∧
    Command.Node c = length (HIPGraph cb) ∧
    resolved (SyncPoints cb) (waitListEntries num wl) = Some Deps ∧
    HIPGraph cb' =
      HIPGraph cb ++
      [{| dependencies := Deps;
          payload := hipGraphNodeTypeKernel (Command.Params c) |}] ∧
    (length indeterminate = 3%nat →
     ((workDim ≤ length pGlobalWorkOffset)%nat →
      Command.GlobalWorkOffset c =
      take workDim pGlobalWorkOffset ++ replicate (3 - workDim)%nat 0) ∧
     ((workDim ≤ length pGlobalWorkSize)%nat →
      Command.GlobalWorkSize c =
      take workDim pGlobalWorkSize ++ replicate (3 - workDim)%nat 0) ∧
     (pLocalWorkSize = None → Command.LocalWorkSize c = [0; 0; 0]) ∧
     (∀ l, pLocalWorkSize = Some l →
           Command.LocalWorkSize c = take workDim l ++ drop workDim indeterminate)).
Proof.
  intros Hh Hhead Hnz. unfold urCommandBufferAppendKernelLaunchExp.
  rewrite Hh. simpl.
  destruct (kernels st !! hKernel) as [k|]; simpl; [|done].
  case_bool_decide as Hctx; simpl; [|done].
  case_bool_decide as Hdim1; simpl; [|done].
  case_bool_decide as Hdim2; simpl; [|done].
  destruct (nullWaitListWithEntries num wl); [done|].
  match goal with |- context [withDependencies cb num wl ?f ?k] =>
    destruct (withDependencies_cases cb num wl f k) as [->|(Deps & HDeps & ->)]
  end; [done|].
  rewrite Hhead. simpl.
  rewrite (proj2 (Z.eqb_neq _ _) Hnz).
  match goal with |- context [setKernelParams ?a1 ?a2 ?a3 ?a4 ?a5 ?a6 ?a7 ?a8 ?a9] =>
    destruct (setKernelParams a1 a2 a3 a4 a5 a6 a7 a8 a9) as [[[Result k1] T] B]
  end.
  case_bool_decide; [by intros [= -> _ _ _]|].
  unfold hipGraphAddNode.
  destruct (hipGraphAddNode_error _ _) as [Err|] eqn:Hnative.
  { intros [= -> _ _ _]. exfalso. by eapply hipGraphAddNode_throws_error. }
  assert (commands st !! fresh (dom (commands st)) = None) as Hfresh
    by apply not_elem_of_dom, is_fresh.
  destruct pSyncPoint; intros [= <- <- <-]; simpl;
    (eexists _, _, _, Deps; split; [exact Hfresh|]; split; [reflexivity|];
     split; [reflexivity|]; split; [reflexivity|]; simpl;
     do 6 (split; [done|]); split; [lia|]; do 4 (split; [done|]);
     split; [done|]; intros Hind;
     split; [intros Hlen; by apply cached_coordinate; [lia| |]|];
     split; [intros Hlen; by apply cached_coordinate; [lia| |]|];
     split; [by intros ->|];
     by intros l ->).
Qed.

End LaunchedCommand.

(** ** What an update touches *)

Section UpdateFrame.
Context `{Externals}.

(** X13. An update touches only its command.  Whatever it returns, the
    command buffer of the command keeps its recorded graph, its sync points,
    its command handles, its counts, its context, device and updatable flag;
    the command handle keeps its buffer, kernel, node and counts; no other
    command buffer and no other command handle changes.  When the update
    fails, the command buffer is exactly what it was.  When it succeeds, the
    executable graph differs from the one before only in the node of the
    command, which keeps its dependencies and is now a kernel node with the
    parameters the handle caches. *)
Theorem update_touches_only_its_command hCommand pUpdateKernelLaunch st c cb
    r st' :
  commands st !! hCommand = Some c →
  buffers st !! Command.CommandBuffer c = Some cb →
  urCommandBufferUpdateKernelLaunchExp hCommand pUpdateKernelLaunch st =
  Returns (r, st') →
  ∃ cb' c',
    buffers st' = <[Command.CommandBuffer c := cb']> (buffers st) ∧
    commands st' = <[hCommand := c']> (commands st) ∧
    HIPGraph cb' = HIPGraph cb ∧ SyncPoints cb' = SyncPoints cb ∧
    NextSyncPoint cb' = NextSyncPoint cb ∧
    CommandHandles cb' = CommandHandles cb ∧
    RefCountInternal cb' = RefCountInternal cb ∧
    RefCountExternal cb' = RefCountExternal cb ∧
    Context cb' = Context cb ∧ Device cb' = Device cb ∧
    IsUpdatable cb' = IsUpdatable cb ∧
    Command.CommandBuffer c' = Command.CommandBuffer c ∧
    Command.Kernel c' = Command.Kernel c ∧
    Command.Node c' = Command.Node c ∧
    Command.RefCountInternal c' = Command.RefCountInternal c ∧
    Command.RefCountExternal c' = Command.RefCountExternal c ∧
    (r ≠ UR_RESULT_SUCCESS → cb' = cb) ∧
    (r = UR_RESULT_SUCCESS →
     ∃ GraphExec,
       HIPGraphExec cb = Some GraphExec ∧
       HIPGraphExec cb' =
         Some (alter (fun n => {| dependencies := dependencies n;
                                  payload := hipGraphNodeTypeKernel
                                               (Command.Params c') |})
                 (Command.Node c) GraphExec)).
Proof.
  intros Hc Hcb. unfold urCommandBufferUpdateKernelLaunchExp.
  rewrite Hc. simpl. rewrite Hcb. simpl.
  match goal with |- _ = Returns (r, st') → ?G =>
    assert (∀ (st0 : Heap) c0,
              buffers st0 = buffers st →
              commands st0 = <[hCommand := c0]> (commands st) →
              Command.CommandBuffer c0 = Command.CommandBuffer c →
              Command.Kernel c0 = Command.Kernel c →
              Command.Node c0 = Command.Node c →
              Command.RefCountInternal c0 = Command.RefCountInternal c →
              Command.RefCountExternal c0 = Command.RefCountExternal c →
              ∀ r0, r0 ≠ UR_RESULT_SUCCESS →
              Returns (r0, st0) = Returns (r, st') → G) as Hfail
  end.
  { intros st0 c0 Hb0 Hc0 ? ? ? ? ? r0 Hr0 [= <- <-].
    exists cb, c0. rewrite Hb0. split; [by rewrite insert_id|].
    split; [done|]. do 14 (split; [done|]). split; [done|]. by intros ->. }
  assert (commands st = <[hCommand := c]> (commands st)) as Hsame
    by (by rewrite insert_id).
  destruct (HIPGraphExec cb) as [GraphExec|] eqn:Hexec;
    [|by apply (Hfail st c)].
  destruct (IsUpdatable cb) eqn:Hupd; simpl; [|by apply (Hfail st c)].
  destruct (kernels st !! Command.Kernel c) as [k|]; simpl; [|done].
  match goal with |- context [setKernelArgs ?a k] =>
    pose proof (setKernelArgs_throws_error a k) as Hthrow;
    destruct (setKernelArgs a k) as [[Err|] k1]
  end.
  { apply (Hfail _ c); try done. by intros ->. }
  destruct (_ && _); [by apply (Hfail _ c)|].
  match goal with |- context [setKernelParams ?a1 ?a2 ?a3 ?a4 ?a5 ?a6 ?a7 ?a8 ?a9] =>
    destruct (setKernelParams a1 a2 a3 a4 a5 a6 a7 a8 a9) as [[[Result k2] T] B]
  end.
  case_bool_decide as HResult.
  { intros Heq.
    refine (Hfail _ _ _ _ _ _ _ _ _ _ _ Heq);
      [done|simpl; reflexivity|done|done|done|done|done|done]. }
  match goal with |- context [hipGraphExecKernelNodeSetParams_error ?g ?n ?p] =>
    pose proof (hipGraphExecKernelNodeSetParams_throws_error g n p) as Hthrow2;
    destruct (hipGraphExecKernelNodeSetParams_error g n p) as [Err|]
  end.
  { intros Heq.
    refine (Hfail _ _ _ _ _ _ _ _ _ _ _ Heq);
      [done|simpl; rewrite insert_insert_eq; reflexivity
      |done|done|done|done|done|by intros ->]. }
  intros [= <- <-]. simpl.
  eexists _, _. split; [reflexivity|]. rewrite insert_insert_eq.
  split; [reflexivity|]. do 14 (split; [done|]). split; [done|].
  intros _. by exists GraphExec.
Qed.

End UpdateFrame.

(** ** Enqueueing *)

Section EnqueueFacts.
Context `{QueueExternals}.

(** X14. [urCommandBufferEnqueueExp] hands back an event only when it
    succeeds, and launches the graph only after the wait.  For every call:
    when the result is not success, no event is stored through [phEvent];
    when [phEvent] is null, no event is stored, started or recorded; the
    graph is launched at most once, what is launched is the executable graph
    of the command buffer as it is (there is no check that the buffer was
    finalized), and a launch happens only after [enqueueEventsWait] has
    returned success on the stream of the call; and when the result is
    success the actions on the stream are exactly: the wait, the start of
    the event if one was asked for, the launch, the record of that event,
    and the event stored is that event. *)
Theorem enqueue_launches_after_the_wait hCommandBuffer hQueue
    numEventsInWaitList phEventWaitList phEvent :
  let call :=
    urCommandBufferEnqueueExp hCommandBuffer hQueue numEventsInWaitList
      phEventWaitList phEvent in
  let r := call.1.1 in
  let Event := call.1.2 in
  let actions := call.2 in
  (r ≠ UR_RESULT_SUCCESS → Event = None) ∧
  (phEvent = false →
   Event = None ∧
   ∀ e, (EventStart e ∉ actions) ∧ (EventRecord e ∉ actions)) ∧
  (∀ GraphExec,
     GraphLaunch GraphExec ∈ actions →
     GraphExec = HIPGraphExec hCommandBuffer ∧
     ∃ HIPStream StreamToken before after,
       getNextComputeStream hQueue numEventsInWaitList phEventWaitList =
         inr (HIPStream, StreamToken) ∧
       enqueueEventsWait hQueue HIPStream numEventsInWaitList phEventWaitList =
         UR_RESULT_SUCCESS ∧
       actions =
         EventsWait numEventsInWaitList phEventWaitList ::
         before ++ GraphLaunch GraphExec :: after ∧
       (∀ g, GraphLaunch g ∉ before ++ after)) ∧
  (r = UR_RESULT_SUCCESS →
   ∃ HIPStream StreamToken,
     getNextComputeStream hQueue numEventsInWaitList phEventWaitList =
       inr (HIPStream, StreamToken) ∧
     Event = (if phEvent
              then Some (makeNative hQueue HIPStream StreamToken) else None) ∧
     actions =
       [EventsWait numEventsInWaitList phEventWaitList] ++
       (EventStart <$> option_list Event) ++
       [GraphLaunch (HIPGraphExec hCommandBuffer)] ++
       (EventRecord <$> option_list Event)).
Proof.
  cbv zeta. unfold urCommandBufferEnqueueExp.
  pose proof (ScopedContext_throws_error hQueue) as Hscope.
  destruct (ScopedContext_error hQueue) as [Err|]; simpl.
  { split; [done|]. split; [split; [done|]; intros e; split; apply not_elem_of_nil|].
    split; [intros g Hg; by apply elem_of_nil in Hg|]. by intros ->. }
  pose proof (getNextComputeStream_throws_error hQueue numEventsInWaitList
                phEventWaitList) as Hnext.
  destruct (getNextComputeStream _ _ _) as [Err|[HIPStream StreamToken]]; simpl.
  { split; [done|]. split; [split; [done|]; intros e; split; apply not_elem_of_nil|].
    split; [intros g Hg; by apply elem_of_nil in Hg|]. by intros ->. }
  case_bool_decide as Hwait; simpl.
  { split; [done|]. split.
    { split; [done|]. intros e.
      split; intros He; apply list_elem_of_singleton in He; done. }
    split; [intros g Hg; by apply list_elem_of_singleton in Hg|done]. }
  assert (enqueueEventsWait hQueue HIPStream numEventsInWaitList phEventWaitList
          = UR_RESULT_SUCCESS) as Hwaited
    by (by destruct (decide (enqueueEventsWait hQueue HIPStream
                               numEventsInWaitList phEventWaitList =
                             UR_RESULT_SUCCESS))).
  destruct phEvent; simpl.
  - set (e := makeNative hQueue HIPStream StreamToken).
    pose proof (start_throws_error e) as Hstart.
    destruct (start_error e) as [Err|]; simpl.
    { split; [done|]. split; [done|].
      split; [|by intros ->].
      intros g Hg. apply elem_of_cons in Hg as [?|Hg]; [done|].
      by apply list_elem_of_singleton in Hg. }
    pose proof (hipGraphLaunch_throws_error (HIPGraphExec hCommandBuffer)
                  HIPStream) as Hlaunch.
    destruct (hipGraphLaunch_error _ _) as [Err|]; simpl.
    { split; [done|]. split; [done|]. split; [|by intros ->].
      intros g Hg.
      apply elem_of_cons in Hg as [?|Hg]; [done|].
      apply elem_of_cons in Hg as [?|Hg]; [done|].
      apply list_elem_of_singleton in Hg as [= ->]. split; [done|].
      exists HIPStream, StreamToken, [EventStart e], [].
      split; [done|]. split; [done|]. split; [done|].
      intros g Hg. apply list_elem_of_singleton in Hg. done. }
    pose proof (record_throws_error e) as Hrecord.
    destruct (record_error e) as [Err|]; simpl.
    + split; [done|]. split; [done|]. split; [|by intros ->].
      intros g Hg.
      apply elem_of_cons in Hg as [?|Hg]; [done|].
      apply elem_of_cons in Hg as [?|Hg]; [done|].
      apply elem_of_cons in Hg as [[= ->]|Hg];
        [|by apply list_elem_of_singleton in Hg].
      split; [done|].
      exists HIPStream, StreamToken, [EventStart e], [EventRecord e].
      split; [done|]. split; [done|]. split; [done|].
      intros g Hg. apply elem_of_cons in Hg as [?|Hg]; [done|].
      by apply list_elem_of_singleton in Hg.
    + split; [by rewrite Hwaited|]. split; [done|]. split.
      * intros g Hg.
        apply elem_of_cons in Hg as [?|Hg]; [done|].
        apply elem_of_cons in Hg as [?|Hg]; [done|].
        apply elem_of_cons in Hg as [[= ->]|Hg];
          [|by apply list_elem_of_singleton in Hg].
        split; [done|].
        exists HIPStream, StreamToken, [EventStart e], [EventRecord e].
        split; [done|]. split; [done|]. split; [done|].
        intros g Hg. apply elem_of_cons in Hg as [?|Hg]; [done|].
        by apply list_elem_of_singleton in Hg.
      * intros _. by exists HIPStream, StreamToken.
  - pose proof (hipGraphLaunch_throws_error (HIPGraphExec hCommandBuffer)
                  HIPStream) as Hlaunch.
    destruct (hipGraphLaunch_error _ _) as [Err|]; simpl.
    + split; [done|]. split.
      { split; [done|]. intros e. split; intros He;
          (apply elem_of_cons in He as [?|He]; [done|]);
          by apply list_elem_of_singleton in He. }
      split; [|by intros ->].
      intros g Hg. apply elem_of_cons in Hg as [?|Hg]; [done|].
      apply list_elem_of_singleton in Hg as [= ->]. split; [done|].
      exists HIPStream, StreamToken, [], [].
      split; [done|]. split; [done|]. split; [done|].
      intros g. apply not_elem_of_nil.
    + split; [done|]. split.
      { split; [done|]. intros e. split; intros He;
          (apply elem_of_cons in He as [?|He]; [done|]);
          by apply list_elem_of_singleton in He. }
      split.
      * intros g Hg. apply elem_of_cons in Hg as [?|Hg]; [done|].
        apply list_elem_of_singleton in Hg as [= ->]. split; [done|].
        exists HIPStream, StreamToken, [], [].
        split; [done|]. split; [done|]. split; [done|].
        intros g. apply not_elem_of_nil.
      * intros _. by exists HIPStream, StreamToken.
Qed.

End EnqueueFacts.

(** ** A fill is not all-or-nothing *)

Section HalfAFill.
Context `{Externals}.

(** X15. A fill with a pattern wider than 4 bytes can fail half way.  When
    the native graph accepts the 4-byte node of the fill and then refuses
    the node for the fifth byte of the pattern, the call returns the error
    of the refusal, yet the 4-byte node stays in the graph, registered under
    a sync point, and that sync point is the one stored through
    [pSyncPoint]. *)
Theorem wide_fill_can_fail_half_way fuel cb DstDevice DstType Pattern
    PatternSize Size num wl Deps Err :
  4 < PatternSize →
  (1 ≤ fuel)%nat →
  resolved (SyncPoints cb) (waitListEntries num wl) = Some Deps →
  hipGraphAddNode_error (HIPGraph cb)
    {| dependencies := Deps;
       payload :=
         hipGraphNodeTypeMemset
           {| dst := DstDevice; elementSize := 4; height := Size / 4;
              pitch := 4; value := read_uint32 Pattern; width := 1 |} |} = None →
  hipGraphAddNode_error
    (HIPGraph cb ++
     [{| dependencies := Deps;
         payload :=
           hipGraphNodeTypeMemset
             {| dst := DstDevice; elementSize := 4; height := Size / 4;
                pitch := 4; value := read_uint32 Pattern; width := 1 |} |}])
    (byte_node DstDevice Pattern PatternSize Size (length (HIPGraph cb)) 4) =
    Some Err →
  enqueueCommandBufferFillHelper fuel cb DstDevice DstType Pattern PatternSize
    Size num wl =
  Returns (Err,
           with_node Deps
             (hipGraphNodeTypeMemset
                {| dst := DstDevice; elementSize := 4; height := Size / 4;
                   pitch := 4; value := read_uint32 Pattern; width := 1 |}) cb,
           Some (NextSyncPoint cb)) ∧
  Err ≠ UR_RESULT_SUCCESS.
Proof.
  intros Hwide Hfuel HDeps Hfirst Hsecond.
  split; [|intros ->; by eapply hipGraphAddNode_throws_error].
  unfold enqueueCommandBufferFillHelper.
  rewrite (withDependencies_resolved _ _ _ _ _ Deps HDeps).
  rewrite (proj2 (Z.eqb_neq PatternSize 0)) by lia.
  rewrite (proj2 (Z.eqb_neq PatternSize 1)) by lia.
  rewrite (proj2 (Z.eqb_neq PatternSize 2)) by lia.
  rewrite (proj2 (Z.eqb_neq PatternSize 4)) by lia.
  cbn [orb]. unfold hipGraphAddNode at 1. rewrite Hfirst.
  rewrite addSyncPoint_with_node. rewrite Z.div_1_r.
  destruct fuel as [|fuel]; [lia|]. cbn [fillSteps].
  rewrite (proj2 (Z.ltb_lt 4 PatternSize)) by lia.
  unfold hipGraphAddNode. rewrite NodeParamsStep_byte_node.
  change (HIPGraph (with_node ?d ?w cb)) with
    (HIPGraph cb ++ [{| dependencies := d; payload := w |}]).
  by rewrite Hsecond.
Qed.

End HalfAFill.

(** ** The bounds check of a buffer copy *)

Section CopyBounds.
Context `{Externals}.

(** X16. The bounds check of [urCommandBufferAppendMemBufferCopyExp] is made
    in [size_t] arithmetic.  When [size + dstOffset] and [size + srcOffset]
    exceed [2 ^ 64 - 1], the check compares the sums less [2 ^ 64] with the
    buffer sizes; if those are within the buffers the copy is recorded, with
    its full [size], although both ranges end behind their buffers. *)
Theorem buffer_copy_bounds_wrap_around cb hSrcMem hDstMem srcOffset dstOffset
    size num wl Deps :
  0 ≤ size < 2 ^ 64 → 0 ≤ srcOffset < 2 ^ 64 → 0 ≤ dstOffset < 2 ^ 64 →
  2 ^ 64 ≤ size + dstOffset → 2 ^ 64 ≤ size + srcOffset →
  size + dstOffset - 2 ^ 64 ≤ getSize hDstMem < 2 ^ 64 →
  size + srcOffset - 2 ^ 64 ≤ getSize hSrcMem < 2 ^ 64 →
  nullWaitListWithEntries num wl = false →
  resolved (SyncPoints cb) (waitListEntries num wl) = Some Deps →
  hipGraphAddNode_error (HIPGraph cb)
    {| dependencies := Deps;
       payload :=
         hipGraphNodeTypeMemcpy1D
           (getPtrWithOffset hDstMem (Device cb) dstOffset)
           (getPtrWithOffset hSrcMem (Device cb) srcOffset) size
           hipMemcpyDeviceToDevice |} = None →
  urCommandBufferAppendMemBufferCopyExp cb hSrcMem hDstMem srcOffset dstOffset
    size num wl =
  (UR_RESULT_SUCCESS,
   with_node Deps
     (hipGraphNodeTypeMemcpy1D
        (getPtrWithOffset hDstMem (Device cb) dstOffset)
        (getPtrWithOffset hSrcMem (Device cb) srcOffset) size
        hipMemcpyDeviceToDevice) cb,
   Some (NextSyncPoint cb)) ∧
  getSize hDstMem < size + dstOffset ∧ getSize hSrcMem < size + srcOffset.
Proof.
  intros Hsize Hsrc Hdst Hwrapd Hwraps Hind Hins Hnull HDeps Hnative.
  split; [|lia].
  unfold urCommandBufferAppendMemBufferCopyExp. rewrite Hnull.
  assert (wrap_size_t (size + dstOffset) = size + dstOffset - 2 ^ 64) as ->.
  { unfold wrap_size_t. symmetry. apply (Z.mod_unique_pos _ _ 1); lia. }
  assert (wrap_size_t (size + srcOffset) = size + srcOffset - 2 ^ 64) as ->.
  { unfold wrap_size_t. symmetry. apply (Z.mod_unique_pos _ _ 1); lia. }
  rewrite (proj2 (Z.leb_le _ _)) by lia. simpl.
  rewrite (proj2 (Z.leb_le _ _)) by lia. simpl.
  rewrite (withDependencies_resolved _ _ _ _ _ Deps HDeps).
  unfold addNodeAndSyncPoint, hipGraphAddNode. rewrite Hnative.
  by rewrite addSyncPoint_with_node.
Qed.

End CopyBounds.

(** ** A launch of size zero *)

Section EmptyLaunch.
Context `{Externals}.

(** X17. A kernel launch whose first global size is 0 records an empty node
    and nothing else.  When its own checks pass, the wait list resolves and
    the native graph accepts the node, the call returns success, the graph
    has one more node, empty, that depends on the resolved nodes, and the
    buffer's next sync point names it and is stored through [pSyncPoint];
    no command handle is created, nothing is stored through [phCommand]
    even when it is not null, and the kernel is not touched.  The sync-point
    pointer is written without a null test: with a null [pSyncPoint] the
    call has no defined behaviour. *)
Theorem zero_sized_launch_records_an_empty_node h hKernel workDim
    pGlobalWorkOffset rest pLocalWorkSize num wl pSyncPoint phCommand st cb k
    Deps :
  buffers st !! h = Some cb →
  kernels st !! hKernel = Some k →
  Context cb = getContext k →
  (1 ≤ workDim ≤ 3)%nat →
  nullWaitListWithEntries num wl = false →
  resolved (SyncPoints cb) (waitListEntries num wl) = Some Deps →
  hipGraphAddNode_error (HIPGraph cb)
    {| dependencies := Deps; payload := hipGraphNodeTypeEmpty |} = None →
  urCommandBufferAppendKernelLaunchExp h hKernel workDim pGlobalWorkOffset
    (0 :: rest) pLocalWorkSize num wl pSyncPoint phCommand st =
  if pSyncPoint
  then Returns (UR_RESULT_SUCCESS,
                set_buffers
                  (<[h := with_node Deps hipGraphNodeTypeEmpty cb]> (buffers st))
                  st,
                Some (NextSyncPoint cb), None)
  else Undefined.
Proof.
  intros Hh Hk Hctx Hdim Hnull HDeps Hnative.
  unfold urCommandBufferAppendKernelLaunchExp. rewrite Hh. simpl.
  rewrite Hk. simpl.
  rewrite bool_decide_eq_true_2 by done. simpl.
  rewrite bool_decide_eq_true_2 by lia. simpl.
  rewrite bool_decide_eq_true_2 by lia. simpl.
  rewrite Hnull.
  rewrite (withDependencies_resolved _ _ _ _ _ Deps HDeps). simpl.
  unfold hipGraphAddNode. rewrite Hnative. by destruct pSyncPoint.
Qed.

End EmptyLaunch.

(** ** An update with a bad work dimension *)

Section UpdateOrder.
Context `{Externals}.

Lemma setKernelArgs_app Args1 Args2 Kernel :
  setKernelArgs (Args1 ++ Args2) Kernel =
  match setKernelArgs Args1 Kernel with
  | (Some Err, Kernel) => (Some Err, Kernel)
  | (None, Kernel) => setKernelArgs Args2 Kernel
  end.
Proof.
  revert Kernel. induction Args1 as [|[[i s] a] Args1 IH]; intros Kernel; [done|].
  simpl. destruct (setKernelArg i s a Kernel) as [[Err|] Kernel1]; [done|].
  apply IH.
Qed.

(** X18. An update validates the new work dimension only after it has set
    the kernel arguments.  On a finalized, updatable buffer, the arguments
    of the update are passed to [setKernelArg] one by one, the pointer
    arguments first, then the memory objects, then the values, and the first
    call that throws ends the update with the error thrown.  A new work
    dimension above 3 is rejected with
    [UR_RESULT_ERROR_INVALID_WORK_DIMENSION] when all those calls have
    passed, so the kernel then holds the new arguments although the update
    has failed; the command handle and the command buffer are unchanged. *)
Theorem update_sets_arguments_before_it_checks_the_dimension hCommand
    pUpdateKernelLaunch st c cb GraphExec k :
  commands st !! hCommand = Some c →
  buffers st !! Command.CommandBuffer c = Some cb →
  HIPGraphExec cb = Some GraphExec →
  IsUpdatable cb = true →
  kernels st !! Command.Kernel c = Some k →
  (4 ≤ newWorkDim pUpdateKernelLaunch)%nat →
  let Args := new_kernel_arguments (Device cb) pUpdateKernelLaunch in
  urCommandBufferUpdateKernelLaunchExp hCommand pUpdateKernelLaunch st =
  Returns
    (default UR_RESULT_ERROR_INVALID_WORK_DIMENSION (setKernelArgs Args k).1,
     set_kernels (<[Command.Kernel c := (setKernelArgs Args k).2]> (kernels st))
       st) ∧
  default UR_RESULT_ERROR_INVALID_WORK_DIMENSION (setKernelArgs Args k).1 ≠
    UR_RESULT_SUCCESS ∧
  ∀ Before ArgIndex ArgSize Arg After Err,
    Args = Before ++ (ArgIndex, ArgSize, Arg) :: After →
    (setKernelArgs Before k).1 = None →
    (setKernelArg ArgIndex ArgSize Arg (setKernelArgs Before k).2).1 = Some Err →
    setKernelArgs Args k =
    (Some Err, (setKernelArg ArgIndex ArgSize Arg (setKernelArgs Before k).2).2).
Proof.
  intros Hc Hcb Hexec Hupd Hk Hdim Args.
  pose proof (setKernelArgs_throws_error Args k) as Hthrow.
  split; [|split].
  - unfold urCommandBufferUpdateKernelLaunchExp.
    rewrite Hc. simpl. rewrite Hcb. simpl. rewrite Hexec, Hupd. simpl.
    rewrite Hk. simpl. fold (new_kernel_arguments (Device cb) pUpdateKernelLaunch).
    fold Args. destruct (setKernelArgs Args k) as [[Err|] k1]; [done|].
    rewrite bool_decide_eq_true_2 by lia.
    rewrite bool_decide_eq_false_2 by lia. done.
  - destruct (setKernelArgs Args k) as [[Err|] k1]; simpl; [|done].
    intros ->. done.
  - intros Before ArgIndex ArgSize Arg After Err -> Hbefore Hthis.
    rewrite setKernelArgs_app.
    destruct (setKernelArgs Before k) as [[Err0|] k0]; [done|]. simpl in *.
    destruct (setKernelArg ArgIndex ArgSize Arg k0) as [[Err1|] k1];
      simpl in *; by simplify_eq.
Qed.

End UpdateOrder.

(** ** What a fill writes *)

Lemma read_uint8_range Pattern at_ :
  Forall (fun b => 0 ≤ b < 256) Pattern → 0 ≤ read_uint8 Pattern at_ < 256.
Proof.
  intros Hbytes. unfold read_uint8.
  destruct (decide (Z.to_nat at_ < length Pattern)%nat) as [Hin|Hout].
  - rewrite Forall_forall in Hbytes. apply Hbytes.
    apply list_elem_of_In. by apply nth_In.
  - rewrite nth_overflow by lia. lia.
Qed.

Lemma byte_of_uint32 b0 b1 b2 b3 i :
  0 ≤ b0 < 256 → 0 ≤ b1 < 256 → 0 ≤ b2 < 256 → 0 ≤ b3 < 256 →
  0 ≤ i < 4 →
  ((b0 + 2 ^ 8 * b1 + 2 ^ 16 * b2 + 2 ^ 24 * b3) / 2 ^ (8 * i)) mod 2 ^ 8 =
  if i =? 0 then b0 else if i =? 1 then b1 else if i =? 2 then b2 else b3.
Proof.
  intros H0 H1 H2 H3 Hi.
  assert (i = 0 ∨ i = 1 ∨ i = 2 ∨ i = 3) as [->|[->|[->| ->]]] by lia; simpl;
    change (2 ^ 8) with 256; change (2 ^ 16) with 65536;
    change (2 ^ 24) with 16777216; change (2 ^ 0) with 1;
    Z.div_mod_to_equations; lia.
Qed.

Lemma memset_byte_contiguous D e h v addr :
  0 < e → 0 ≤ h →
  memset_byte {| dst := D; elementSize := e; height := h; pitch := e;
                 value := v; width := 1 |} addr =
  if (D <=? addr) && (addr <? D + e * h)
  then Some ((v / 2 ^ (8 * ((addr - D) mod e))) mod 2 ^ 8)
  else None.
Proof.
  intros He Hh. unfold memset_byte. simpl.
  rewrite Z.mod_mod by lia.
  destruct (Z.leb_spec D addr) as [Hlow|Hlow];
    [rewrite (proj2 (Z.leb_le 0 (addr - D))) by lia
    |rewrite (proj2 (Z.leb_gt 0 (addr - D))) by lia; done].
  simpl.
  assert (((addr - D) mod e <? 1 * e) = true) as ->.
  { apply Z.ltb_lt. pose proof (Z.mod_pos_bound (addr - D) e He). lia. }
  rewrite andb_true_r.
  destruct (Z.ltb_spec addr (D + e * h)) as [Hhigh|Hhigh].
  - rewrite (proj2 (Z.ltb_lt _ _)); [done|].
    apply Z.div_lt_upper_bound; lia.
  - rewrite (proj2 (Z.ltb_ge _ _)); [done|].
    apply Z.div_le_lower_bound; lia.
Qed.

Lemma memset_byte_strided D P H v addr :
  0 < P →
  memset_byte {| dst := D; elementSize := 1; height := H; pitch := P;
                 value := v; width := 1 |} addr =
  if (D <=? addr) && ((addr - D) / P <? H) && ((addr - D) mod P =? 0)
  then Some (v mod 2 ^ 8)
  else None.
Proof.
  intros HP. unfold memset_byte. simpl.
  rewrite Z.mod_1_r. simpl. rewrite Z.div_1_r.
  pose proof (Z.mod_pos_bound (addr - D) P HP).
  replace (0 <=? addr - D) with (D <=? addr)
    by (destruct (Z.leb_spec D addr), (Z.leb_spec 0 (addr - D)); lia).
  replace ((addr - D) mod P <? 1 * 1) with ((addr - D) mod P =? 0)
    by (destruct (Z.eqb_spec ((addr - D) mod P) 0),
                 (Z.ltb_spec ((addr - D) mod P) (1 * 1)); lia).
  done.
Qed.

Section FillMemory.

Variables (m : Z → Z) (Dst : Z) (Pattern : list Z) (PatternSize Size : Z).
Hypothesis Hbytes : Forall (fun b => 0 ≤ b < 256) Pattern.

Lemma run_small_fill deps :
  PatternSize = 1 ∨ PatternSize = 2 ∨ PatternSize = 4 →
  0 ≤ Size → Size mod PatternSize = 0 →
  ∀ addr,
    run_node
      {| dependencies := deps;
         payload :=
           hipGraphNodeTypeMemset
             {| dst := Dst; elementSize := PatternSize;
                height := Size / PatternSize; pitch := PatternSize;
                value :=
                  if PatternSize =? 1 then read_uint8 Pattern 0
                  else if PatternSize =? 2 then read_uint16 Pattern
                  else read_uint32 Pattern;
                width := 1 |} |} m addr =
    filled m Dst Pattern PatternSize Size addr.
Proof.
  intros HP HSize Hmul addr. unfold run_node, filled. simpl.
  assert (0 < PatternSize) as Hpos by lia.
  rewrite memset_byte_contiguous
    by (try done; apply Z.div_pos; lia).
  assert (PatternSize * (Size / PatternSize) = Size) as ->.
  { rewrite (Z.div_mod Size PatternSize) at 2 by lia. lia. }
  destruct ((Dst <=? addr) && (addr <? Dst + Size)); [|done]. simpl.
  pose proof (Z.mod_pos_bound (addr - Dst) PatternSize Hpos) as Hcol.
  set (col := (addr - Dst) mod PatternSize) in *.
  pose proof (read_uint8_range Pattern 0 Hbytes) as H0.
  pose proof (read_uint8_range Pattern 1 Hbytes) as H1.
  pose proof (read_uint8_range Pattern 2 Hbytes) as H2.
  pose proof (read_uint8_range Pattern 3 Hbytes) as H3.
  destruct HP as [->|[->| ->]]; simpl.
  - assert (col = 0) as -> by lia. simpl. rewrite Z.div_1_r.
    apply Z.mod_small. done.
  - unfold read_uint16.
    pose proof (byte_of_uint32 (read_uint8 Pattern 0) (read_uint8 Pattern 1) 0 0
                  col H0 H1) as Hbyte.
    rewrite !Z.mul_0_r, !Z.add_0_r in Hbyte. rewrite Hbyte by lia.
    assert (col = 0 ∨ col = 1) as [->| ->] by lia; done.
  - unfold read_uint32.
    rewrite (byte_of_uint32 _ _ _ _ col H0 H1 H2 H3) by lia.
    assert (col = 0 ∨ col = 1 ∨ col = 2 ∨ col = 3) as [->|[->|[->| ->]]] by lia;
      done.
Qed.

Lemma run_first_node deps :
  0 ≤ Size → 4 * (Size / 4) = Size → 0 < PatternSize →
  ∀ addr,
    run_node
      {| dependencies := deps;
         payload :=
           hipGraphNodeTypeMemset
             {| dst := Dst; elementSize := 4; height := Size / 4; pitch := 4;
                value := read_uint32 Pattern; width := 1 |} |} m addr =
    filled_up_to m Dst Pattern PatternSize Size 4 addr.
Proof.
  intros HSize Hcover HP addr. unfold run_node, filled_up_to. simpl.
  rewrite memset_byte_contiguous by (try done; apply Z.div_pos; lia).
  rewrite Hcover.
  destruct ((Dst <=? addr) && (addr <? Dst + Size)); [|done]. simpl.
  assert ((4 <=? (addr - Dst) mod PatternSize) &&
          ((addr - Dst) mod PatternSize <? 4) = false) as ->.
  { destruct (Z.leb_spec 4 ((addr - Dst) mod PatternSize)),
             (Z.ltb_spec ((addr - Dst) mod PatternSize) 4); try done. lia. }
  pose proof (Z.mod_pos_bound (addr - Dst) 4 eq_refl) as Hcol.
  set (col := (addr - Dst) mod 4) in *.
  unfold read_uint32.
  rewrite (byte_of_uint32 _ _ _ _ col
             (read_uint8_range Pattern 0 Hbytes) (read_uint8_range Pattern 1 Hbytes)
             (read_uint8_range Pattern 2 Hbytes) (read_uint8_range Pattern 3 Hbytes))
    by lia.
  assert (col = 0 ∨ col = 1 ∨ col = 2 ∨ col = 3) as [->|[->|[->| ->]]] by lia;
    done.
Qed.

Lemma byte_node_writes Step addr :
  4 ≤ Step < PatternSize → 0 ≤ Size → Size mod PatternSize = 0 →
  (Dst + Step <=? addr) &&
  ((addr - (Dst + Step)) / PatternSize <? Size / PatternSize) &&
  ((addr - (Dst + Step)) mod PatternSize =? 0) =
  (Dst <=? addr) && (addr <? Dst + Size) &&
  ((addr - Dst) mod PatternSize =? Step).
Proof.
  intros HStep HSize Hmul.
  assert (0 < PatternSize) as HP by lia.
  assert (Size = PatternSize * (Size / PatternSize)) as HSizeP.
  { rewrite (Z.div_mod Size PatternSize) at 1 by lia. lia. }
  assert (0 ≤ Size / PatternSize) as Hrows by (apply Z.div_pos; lia).
  set (rows := Size / PatternSize) in *.
  set (j := addr - Dst).
  replace (addr - (Dst + Step)) with (j - Step) by (unfold j; lia).
  assert (addr = Dst + j) as Haddr by (unfold j; lia).
  clearbody j. subst addr.
  pose proof (Z.div_mod (j - Step) PatternSize ltac:(lia)) as Hoff.
  pose proof (Z.mod_pos_bound (j - Step) PatternSize HP) as Hoffr.
  pose proof (Z.div_mod j PatternSize ltac:(lia)) as Hj.
  pose proof (Z.mod_pos_bound j PatternSize HP) as Hjr.
  set (q' := (j - Step) / PatternSize) in *.
  set (r' := (j - Step) mod PatternSize) in *.
  set (q := j / PatternSize) in *.
  set (r := j mod PatternSize) in *.
  destruct (Z.eqb_spec r' 0) as [Hr'|Hr'].
  - (* the address is [Step] bytes into a period *)
    assert (r = Step ∧ q = q') as [Hr Hq].
    { assert (j = PatternSize * q' + Step) as Hj' by lia.
      assert (q = q') by nia. split; [nia|done]. }
    rewrite (proj2 (Z.eqb_eq r Step) Hr). rewrite !andb_true_r.
    destruct (Z.leb_spec (Dst + Step) (Dst + j)) as [Hlow|Hlow]; simpl.
    + rewrite (proj2 (Z.leb_le Dst (Dst + j))) by lia. simpl.
      destruct (Z.ltb_spec q' rows), (Z.ltb_spec (Dst + j) (Dst + Size));
        try done; nia.
    + destruct (Z.leb_spec Dst (Dst + j)); simpl; [|done].
      destruct (Z.ltb_spec (Dst + j) (Dst + Size)); [|done].
      assert (q < 0) by nia. nia.
  - rewrite !andb_false_r.
    destruct (Z.eqb_spec r Step) as [Hr|Hr]; [|by rewrite andb_false_r].
    exfalso. apply Hr'.
    assert (j - Step = PatternSize * q + 0) as Hdiv by lia.
    unfold r'. rewrite Hdiv. rewrite Z.add_0_r, Z.mul_comm.
    apply Z.mod_mul. lia.
Qed.

Lemma run_byte_node previous Step (m1 : Z → Z) :
  4 ≤ Step < PatternSize → 0 ≤ Size → Size mod PatternSize = 0 →
  (∀ addr, m1 addr = filled_up_to m Dst Pattern PatternSize Size Step addr) →
  ∀ addr,
    run_node (byte_node Dst Pattern PatternSize Size previous Step) m1 addr =
    filled_up_to m Dst Pattern PatternSize Size (Step + 1) addr.
Proof.
  intros HStep HSize Hmul Hm1 addr. unfold run_node, byte_node. simpl.
  rewrite memset_byte_strided by lia.
  rewrite byte_node_writes by done.
  rewrite Hm1. unfold filled_up_to.
  destruct ((Dst <=? addr) && (addr <? Dst + Size)); simpl; [|done].
  destruct (Z.eqb_spec ((addr - Dst) mod PatternSize) Step) as [->|Hne]; simpl.
  - rewrite (proj2 (Z.leb_le 4 Step)) by lia.
    rewrite (proj2 (Z.ltb_lt Step (Step + 1))) by lia. simpl.
    apply Z.mod_small. apply (read_uint8_range Pattern Step Hbytes).
  - destruct (Z.leb_spec 4 ((addr - Dst) mod PatternSize)); simpl; [|done].
    destruct (Z.ltb_spec ((addr - Dst) mod PatternSize) Step),
             (Z.ltb_spec ((addr - Dst) mod PatternSize) (Step + 1));
      try done; lia.
Qed.

Lemma run_byte_chain (n : nat) :
  ∀ previous Step (m1 : Z → Z),
    4 ≤ Step → Step + Z.of_nat n = PatternSize →
    0 ≤ Size → Size mod PatternSize = 0 →
    (∀ addr, m1 addr = filled_up_to m Dst Pattern PatternSize Size Step addr) →
    ∀ addr,
      run_nodes (byte_chain Dst Pattern PatternSize Size previous Step n) m1 addr =
      filled_up_to m Dst Pattern PatternSize Size PatternSize addr.
Proof.
  induction n as [|n IH]; intros previous Step m1 HStep Hend HSize Hmul Hm1 addr.
  - simpl. rewrite Hm1. by replace Step with PatternSize by lia.
  - rewrite byte_chain_S. simpl.
    apply IH; [lia|lia|done|done|].
    apply run_byte_node; [lia|done|done|done].
Qed.

Lemma filled_up_to_the_end addr :
  0 < PatternSize → (4 | PatternSize) →
  filled_up_to m Dst Pattern PatternSize Size PatternSize addr =
  filled m Dst Pattern PatternSize Size addr.
Proof.
  intros HP Hdiv. unfold filled_up_to, filled.
  destruct ((Dst <=? addr) && (addr <? Dst + Size)); [|done].
  pose proof (Z.mod_pos_bound (addr - Dst) PatternSize HP) as Hr.
  rewrite (proj2 (Z.ltb_lt _ _)) by lia. rewrite andb_true_r.
  destruct (Z.leb_spec 4 ((addr - Dst) mod PatternSize)); [done|].
  rewrite <- (Z.mod_mod_divide (addr - Dst) PatternSize 4) by done.
  by rewrite (Z.mod_small ((addr - Dst) mod PatternSize) 4) by lia.
Qed.

End FillMemory.

Lemma power_of_two_cases P :
  is_power_of_two P → P = 1 ∨ P = 2 ∨ P = 4 ∨ (4 < P ∧ (4 | P)).
Proof.
  intros (k & Hk & ->).
  destruct (decide (k < 3)) as [Hsmall|Hbig].
  - assert (k = 0 ∨ k = 1 ∨ k = 2) as [->|[->| ->]] by lia; tauto.
  - right. right. right.
    replace k with (k - 2 + 2) by lia. rewrite Z.pow_add_r by lia.
    assert (2 ^ 1 ≤ 2 ^ (k - 2)) by (apply Z.pow_le_mono_r; lia).
    change (2 ^ 2) with 4. change (2 ^ 1) with 2 in *.
    split; [lia|]. by apply Z.divide_factor_r.
Qed.

Section FillWrites.
Context `{Externals}.

(** The fill helper: the nodes it adds, run in order, write the pattern over
    the region. *)
Lemma enqueueCommandBufferFillHelper_writes_the_pattern fuel cb DstDevice
    DstType Pattern PatternSize Size num wl Deps (m : Z → Z) :
  (∀ g node, hipGraphAddNode_error g node = None) →
  registry_wf cb →
  resolved (SyncPoints cb) (waitListEntries num wl) = Some Deps →
  is_power_of_two PatternSize → PatternSize < 2 ^ 32 →
  0 ≤ Size → Size mod PatternSize = 0 →
  Forall (fun b => 0 ≤ b < 256) Pattern →
  (Z.to_nat PatternSize ≤ fuel)%nat →
  ∃ cb' SyncPoint nodes,
    enqueueCommandBufferFillHelper fuel cb DstDevice DstType Pattern
      PatternSize Size num wl =
      Returns (UR_RESULT_SUCCESS, cb', Some SyncPoint) ∧
    HIPGraph cb' = HIPGraph cb ++ nodes ∧
    ∀ addr,
      run_nodes nodes m addr = filled m DstDevice Pattern PatternSize Size addr.
Proof.
  intros Hok Hwf HDeps Hpow Hsmall HSize Hmul Hbytes Hfuel.
  unfold enqueueCommandBufferFillHelper.
  rewrite (withDependencies_resolved _ _ _ _ _ _ HDeps).
  destruct (power_of_two_cases _ Hpow) as [HP|[HP|[HP|[Hwide Hdiv]]]].
  1-3: assert (PatternSize = 1 ∨ PatternSize = 2 ∨ PatternSize = 4) as Hcases
         by tauto;
       assert ((PatternSize =? 0) = false) as -> by (apply Z.eqb_neq; lia);
       assert ((PatternSize =? 1) || (PatternSize =? 2) || (PatternSize =? 4)
               = true) as -> by (subst PatternSize; done);
       unfold addNodeAndSyncPoint, hipGraphAddNode; rewrite Hok;
       rewrite addSyncPoint_with_node;
       eexists _, _, [_]; (split; [reflexivity|]); (split; [reflexivity|]);
       intros addr; simpl; by apply run_small_fill.
  (* a pattern wider than 4 bytes *)
  destruct (Z.eqb_spec PatternSize 0); [lia|].
  destruct (Z.eqb_spec PatternSize 1); [lia|].
  destruct (Z.eqb_spec PatternSize 2); [lia|].
  destruct (Z.eqb_spec PatternSize 4); [lia|]. cbn [orb].
  unfold hipGraphAddNode. rewrite Hok.
  rewrite addSyncPoint_with_node, Z.div_1_r.
  set (steps := Z.to_nat (PatternSize - 4)).
  match goal with |- context [with_node ?d ?w cb] => set (cb1 := with_node d w cb) end.
  destruct (fillSteps_chain steps fuel 4 PatternSize DstDevice Pattern Size
              (length (HIPGraph cb)) cb1 (Some (NextSyncPoint cb)))
    as (cb' & Hrun & Hg' & _);
    [done|lia|unfold steps; lia|lia|
     unfold cb1; rewrite with_node_graph, length_app; simpl; lia|
     unfold cb1; rewrite with_node_next; sync_point_arith|unfold steps; lia|].
  rewrite Hrun.
  destruct (decide (steps = 0%nat)) as [Hz|_]; [unfold steps in Hz; lia|].
  eexists cb', _, (_ :: _).
  split; [reflexivity|].
  split; [rewrite Hg'; unfold cb1; rewrite with_node_graph, <- app_assoc;
          reflexivity|].
  intros addr. simpl.
  rewrite <- filled_up_to_the_end by (done || lia).
  apply run_byte_chain; [done|lia|unfold steps; lia|done|done|].
  apply run_first_node; [done|done| |lia].
  apply (four_byte_elements_cover_region PatternSize); [lia|done|done].
Qed.

(** X19. A fill writes the pattern.  Take a pattern, not null, whose size
    is a power of two below [2 ^ 32], made of bytes, and a region whose size
    is a multiple of the pattern size; let the wait list be well formed and
    resolve, the native graph accept every node, and the fuel suffice.  Then
    the USM fill and the buffer fill return success, and the nodes the call
    has added to the graph, run one after the other as their dependencies
    order them, leave the region holding the pattern over and over, byte [i]
    of the region being byte [i mod patternSize] of the pattern, and leave
    every byte outside the region as it was.  The region starts at [pPtr]
    for the USM fill and at the address of [offset] in the buffer for the
    buffer fill.  This holds for the single node of a pattern of 1, 2 or 4
    bytes and for the chain of a wider pattern alike. *)
Theorem fill_writes_the_pattern fuel cb hBuffer pPtr Pattern patternSize
    offset size num wl Deps (m : Z → Z) :
  (∀ g node, hipGraphAddNode_error g node = None) →
  registry_wf cb →
  nullWaitListWithEntries num wl = false →
  resolved (SyncPoints cb) (waitListEntries num wl) = Some Deps →
  is_power_of_two patternSize → patternSize < 2 ^ 32 →
  0 ≤ size → size mod patternSize = 0 →
  Forall (fun b => 0 ≤ b < 256) Pattern →
  (Z.to_nat patternSize ≤ fuel)%nat →
  (∃ cb' SyncPoint nodes,
     urCommandBufferAppendUSMFillExp fuel cb pPtr (Some Pattern) patternSize
       size num wl = Returns (UR_RESULT_SUCCESS, cb', Some SyncPoint) ∧
     HIPGraph cb' = HIPGraph cb ++ nodes ∧
     ∀ addr,
       run_nodes nodes m addr = filled m pPtr Pattern patternSize size addr) ∧
  (∃ cb' SyncPoint nodes,
     urCommandBufferAppendMemBufferFillExp fuel cb hBuffer (Some Pattern)
       patternSize offset size num wl =
       Returns (UR_RESULT_SUCCESS, cb', Some SyncPoint) ∧
     HIPGraph cb' = HIPGraph cb ++ nodes ∧
     ∀ addr,
       run_nodes nodes m addr =
       filled m (getPtrWithOffset hBuffer (Device cb) offset) Pattern
         patternSize size addr).
Proof.
  intros Hok Hwf Hnull HDeps Hpow Hsmall HSize Hmul Hbytes Hfuel.
  assert (0 < patternSize) as Hpos.
  { destruct Hpow as (k & Hk & ->). by apply Z.pow_pos_nonneg. }
  assert (PatternSizeIsValid patternSize = true) as Hvalid
    by (apply power_of_two_PatternSizeIsValid; [lia|done]).
  split.
  - unfold urCommandBufferAppendUSMFillExp. rewrite Hnull, Hvalid. simpl.
    by apply enqueueCommandBufferFillHelper_writes_the_pattern with (Deps := Deps).
  - unfold urCommandBufferAppendMemBufferFillExp.
    rewrite (proj2 (Z.eqb_neq patternSize 0)) by lia.
    rewrite Hnull, Hvalid, Hmul. simpl. rewrite orb_true_r. simpl.
    by apply enqueueCommandBufferFillHelper_writes_the_pattern with (Deps := Deps).
Qed.

End FillWrites.

(** ** A kernel launch that fails *)

Section FailedLaunch.
Context `{Externals}.

(** X20. A kernel launch that fails records nothing.  When the call returns
    an error, the command buffers and the command handles of the heap are
    what they were, and nothing is stored through [pSyncPoint] or
    [phCommand]; only the kernel of the call can have changed, as
    [setKernelParams] has left it, and no other kernel. *)
Theorem failed_kernel_launch_records_nothing h hKernel workDim
    pGlobalWorkOffset pGlobalWorkSize pLocalWorkSize num wl pSyncPoint
    phCommand st r st' SyncPoint Command :
  urCommandBufferAppendKernelLaunchExp h hKernel workDim pGlobalWorkOffset
    pGlobalWorkSize pLocalWorkSize num wl pSyncPoint phCommand st =
  Returns (r, st', SyncPoint, Command) →
  r ≠ UR_RESULT_SUCCESS →
  buffers st' = buffers st ∧ commands st' = commands st ∧
  SyncPoint = None ∧ Command = None ∧
  (∀ hKernel', hKernel' ≠ hKernel → kernels st' !! hKernel' = kernels st !! hKernel').
Proof.
  unfold urCommandBufferAppendKernelLaunchExp.
  destruct (buffers st !! h) as [cb|]; simpl; [|done].
  destruct (kernels st !! hKernel) as [k|]; simpl; [|done].
  repeat (case_bool_decide; simpl; [|by intros [= <- <- <- <-]]).
  destruct (nullWaitListWithEntries num wl); [by intros [= <- <- <- <-]|].
  match goal with |- context [withDependencies cb num wl ?f ?k] =>
    destruct (withDependencies_cases cb num wl f k) as [->|(Deps & HDeps & ->)]
  end; [by intros [= <- <- <- <-]|].
  destruct (head pGlobalWorkSize) as [GlobalWorkSize0|]; simpl; [|done].
  unfold hipGraphAddNode.
  destruct (GlobalWorkSize0 =? 0).
  - destruct (hipGraphAddNode_error _ _); [by intros [= <- <- <- <-]|].
    destruct pSyncPoint; [|done]. by intros [= <- <- <- <-].
  - match goal with |- context [setKernelParams ?a1 ?a2 ?a3 ?a4 ?a5 ?a6 ?a7 ?a8 ?a9] =>
      destruct (setKernelParams a1 a2 a3 a4 a5 a6 a7 a8 a9) as [[[Result k1] T] B]
    end.
    assert (∀ hKernel', hKernel' ≠ hKernel →
              (<[hKernel := k1]> (kernels st)) !! hKernel' = kernels st !! hKernel')
      as Hother by (intros hKernel' Hne; by rewrite lookup_insert_ne).
    case_bool_decide; [by intros [= <- <- <- <-]|].
    destruct (hipGraphAddNode_error _ _); [by intros [= <- <- <- <-]|].
    by destruct pSyncPoint; intros [= <- <- <- <-].
Qed.

End FailedLaunch.


(** ** Instances *)

(** X2, instance: a USM copy on the fresh example buffer records one node. *)
Lemma single_node_entry_points_all_or_nothing_witness :
  ∃ what,
    records_one_node example_buffer copied_buffer
      {| dependencies := []; payload := what |} 0%N.
Proof.
  destruct (single_node_entry_points_all_or_nothing (H := ideal_externals)
              0 (USMMemcpy 0 0 8) 0 None _ example_buffer UR_RESULT_SUCCESS
              copied_buffer (Some 0%N) (registry_wf_new 1 0 true)
              eq_refl eq_refl eq_refl)
    as [(_ & Hsp & _)|(Deps & what & HDeps & _ & _ & Hrec & _)];
    [discriminate Hsp|].
  exists what. injection HDeps as <-. exact Hrec.
Defined.

(** X3, instance: the sync point 0 that the copy hands back names node 0,
    and was not in use on the fresh buffer. *)
Lemma returned_sync_point_names_the_new_node_witness :
  (length (HIPGraph example_buffer) < length (HIPGraph copied_buffer))%nat ∧
  SyncPoints copied_buffer !! 0%N =
    Some (length (HIPGraph copied_buffer) - 1)%nat ∧
  getNodesFromSyncPoints copied_buffer 1 (Some [0%N]) [] =
    (UR_RESULT_SUCCESS, [(length (HIPGraph copied_buffer) - 1)%nat]) ∧
  NextSyncPoint copied_buffer = ((0 + 1) mod 2 ^ 32)%N ∧
  SyncPoints example_buffer !! 0%N = None ∧
  (NextSyncPoint example_buffer ≤ 0)%N.
Proof.
  destruct (returned_sync_point_names_the_new_node (H := ideal_externals)
              0 (USMMemcpy 0 0 8) 0 None _ example_buffer UR_RESULT_SUCCESS
              copied_buffer 0%N
              (registry_wf_names_nodes _ (registry_wf_new 1 0 true))
              eq_refl eq_refl)
    as (Hlen & Hnode & Hget & Hnext & Hfresh).
  split; [exact Hlen|]. split; [exact Hnode|]. split; [exact Hget|].
  split; [exact Hnext|].
  apply Hfresh; [apply registry_wf_new|reflexivity].
Defined.

(** X4, instance: a second copy that waits for sync point 0 depends on
    node 0, and its sync point is 1. *)
Lemma waiting_on_a_returned_sync_point_witness :
  ∃ what,
    HIPGraph copied_twice_buffer =
      HIPGraph copied_buffer ++
      [{| dependencies := [(length (HIPGraph copied_buffer) - 1)%nat];
          payload := what |}] ∧
    (length (HIPGraph example_buffer) ≤ length (HIPGraph copied_buffer) - 1)%nat ∧
    1%N = ((0 + 1) mod 2 ^ 32)%N.
Proof.
  apply (waiting_on_a_returned_sync_point (H := ideal_externals)
           0 (USMMemcpy 0 0 8) 0 None _ example_buffer UR_RESULT_SUCCESS
           copied_buffer 0%N (USMMemcpy 8 8 8) _ UR_RESULT_SUCCESS
           copied_twice_buffer 1%N
           (registry_wf_names_nodes _ (registry_wf_new 1 0 true))
           eq_refl eq_refl eq_refl eq_refl eq_refl).
Defined.

(** X5, instance: a null wait list with a count of 2. *)
Lemma append_with_null_wait_list_witness :
  append (H := ideal_externals) 0 (USMMemcpy 0 0 8) 0 2 None example_heap =
  Returns (UR_RESULT_ERROR_INVALID_EVENT_WAIT_LIST, example_heap).
Proof.
  apply (append_with_null_wait_list (H := ideal_externals) 0 (USMMemcpy 0 0 8)
           0 2 example_heap example_buffer eq_refl); [lia|exact I].
Defined.

(** X7, instance: the copy on the example heap. *)
Lemma append_only_adds_witness :
  buffers copied_heap !! 0%nat = Some copied_buffer ∧
  grows_from example_buffer copied_buffer ∧
  CommandHandles example_buffer `prefix_of` CommandHandles copied_buffer ∧
  sync_points_name_nodes copied_buffer ∧
  (∀ h', h' ≠ 0%nat → buffers copied_heap !! h' = buffers example_heap !! h') ∧
  extends example_buffer copied_buffer ∧ registry_wf copied_buffer.
Proof.
  destruct (append_only_adds (H := ideal_externals) 0 (USMMemcpy 0 0 8) 0 0 None
              example_heap example_buffer UR_RESULT_SUCCESS copied_heap
              eq_refl (registry_wf_names_nodes _ (registry_wf_new 1 0 true)))
    as (cb' & Hb & Hgrow & Hhandles & Hnodes & Hothers & Hkeeps).
  - vm_compute. reflexivity.
  - assert (cb' = copied_buffer) as ->
      by (vm_compute in Hb; injection Hb as <-; reflexivity).
    split; [reflexivity|]. split; [exact Hgrow|]. split; [exact Hhandles|].
    split; [exact Hnodes|]. split; [exact Hothers|].
    apply Hkeeps; [apply registry_wf_new|reflexivity].
Defined.

(** X8, instance: the example session on the example heap, whose buffer
    [urCommandBufferCreateExp] has just created in the empty heap. *)
Lemma recording_session_invariants_witness :
  ∃ cb, buffers session_heap !! 0%nat = Some cb ∧
    sync_points_name_nodes cb ∧
    dependencies_point_back (HIPGraph cb) ∧
    owns_its_commands session_heap 0 cb ∧
    HIPGraph example_buffer `prefix_of` HIPGraph cb ∧
    Context cb = Context example_buffer ∧ Device cb = Device example_buffer ∧
    IsUpdatable cb = IsUpdatable example_buffer ∧
    RefCountExternal cb =
      RefCountExternal example_buffer +
      Z.of_nat (length (List.filter is_retain example_session)) ∧
    registry_wf cb ∧ SyncPoints example_buffer ⊆ SyncPoints cb ∧
    (NextSyncPoint example_buffer ≤ NextSyncPoint cb)%N.
Proof.
  destruct (recording_session_invariants (H := ideal_externals) 0
              example_session 0 example_heap example_buffer session_heap)
    as (cb & Hb & Hnodes & Hback & Howns & Hg & Hc & Hd & Hu & He & Hkeeps).
  - reflexivity.
  - apply registry_wf_names_nodes, registry_wf_new.
  - intros i node Hi. exfalso. revert Hi. change (HIPGraph example_buffer) with (@nil hipGraphNode).
    rewrite lookup_nil. discriminate.
  - destruct (owns_its_commands_created (H := ideal_externals) 1 0 (Some true)
                empty_heap UR_RESULT_SUCCESS example_heap 0)
      as (cb0 & Hb0 & Howns0); [vm_compute; reflexivity|].
    vm_compute in Hb0. injection Hb0 as <-. exact Howns0.
  - vm_compute. reflexivity.
  - exists cb. do 9 (split; [assumption|]).
    apply Hkeeps; [apply registry_wf_new|].
    vm_compute in Hb. injection Hb as <-. reflexivity.
Defined.

(** X10, instance: the buffer of [launched_heap] and its one command handle,
    released in either order. *)
Lemma releasing_everything_frees_everything_witness :
  (∃ st1 st2,
     releaseCommands (H := ideal_externals) [0%nat] launched_heap = Returns st1 ∧
     urCommandBufferReleaseExp 0 st1 = Returns (UR_RESULT_SUCCESS, st2) ∧
     buffers st2 !! 0%nat = None ∧ commands st2 !! 0%nat = None) ∧
  (∃ st1 st2,
     urCommandBufferReleaseExp (H := ideal_externals) 0 launched_heap =
       Returns (UR_RESULT_SUCCESS, st1) ∧
     is_Some (buffers st1 !! 0%nat) ∧
     releaseCommands [0%nat] st1 = Returns st2 ∧
     buffers st2 !! 0%nat = None ∧ commands st2 !! 0%nat = None).
Proof.
  assert (buffers launched_heap !! 0%nat = Some launched_buffer) as Hh
    by (vm_compute; reflexivity).
  assert (CommandHandles launched_buffer = [0%nat]) as Hl
    by (vm_compute; reflexivity).
  assert (owns_its_commands launched_heap 0 launched_buffer) as Howns.
  { unfold owns_its_commands. rewrite Hl.
    split; [apply NoDup_singleton|]. split; [|vm_compute; reflexivity].
    intros c Hc. apply list_elem_of_singleton in Hc as ->.
    eexists. split; vm_compute; reflexivity. }
  assert (∀ c cmd, c ∈ CommandHandles launched_buffer →
                   commands launched_heap !! c = Some cmd →
                   Command.RefCountInternal cmd = 2) as Hcmds.
  { rewrite Hl. intros c cmd Hc. apply list_elem_of_singleton in Hc as ->.
    vm_compute. by intros [= <-]. }
  destruct (releasing_everything_frees_everything (H := ideal_externals)
              0 launched_heap launched_buffer Hh Howns eq_refl Hcmds)
    as [(st1 & st2 & Hrun & _ & _ & Hrel & Hb & Hin & _)
        (st1' & st2' & Hrel' & Hlive & _ & Hrun' & Hb' & Hin' & _)].
  rewrite Hl in *. split.
  - exists st1, st2. split; [done|]. split; [done|].
    rewrite Hb, lookup_delete_eq. split; [done|]. apply Hin. by left.
  - exists st1', st2'. split; [done|]. split; [by apply Hlive|].
    split; [done|]. rewrite Hb', lookup_delete_eq. split; [done|].
    apply Hin'. by left.
Defined.

(** X11, instance: 8 passes the test and is a power of two. *)
Lemma PatternSizeIsValid_iff_power_of_two_witness :
  (PatternSizeIsValid 8 = true ↔ is_power_of_two 8) ∧
  PatternSizeIsValid 0 = false.
Proof. apply (PatternSizeIsValid_iff_power_of_two 8). lia. Defined.

(** X12, instance: the launch that leads from [example_heap] to
    [launched_heap]. *)
Lemma kernel_launch_creates_a_command_handle_witness :
  ∃ c, commands launched_heap !! 0%nat = Some c ∧
       Command.CommandBuffer c = 0%nat ∧
       Command.RefCountInternal c = 2 ∧ Command.RefCountExternal c = 1 ∧
       Command.GlobalWorkSize c = [64; 0; 0] ∧
       Command.LocalWorkSize c = [0; 0; 0].
Proof.
  destruct (kernel_launch_creates_a_command_handle (H := ideal_externals)
              0 0 1 [0] [64] None 0 None true true example_heap example_buffer
              64 launched_heap (Some 0%N) (Some 0%nat) eq_refl eq_refl)
    as (NewCommand & c & cb' & Deps & _ & Hc & [= <-] & _ & _ & _ & _ & Hparent
        & _ & _ & _ & Hint & Hext & _ & _ & _ & Hgeometry);
    [lia|vm_compute; reflexivity|].
  destruct (Hgeometry eq_refl) as (_ & Hsize & Hlocal & _).
  exists c. rewrite Hc, lookup_insert_eq. split; [done|]. split; [done|].
  split; [done|]. split; [done|]. split; [|by apply Hlocal].
  apply Hsize. simpl. lia.
Defined.

(** X13, instance: the update that leads from [finalized_heap] to
    [updated_heap] leaves the recorded graph and the counts alone. *)
Lemma update_touches_only_its_command_witness :
  ∃ cb cb',
    buffers finalized_heap !! 0%nat = Some cb ∧
    buffers updated_heap !! 0%nat = Some cb' ∧
    HIPGraph cb' = HIPGraph cb ∧ SyncPoints cb' = SyncPoints cb ∧
    RefCountInternal cb' = RefCountInternal cb ∧
    RefCountExternal cb' = RefCountExternal cb.
Proof.
  assert (∃ c, commands finalized_heap !! 0%nat = Some c ∧
               Command.CommandBuffer c = 0%nat) as (c & Hc & Hparent)
    by (eexists; split; vm_compute; reflexivity).
  assert (∃ cb, buffers finalized_heap !! 0%nat = Some cb) as (cb & Hcb)
    by (eexists; vm_compute; reflexivity).
  destruct (update_touches_only_its_command (H := ideal_externals) 0
              (new_global_size [128]) finalized_heap c cb UR_RESULT_SUCCESS
              updated_heap Hc)
    as (cb' & c' & Hb & _ & Hg & Hs & _ & _ & Hi & He & _);
    [by rewrite Hparent|vm_compute; reflexivity|].
  exists cb, cb'. split; [done|].
  rewrite Hb, Hparent, lookup_insert_eq. by repeat split.
Defined.

(** X14, instance: the finalized buffer enqueued on queue 3 of the ideal
    queue, with an event asked for. *)
Lemma enqueue_launches_after_the_wait_witness :
  ∃ HIPStream StreamToken,
    getNextComputeStream (QueueExternals := ideal_queue_externals) 3%nat 0 None =
      inr (HIPStream, StreamToken) ∧
    (urCommandBufferEnqueueExp (H := ideal_queue_externals) finalized_buffer
       3%nat 0 None true).1.2 =
      Some (makeNative (QueueExternals := ideal_queue_externals) 3%nat
              HIPStream StreamToken) ∧
    (urCommandBufferEnqueueExp (H := ideal_queue_externals) finalized_buffer
       3%nat 0 None true).2 =
      [EventsWait 0 None] ++
      (EventStart <$> option_list
         (urCommandBufferEnqueueExp (H := ideal_queue_externals)
            finalized_buffer 3%nat 0 None true).1.2) ++
      [GraphLaunch (HIPGraphExec finalized_buffer)] ++
      (EventRecord <$> option_list
         (urCommandBufferEnqueueExp (H := ideal_queue_externals)
            finalized_buffer 3%nat 0 None true).1.2).
Proof.
  exact (proj2 (proj2 (proj2
           (enqueue_launches_after_the_wait (H := ideal_queue_externals)
              finalized_buffer 3%nat 0%nat None true))) eq_refl).
Defined.

(** X15, instance: a fill with an 8-byte pattern when the native graph takes
    one node only. *)
Lemma wide_fill_can_fail_half_way_witness :
  ∃ cb',
    enqueueCommandBufferFillHelper (H := one_node_externals) 4 example_buffer 0
      hipMemoryTypeUnified [1; 2; 3; 4; 5; 6; 7; 8] 8 16 0 None =
    Returns (UR_RESULT_ERROR_OUT_OF_RESOURCES, cb', Some 0%N) ∧
    length (HIPGraph cb') = 1%nat ∧
    SyncPoints cb' !! 0%N = Some 0%nat.
Proof.
  eexists. split; [|split].
  - apply (wide_fill_can_fail_half_way (H := one_node_externals) 4
             example_buffer 0 hipMemoryTypeUnified [1; 2; 3; 4; 5; 6; 7; 8]
             8 16 0 None [] UR_RESULT_ERROR_OUT_OF_RESOURCES);
      [lia|lia|reflexivity|reflexivity|reflexivity].
  - reflexivity.
  - reflexivity.
Defined.

(** X16, instance: a copy of [2 ^ 64 - 8] bytes at offset 16 between two
    buffers of 16 bytes. *)
Lemma buffer_copy_bounds_wrap_around_witness :
  ∃ cb',
    urCommandBufferAppendMemBufferCopyExp (H := ideal_externals) example_buffer
      16 16 16 16 18446744073709551608 0 None =
    (UR_RESULT_SUCCESS, cb', Some 0%N) ∧
    HIPGraph cb' =
      [{| dependencies := [];
          payload :=
            hipGraphNodeTypeMemcpy1D 16 16 18446744073709551608
              hipMemcpyDeviceToDevice |}].
Proof.
  eexists. split.
  - apply (buffer_copy_bounds_wrap_around (H := ideal_externals) example_buffer
             16 16 16 16 18446744073709551608 0 None []);
      [lia|lia|lia|simpl; lia|simpl; lia|simpl; lia|simpl; lia
      |reflexivity|reflexivity|reflexivity].
  - reflexivity.
Defined.

(** X17, instance: a launch of global size 0 on the example heap, with a
    command pointer. *)
Lemma zero_sized_launch_records_an_empty_node_witness :
  ∃ st',
    urCommandBufferAppendKernelLaunchExp (H := ideal_externals) 0 0 1 [0] [0]
      None 0 None true true example_heap =
    Returns (UR_RESULT_SUCCESS, st', Some 0%N, None) ∧
    commands st' = ∅ ∧
    ∃ cb', buffers st' !! 0%nat = Some cb' ∧
           HIPGraph cb' =
             [{| dependencies := []; payload := hipGraphNodeTypeEmpty |}] ∧
           CommandHandles cb' = [].
Proof.
  eexists. split; [|split].
  - apply (zero_sized_launch_records_an_empty_node (H := ideal_externals)
             0 0 1 [0] [] None 0 None true true example_heap example_buffer
             1%nat []); [reflexivity|reflexivity|reflexivity|lia
                        |reflexivity|reflexivity|reflexivity].
  - reflexivity.
  - eexists. split; [vm_compute; reflexivity|]. split; reflexivity.
Defined.

(** X18, instance: an update of the launched command to four dimensions. *)
Lemma update_sets_arguments_before_it_checks_the_dimension_witness :
  urCommandBufferUpdateKernelLaunchExp (H := ideal_externals) 0 four_dimensions
    finalized_heap =
  Returns (UR_RESULT_ERROR_INVALID_WORK_DIMENSION, finalized_heap).
Proof.
  assert (∃ c, commands finalized_heap !! 0%nat = Some c ∧
               Command.CommandBuffer c = 0%nat ∧ Command.Kernel c = 0%nat)
    as (c & Hc & Hparent & Hkernel)
    by (eexists; split; [|split]; vm_compute; reflexivity).
  assert (∃ cb GraphExec,
            buffers finalized_heap !! 0%nat = Some cb ∧
            HIPGraphExec cb = Some GraphExec ∧ IsUpdatable cb = true)
    as (cb & GraphExec & Hcb & Hexec & Hupd)
    by (eexists _, _; split; [|split]; vm_compute; reflexivity).
  destruct (update_sets_arguments_before_it_checks_the_dimension
              (H := ideal_externals) 0 four_dimensions finalized_heap c cb
              GraphExec 1%nat Hc) as (Hrun & _);
    [by rewrite Hparent|done|done|by rewrite Hkernel; vm_compute|simpl; lia|].
  rewrite Hrun. simpl. do 2 f_equal.
  rewrite Hkernel. vm_compute. reflexivity.
Defined.

(** X19, instance: an 8-byte pattern over 16 bytes of zeroed memory. *)
Lemma fill_writes_the_pattern_witness :
  ∃ cb' SyncPoint nodes,
    urCommandBufferAppendUSMFillExp (H := ideal_externals) 8 example_buffer 0
      (Some [1; 2; 3; 4; 5; 6; 7; 8]) 8 16 0 None =
      Returns (UR_RESULT_SUCCESS, cb', Some SyncPoint) ∧
    HIPGraph cb' = HIPGraph example_buffer ++ nodes ∧
    ∀ addr,
      run_nodes nodes (fun _ => 0) addr =
      filled (fun _ => 0) 0 [1; 2; 3; 4; 5; 6; 7; 8] 8 16 addr.
Proof.
  apply (fill_writes_the_pattern (H := ideal_externals) 8 example_buffer 16 0
           [1; 2; 3; 4; 5; 6; 7; 8] 8 0 16 0 None [] (fun _ => 0)).
  - intros g node. reflexivity.
  - apply registry_wf_new.
  - reflexivity.
  - reflexivity.
  - exists 3. split; [lia|reflexivity].
  - lia.
  - lia.
  - reflexivity.
  - repeat (constructor; [lia|]). constructor.
  - vm_compute. lia.
Defined.

(** X20, instance: a launch with a library that computes the launch
    parameters and then refuses the kernel node.  The call returns the error
    of the refusal; the kernel has been changed by [setKernelParams]; the
    command buffers and the command handles are what they were. *)
Lemma failed_kernel_launch_records_nothing_witness :
  urCommandBufferAppendKernelLaunchExp (H := refusing_externals) 0 0 1
    [0] [64] None 0 None true true refusing_heap =
    Returns (UR_RESULT_ERROR_OUT_OF_RESOURCES, refused_heap, None, None) ∧
  kernels refusing_heap !! 0%nat = Some (1%nat, 0) ∧
  kernels refused_heap !! 0%nat = Some (1%nat, 1) ∧
  buffers refused_heap = buffers refusing_heap ∧
  commands refused_heap = commands refusing_heap ∧
  (None : option N) = None ∧ (None : option nat) = None ∧
  (∀ hKernel', hKernel' ≠ 0%nat →
               kernels refused_heap !! hKernel' = kernels refusing_heap !! hKernel').
Proof.
  assert (urCommandBufferAppendKernelLaunchExp (H := refusing_externals) 0 0 1
            [0] [64] None 0 None true true refusing_heap =
          Returns (UR_RESULT_ERROR_OUT_OF_RESOURCES, refused_heap, None, None))
    as Hrun by (vm_compute; reflexivity).
  split; [exact Hrun|]. split; [reflexivity|]. split; [reflexivity|].
  apply (failed_kernel_launch_records_nothing (H := refusing_externals) 0 0 1
           [0] [64] None 0 None true true refusing_heap
           UR_RESULT_ERROR_OUT_OF_RESOURCES refused_heap None None Hrun).
  discriminate.
Defined.
